(** * latex-to-omml: the LaTeX reader and the OMML writer.

    A shallow embedding of [src/types.ts], [src/reader.ts] and
    [src/writer.ts].  JavaScript strings are sequences of UTF-16 code
    units, so a string is a list of code units ([N]); the parser is a
    cursor over the input, modelled as a state-and-exception monad over
    the position [pos]; the writer is a structural recursion over the
    expression tree. *)

From Stdlib Require Import List NArith Arith Bool String Ascii QArith Lia.
Import ListNotations.

Set Implicit Arguments.
Set Warnings "-register-all".
Local Open Scope nat_scope.
Local Open Scope list_scope.

(* ================================================================== *)
(** ** JavaScript strings *)

Module JS.

(** One UTF-16 code unit. *)
Definition char := N.
Definition jsstring := list char.

(** An ASCII literal as a JavaScript string. *)
Definition lit (s : string) : jsstring :=
  map N_of_ascii (list_ascii_of_string s).

Definition chr (a : ascii) : char := N_of_ascii a.

Definition char_eqb (a b : char) : bool := N.eqb a b.

Fixpoint str_eqb (a b : jsstring) : bool :=
  match a, b with
  | [], [] => true
  | x :: a', y :: b' => N.eqb x y && str_eqb a' b'
  | _, _ => false
  end.

(** [array.includes(x)] on an array of strings. *)
Definition includes (l : list jsstring) (x : jsstring) : bool :=
  existsb (str_eqb x) l.

(** [s.substr(pos, n)]. *)
Definition substr (s : jsstring) (pos n : nat) : jsstring :=
  firstn n (skipn pos s).

(** [s.substring(start, stop)], for [start <= stop] (the parser never
    calls it otherwise). *)
Definition substring (s : jsstring) (start stop : nat) : jsstring :=
  firstn (stop - start) (skipn start s).

(** [s.includes(sub)]. *)
Fixpoint str_includes (s sub : jsstring) : bool :=
  str_eqb (firstn (List.length sub) s) sub ||
  match s with
  | [] => false
  | _ :: s' => str_includes s' sub
  end.

(** [/\d/], [/[a-zA-Z]/], [/\w/] and [/\s/] on one code unit. *)
Definition isDigit (c : char) : bool := (48 <=? c)%N && (c <=? 57)%N.

Definition isLetter (c : char) : bool :=
  ((65 <=? c)%N && (c <=? 90)%N) || ((97 <=? c)%N && (c <=? 122)%N).

Definition isWord (c : char) : bool :=
  isLetter c || isDigit c || (c =? 95)%N.

Definition isSpace (c : char) : bool :=
  ((9 <=? c)%N && (c <=? 13)%N) || (c =? 32)%N || (c =? 160)%N ||
  (c =? 5760)%N || ((8192 <=? c)%N && (c <=? 8202)%N) ||
  (c =? 8232)%N || (c =? 8233)%N || (c =? 8239)%N || (c =? 8287)%N ||
  (c =? 12288)%N || (c =? 65279)%N.

End JS.

Import JS.

(* ================================================================== *)
(** ** The expression tree ([types.ts]) *)

Inductive TeXSymbolType :=
  | Ord | Op | Bin | Rel | Open | Close | Pun | Accent | Fence
  | TOver | TUnder | Alpha | BotAccent | Rad.

Inductive Alignment := AlignLeft | AlignCenter | AlignRight.

Inductive FractionType := NormalFrac | DisplayFrac | InlineFrac | NoLineFrac.

Inductive StrokeType := ForwardSlash | BackSlash | XSlash.

Inductive TextType :=
  | TextNormal | TextBold | TextItalic | TextMonospace | TextSansSerif
  | TextDoubleStruck | TextScript | TextFraktur | TextBoldItalic
  | TextSansSerifBold | TextSansSerifBoldItalic | TextBoldScript
  | TextBoldFraktur | TextSansSerifItalic.

Inductive DisplayType := DisplayBlock | DisplayInline.

(** [{ type: 'Left', value: string } | { type: 'Right', value: Exp }] *)
Inductive InEDelimitedOf (E : Type) :=
  | Left (value : jsstring)
  | Right (value : E).

Arguments Left {E} value.
Arguments Right {E} value.

(** A JavaScript number: a finite double, given by the rational that
    is its exact value, an infinity, or [NaN]. *)
Inductive JSNumber :=
  | Finite (value : Q)
  | PosInfinity
  | NegInfinity
  | NaN.

(** [n > c] and [n <= c] for a finite [c]; every comparison with [NaN]
    is false. *)
Definition numGt (n : JSNumber) (c : Q) : bool :=
  match n with
  | Finite q => negb (Qle_bool q c)
  | PosInfinity => true
  | NegInfinity => false
  | NaN => false
  end.

Definition numLe (n : JSNumber) (c : Q) : bool :=
  match n with
  | Finite q => Qle_bool q c
  | PosInfinity => false
  | NegInfinity => true
  | NaN => false
  end.

(** The exact values of the doubles that the literals [0.17], [0.23],
    [0.28], [0.33] and [1.8] denote ([0.5] is exact). *)
Definition double_0_17 : Q := 6124895493223875 # 36028797018963968.
Definition double_0_23 : Q := 8286623314361713 # 36028797018963968.
Definition double_0_28 : Q := 1261007895663739 # 4503599627370496.
Definition double_0_33 : Q := 5944751508129055 # 18014398509481984.
Definition double_1_8 : Q := 8106479329266893 # 4503599627370496.

Inductive Exp :=
  | ENumber (value : jsstring)
  | EGrouped (value : list Exp)
  | EDelimited (open close : jsstring) (content : list (InEDelimitedOf Exp))
  | EIdentifier (value : jsstring)
  | EMathOperator (value : jsstring)
  | ESymbol (symbolType : TeXSymbolType) (value : jsstring)
  | ESpace (width : JSNumber)
  | ESub (base subscript : Exp)
  | ESuper (base superscript : Exp)
  | ESubsup (base subscript superscript : Exp)
  | EOver (convertible : bool) (base over : Exp)
  | EUnder (convertible : bool) (base under : Exp)
  | EUnderover (convertible : bool) (base under over : Exp)
  | EPhantom (value : Exp)
  | EBoxed (value : Exp)
  | ECancel (strokeType : StrokeType) (value : Exp)
  | EFraction (fractionType : FractionType) (numerator denominator : Exp)
  | ERoot (index base : Exp)
  | ESqrt (value : Exp)
  | EScaled (scale : JSNumber) (value : Exp)
  | EArray (alignments : list Alignment) (lines : list (list (list Exp)))
  | EText (textType : TextType) (value : jsstring)
  | EStyled (textType : TextType) (value : list Exp).

Definition InEDelimited := InEDelimitedOf Exp.
Definition ArrayLine := list (list (list Exp)).

Definition symbolType_eqb (a b : TeXSymbolType) : bool :=
  match a, b with
  | Ord, Ord | Op, Op | Bin, Bin | Rel, Rel | Open, Open | Close, Close
  | Pun, Pun | Accent, Accent | Fence, Fence | TOver, TOver
  | TUnder, TUnder | Alpha, Alpha | BotAccent, BotAccent | Rad, Rad => true
  | _, _ => false
  end.

(** [types.includes(t)] on an array of symbol classes. *)
Definition includesType (l : list TeXSymbolType) (t : TeXSymbolType) : bool :=
  existsb (symbolType_eqb t) l.

(* ================================================================== *)
(** ** The binary-operator post-pass ([Parser.fixBinList]) *)

Module FixBin.

(** [exp.type === 'ESymbol' && exp.symbolType === 'Bin'] *)
Definition isBinSymbol (e : Exp) : bool :=
  match e with
  | ESymbol Bin _ => true
  | _ => false
  end.

(** [prev.type === 'ESymbol' && types.includes(prev.symbolType)] *)
Definition isSymbolOf (types : list TeXSymbolType) (e : Exp) : bool :=
  match e with
  | ESymbol t _ => includesType types t
  | _ => false
  end.

(** [{ ...exp, symbolType: 'Ord' }], applied to symbols only. *)
Definition toOrd (e : Exp) : Exp :=
  match e with
  | ESymbol _ v => ESymbol Ord v
  | _ => e
  end.

(** [result[result.length - 1] = x], for a non-empty [result]. *)
Definition setLast (result : list Exp) (x : Exp) : list Exp :=
  removelast result ++ [x].

(** One iteration of the [for] loop: [result] is the array built so
    far, [exp] is [exps[i]]. *)
Definition fixBinStep (result : list Exp) (exp : Exp) : list Exp :=
  if isBinSymbol exp then
    match result with
    | [] => result ++ [toOrd exp]
    | _ :: _ =>
        let prev := last result exp in
        if isSymbolOf [Bin; Op; Rel; Open; Pun] prev
        then result ++ [toOrd exp]
        else result ++ [exp]
    end
  else if isSymbolOf [Rel; Close; Pun] exp then
    let result' :=
      match result with
      | [] => result
      | _ :: _ =>
          let prev := last result exp in
          if isBinSymbol prev then setLast result (toOrd prev) else result
      end in
    result' ++ [exp]
  else result ++ [exp].

Definition fixBinList (exps : list Exp) : list Exp :=
  fold_left fixBinStep exps [].

(** What the pass may do to one element. *)
Definition binToOrd (i o : Exp) : Prop :=
  o = i \/ exists v, i = ESymbol Bin v /\ o = ESymbol Ord v.

End FixBin.

(* ================================================================== *)
(** ** The OMML writer ([writer.ts]) *)

Module Writer.

(** [XMLNode | string]: an element, or a text leaf among its children. *)
Inductive XMLNode :=
  | Node (tag : jsstring) (attrs : list (jsstring * jsstring))
         (children : list XMLNode)
  | Text (s : jsstring).

Definition createNode (tag : jsstring) (attrs : list (jsstring * jsstring))
    (children : list XMLNode) : XMLNode :=
  Node (lit "m:" ++ tag) attrs children.

Definition createNodeWithVal (tag val : jsstring)
    (children : list XMLNode) : XMLNode :=
  createNode tag [(lit "m:val", val)] children.

(** [str.replace(/c/g, by)] for a one-character pattern. *)
Definition replaceAll (c : char) (by_ : jsstring) (s : jsstring) : jsstring :=
  flat_map (fun x => if N.eqb x c then by_ else [x]) s.

Definition amp : char := 38%N.
Definition lessThan : char := 60%N.
Definition greaterThan : char := 62%N.
Definition quot : char := 34%N.
Definition apos : char := 39%N.

Definition escapeXml (s : jsstring) : jsstring :=
  replaceAll apos (lit "&apos;")
    (replaceAll quot (lit "&quot;")
      (replaceAll greaterThan (lit "&gt;")
        (replaceAll lessThan (lit "&lt;")
          (replaceAll amp (lit "&amp;") s)))).

(** [parts.join(sep)] *)
Fixpoint join (sep : jsstring) (parts : list jsstring) : jsstring :=
  match parts with
  | [] => []
  | [p] => p
  | p :: rest => p ++ sep ++ join sep rest
  end.

(** ['  '.repeat(indent)] *)
Fixpoint repeatStr (s : jsstring) (n : nat) : jsstring :=
  match n with
  | O => []
  | S n' => s ++ repeatStr s n'
  end.

Definition attrsToString (attrs : list (jsstring * jsstring)) : jsstring :=
  List.concat (map (fun kv => lit " " ++ fst kv ++ lit "=" ++ [quot] ++
                         escapeXml (snd kv) ++ [quot]) attrs).

Fixpoint nodeToString (node : XMLNode) (indent : nat) : jsstring :=
  match node with
  | Text s => s
  | Node tag attrs children =>
      let spaces := repeatStr (lit "  ") indent in
      let attrs := attrsToString attrs in
      match children with
      | [] => spaces ++ lit "<" ++ tag ++ attrs ++ lit "/>"
      | [Text t] =>
          spaces ++ lit "<" ++ tag ++ attrs ++ lit ">" ++ escapeXml t ++
          lit "</" ++ tag ++ lit ">"
      | _ =>
          let childrenStr :=
            join [10%N] (map (fun child => nodeToString child (indent + 1))
                           children) in
          spaces ++ lit "<" ++ tag ++ attrs ++ lit ">" ++ [10%N] ++
          childrenStr ++ [10%N] ++ spaces ++ lit "</" ++ tag ++ lit ">"
      end
  end.

Definition str (props : list XMLNode) (text : jsstring) : XMLNode :=
  match props with
  | [] => createNode (lit "r") [] [createNode (lit "t") [] [Text text]]
  | _ :: _ =>
      createNode (lit "r") []
        [createNode (lit "rPr") [] props;
         createNode (lit "t") [] [Text text]]
  end.

Definition setProps (textType : TextType) : list XMLNode :=
  let sty val := createNodeWithVal (lit "sty") (lit val) [] in
  let scr val := createNodeWithVal (lit "scr") (lit val) [] in
  match textType with
  | TextNormal => [sty "p"]
  | TextBold => [sty "b"]
  | TextItalic => [sty "i"]
  | TextMonospace => [scr "monospace"; sty "p"]
  | TextSansSerif => [scr "sans-serif"; sty "p"]
  | TextDoubleStruck => [scr "double-struck"; sty "p"]
  | TextScript => [scr "script"; sty "p"]
  | TextFraktur => [scr "fraktur"; sty "p"]
  | TextBoldItalic => [sty "bi"]
  | TextSansSerifBold => [scr "sans-serif"; sty "b"]
  | TextBoldScript => [scr "script"; sty "b"]
  | TextBoldFraktur => [scr "fraktur"; sty "b"]
  | TextSansSerifItalic => [scr "sans-serif"; sty "i"]
  | TextSansSerifBoldItalic => [scr "sans-serif"; sty "bi"]
  end%string.

Definition defaultTo (textType : TextType) (props : list XMLNode)
    : list XMLNode :=
  match props with
  | [] => setProps textType
  | _ :: _ => props
  end.

Definition isBarChar (c : jsstring) : bool :=
  str_eqb c [8254%N] || str_eqb c [175%N] || str_eqb c [772%N] ||
  str_eqb c [819%N] || str_eqb c (lit "_").

Definition narySymbols : list jsstring :=
  [ [8747%N]; [8748%N]; [8749%N]; [8750%N]; [8751%N]; [8752%N];
    [8719%N]; [8720%N]; [8721%N] ].

Definition isNary (exp : Exp) : bool :=
  match exp with
  | ESymbol Op value => includes narySymbols value
  | _ => false
  end.

Definition isUppercaseGreek (c : jsstring) : bool :=
  includes [ [915%N]; [916%N]; [920%N]; [923%N]; [926%N]; [928%N];
             [931%N]; [933%N]; [934%N]; [936%N]; [937%N] ] c.

(** U+200B, the zero-width space. *)
Definition zwsp : jsstring := [8203%N].

Definition spaceChar (width : JSNumber) : jsstring :=
  if numGt width 0 && numLe width double_0_17 then [8201%N]
  else if numGt width double_0_17 && numLe width double_0_23 then [8197%N]
  else if numGt width double_0_23 && numLe width double_0_28 then [8196%N]
  else if numGt width double_0_28 && numLe width (1 # 2) then [8196%N]
  else if numGt width (1 # 2) && numLe width double_1_8 then [8193%N]
  else if numGt width double_1_8 then [8193%N; 8193%N]
  else zwsp.

(** [exp.value.length === 1 && /[^\w\s]/.test(exp.value)] *)
Definition isSymbolOrPunct (value : jsstring) : bool :=
  match value with
  | [c] => negb (isWord c || isSpace c)
  | _ => false
  end.

Definition showSymbol (props : list XMLNode) (symbolType : TeXSymbolType)
    (value : jsstring) : list XMLNode :=
  if isSymbolOrPunct value then
    [str (defaultTo TextNormal props) value]
  else if includesType [Op; Bin; Rel] symbolType then
    [createNode (lit "box") []
       [createNode (lit "boxPr") []
          [createNodeWithVal (lit "opEmu") (lit "on") []];
        createNode (lit "e") [] [str (defaultTo TextNormal props) value]]]
  else [str (defaultTo TextNormal props) value].

(** The loop of the [EDelimited] case that cuts [content] into the runs
    of sub-expressions between separators. *)
Fixpoint groupsLoop {A : Type} (content : list (InEDelimitedOf A))
    (elements : list (list A)) (currentGroup : list A) : list (list A) :=
  match content with
  | [] =>
      match currentGroup with
      | [] => elements
      | _ :: _ => elements ++ [currentGroup]
      end
  | Left _ :: rest =>
      match currentGroup with
      | [] => groupsLoop rest elements currentGroup
      | _ :: _ => groupsLoop rest (elements ++ [currentGroup]) []
      end
  | Right v :: rest => groupsLoop rest elements (currentGroup ++ [v])
  end.

Definition delimitedGroups {A : Type} (content : list (InEDelimitedOf A))
    : list (list A) :=
  groupsLoop content [] [].

(** [separators.length > 0 ? separators[0] : ''] *)
Fixpoint firstSeparator {A : Type} (content : list (InEDelimitedOf A))
    : jsstring :=
  match content with
  | [] => []
  | Left s :: _ => s
  | Right _ :: rest => firstSeparator rest
  end.

Definition delimitedNode (open close sepChr : jsstring)
    (groups : list (list XMLNode)) : XMLNode :=
  createNode (lit "d") []
    (createNode (lit "dPr") []
       [createNodeWithVal (lit "begChr") open [];
        createNodeWithVal (lit "sepChr") sepChr [];
        createNodeWithVal (lit "endChr") close [];
        createNode (lit "grow") [] []]
     :: map (fun group => createNode (lit "e") [] group) groups).

(** The [EUnder] case, given the nodes of [exp.base] and [exp.under]. *)
Definition underNodes (under : Exp) (shownBase shownUnder : list XMLNode)
    : list XMLNode :=
  match under with
  | ESymbol TUnder value =>
      if isBarChar value then
        [createNode (lit "bar") []
           [createNode (lit "barPr") []
              [createNodeWithVal (lit "pos") (lit "bot") []];
            createNode (lit "e") [] shownBase]]
      else
        [createNode (lit "groupChr") []
           [createNode (lit "groupChrPr") []
              [createNodeWithVal (lit "chr") value [];
               createNodeWithVal (lit "pos") (lit "bot") [];
               createNodeWithVal (lit "vertJc") (lit "top") []];
            createNode (lit "e") [] shownBase]]
  | _ =>
      [createNode (lit "limLow") []
         [createNode (lit "e") [] shownBase;
          createNode (lit "lim") [] shownUnder]]
  end.

(** The [EOver] case, given the nodes of [exp.base] and [exp.over]. *)
Definition overNodes (over : Exp) (shownBase shownOver : list XMLNode)
    : list XMLNode :=
  match over with
  | ESymbol TOver value =>
      if isBarChar value then
        [createNode (lit "bar") []
           [createNode (lit "barPr") []
              [createNodeWithVal (lit "pos") (lit "top") []];
            createNode (lit "e") [] shownBase]]
      else
        [createNode (lit "groupChr") []
           [createNode (lit "groupChrPr") []
              [createNodeWithVal (lit "chr") value [];
               createNodeWithVal (lit "pos") (lit "top") [];
               createNodeWithVal (lit "vertJc") (lit "bot") []];
            createNode (lit "e") [] shownBase]]
  | ESymbol Accent value =>
      [createNode (lit "acc") []
         [createNode (lit "accPr") []
            [createNodeWithVal (lit "chr") value []];
          createNode (lit "e") [] shownBase]]
  | _ =>
      [createNode (lit "limUpp") []
         [createNode (lit "e") [] shownBase;
          createNode (lit "lim") [] shownOver]]
  end.

Section ShowHelpers.

(** [e => showExp(props, e)], the recursive call of the helpers. *)
Variable show : Exp -> list XMLNode.

Definition showFraction (fractionType : FractionType)
    (numerator denominator : Exp) : XMLNode :=
  let numChildren := show numerator in
  let denChildren := show denominator in
  let typeVal :=
    match fractionType with
    | InlineFrac => lit "lin"
    | NoLineFrac => lit "noBar"
    | _ => lit "bar"
    end in
  createNode (lit "f") []
    [createNode (lit "fPr") [] [createNodeWithVal (lit "type") typeVal []];
     createNode (lit "num") [] numChildren;
     createNode (lit "den") [] denChildren].

Definition alignStr (align : Alignment) : jsstring :=
  match align with
  | AlignLeft => lit "left"
  | AlignRight => lit "right"
  | AlignCenter => lit "center"
  end.

Definition makeArray (alignments : list Alignment)
    (lines : list (list (list Exp))) : XMLNode :=
  let mProps :=
    createNode (lit "mPr") []
      [createNodeWithVal (lit "baseJc") (lit "center") [];
       createNodeWithVal (lit "plcHide") (lit "on") [];
       createNode (lit "mcs") []
         (map (fun align =>
                 createNode (lit "mc") []
                   [createNode (lit "mcPr") []
                      [createNodeWithVal (lit "mcJc") (alignStr align) [];
                       createNodeWithVal (lit "count") (lit "1") []]])
              alignments)] in
  let rows :=
    map (fun line =>
           createNode (lit "mr") []
             (map (fun cell => createNode (lit "e") [] (flat_map show cell))
                  line))
        lines in
  createNode (lit "m") [] (mProps :: rows).

(** [x.type === 'EGrouped' && x.value.length === 0 ? 'on' : 'off'] *)
Definition hideFlag (x : Exp) : jsstring :=
  match x with
  | EGrouped [] => lit "on"
  | _ => lit "off"
  end.

Definition makeNary (limLoc symbol : jsstring) (sub sup base : Exp)
    : XMLNode :=
  let subHide := hideFlag sub in
  let supHide := hideFlag sup in
  createNode (lit "nary") []
    [createNode (lit "naryPr") []
       [createNodeWithVal (lit "chr") symbol [];
        createNodeWithVal (lit "limLoc") limLoc [];
        createNodeWithVal (lit "subHide") subHide [];
        createNodeWithVal (lit "supHide") supHide []];
     createNode (lit "sub") [] (show sub);
     createNode (lit "sup") [] (show sup);
     createNode (lit "e") [] (show base)].

Definition makeCancel (strokeType : StrokeType) (exp : Exp) : XMLNode :=
  let strokes1 :=
    match strokeType with
    | ForwardSlash | XSlash =>
        [createNodeWithVal (lit "strikeBLTR") (lit "1") []]
    | BackSlash => []
    end in
  let strokes :=
    match strokeType with
    | BackSlash | XSlash =>
        strokes1 ++ [createNodeWithVal (lit "strikeTLBR") (lit "1") []]
    | ForwardSlash => strokes1
    end in
  createNode (lit "borderBox") []
    [createNode (lit "borderBoxPr") []
       ([createNodeWithVal (lit "hideTop") (lit "1") [];
         createNodeWithVal (lit "hideBot") (lit "1") [];
         createNodeWithVal (lit "hideLeft") (lit "1") [];
         createNodeWithVal (lit "hideRight") (lit "1") []] ++ strokes);
     createNode (lit "e") [] (show exp)].

End ShowHelpers.

Definition makeText (textType : TextType) (text : jsstring) : XMLNode :=
  str (createNode (lit "nor") [] [] :: setProps textType) text.

(** [first.base.type === 'ESymbol' ? first.base.value : ''] *)
Definition symbolValue (e : Exp) : jsstring :=
  match e with
  | ESymbol _ v => v
  | _ => []
  end.

Fixpoint showExp (props : list XMLNode) (exp : Exp) {struct exp}
    : list XMLNode :=
  match exp with
  | ENumber value => [str props value]
  | EGrouped value =>
      match value with
      | [] => [str props zwsp]
      | [first; second] =>
          match first with
          | EUnderover _ base under over =>
              if isNary base then
                [makeNary (showExp props) (lit "undOvr") (symbolValue base)
                   under over second]
              else flat_map (showExp props) value
          | ESubsup base subscript superscript =>
              if isNary base then
                [makeNary (showExp props) (lit "subSup") (symbolValue base)
                   subscript superscript second]
              else flat_map (showExp props) value
          | _ => flat_map (showExp props) value
          end
      | _ => flat_map (showExp props) value
      end
  | EDelimited open close content =>
      let sepChr := firstSeparator content in
      let shown :=
        map (fun item =>
               match item with
               | Left s => Left s
               | Right e => Right (showExp props e)
               end) content in
      [delimitedNode open close sepChr
         (map (@List.concat XMLNode) (delimitedGroups shown))]
  | EIdentifier value =>
      match value with
      | [] => [str props zwsp]
      | _ :: _ =>
          if isUppercaseGreek value && Nat.eqb (List.length props) 0
          then [str [createNodeWithVal (lit "sty") (lit "p") []] value]
          else [str props value]
      end
  | EMathOperator value =>
      [str (createNodeWithVal (lit "sty") (lit "p") [] :: props) value]
  | ESymbol symbolType value => showSymbol props symbolType value
  | ESpace width => [str props (spaceChar width)]
  | EUnder _ base under =>
      underNodes under (showExp props base) (showExp props under)
  | EOver _ base over =>
      overNodes over (showExp props base) (showExp props over)
  | EUnderover _ base under over =>
      (* showExp(props, EOver(EUnder(base, under), over)), unfolded *)
      overNodes over
        (underNodes under (showExp props base) (showExp props under))
        (showExp props over)
  | ESub base subscript =>
      [createNode (lit "sSub") []
         [createNode (lit "e") [] (showExp props base);
          createNode (lit "sub") [] (showExp props subscript)]]
  | ESuper base superscript =>
      [createNode (lit "sSup") []
         [createNode (lit "e") [] (showExp props base);
          createNode (lit "sup") [] (showExp props superscript)]]
  | ESubsup base subscript superscript =>
      [createNode (lit "sSubSup") []
         [createNode (lit "e") [] (showExp props base);
          createNode (lit "sub") [] (showExp props subscript);
          createNode (lit "sup") [] (showExp props superscript)]]
  | ESqrt value =>
      [createNode (lit "rad") []
         [createNode (lit "radPr") []
            [createNodeWithVal (lit "degHide") (lit "on") []];
          createNode (lit "deg") [] [];
          createNode (lit "e") [] (showExp props value)]]
  | ERoot index base =>
      [createNode (lit "rad") []
         [createNode (lit "deg") [] (showExp props index);
          createNode (lit "e") [] (showExp props base)]]
  | EFraction fractionType numerator denominator =>
      [showFraction (showExp props) fractionType numerator denominator]
  | EPhantom value =>
      [createNode (lit "phant") []
         [createNode (lit "phantPr") []
            [createNodeWithVal (lit "show") (lit "off") []];
          createNode (lit "e") [] (showExp props value)]]
  | EBoxed value =>
      [createNode (lit "borderBox") []
         [createNode (lit "e") [] (showExp props value)]]
  | ECancel strokeType value => [makeCancel (showExp props) strokeType value]
  | EScaled _ value => showExp props value
  | EArray alignments lines => [makeArray (showExp props) alignments lines]
  | EText textType value => [makeText textType value]
  | EStyled textType value => flat_map (showExp (setProps textType)) value
  end.

(** The merged node that [handleDownup] pushes for [exp] followed by
    [next], when [exp] is a limit or script on an n-ary operator. *)
Definition naryGroup (exp next : Exp) : option Exp :=
  match exp with
  | EOver convertible base over =>
      if isNary base then
        Some (EGrouped [EUnderover convertible base (EGrouped []) over; next])
      else None
  | EUnder convertible base under =>
      if isNary base then
        Some (EGrouped [EUnderover convertible base under (EGrouped []); next])
      else None
  | EUnderover _ base _ _ =>
      if isNary base then Some (EGrouped [exp; next]) else None
  | ESub base subscript =>
      if isNary base then
        Some (EGrouped [ESubsup base subscript (EGrouped []); next])
      else None
  | ESuper base superscript =>
      if isNary base then
        Some (EGrouped [ESubsup base (EGrouped []) superscript; next])
      else None
  | ESubsup base _ _ =>
      if isNary base then Some (EGrouped [exp; next]) else None
  | _ => None
  end.

(** The loop over [i]: a merge consumes [exps[i]] and [exps[i + 1]]. *)
Fixpoint handleDownup (dt : DisplayType) (exps : list Exp) : list Exp :=
  match exps with
  | [] => []
  | exp :: rest =>
      let next :=
        match rest with
        | n :: _ => n
        | [] => EGrouped []
        end in
      match naryGroup exp next with
      | Some merged =>
          merged :: match rest with
                    | [] => []
                    | _ :: rest' => handleDownup dt rest'
                    end
      | None => exp :: handleDownup dt rest
      end
  end.

Definition rootNode (dt : DisplayType) (nodes : list XMLNode) : XMLNode :=
  match dt with
  | DisplayBlock =>
      createNode (lit "oMathPara") []
        [createNode (lit "oMathParaPr") []
           [createNodeWithVal (lit "jc") (lit "center") []];
         createNode (lit "oMath") [] nodes]
  | DisplayInline => createNode (lit "oMath") [] nodes
  end.

Definition writeOMML (dt : DisplayType) (exps : list Exp) : jsstring :=
  let processedExps := handleDownup dt exps in
  let nodes := flat_map (showExp []) processedExps in
  nodeToString (rootNode dt nodes) 0.

End Writer.

(* ================================================================== *)
(** ** The LaTeX reader ([reader.ts]) *)

Module Reader.

(** [class ParseError extends Error], with its [message] and [position]. *)
Record ParseError := mkParseError { message : jsstring; position : nat }.

(** The lookup tables of [commands.ts], which the parser only consults
    through [key in table] and [table[key]]. *)
Record Commands := mkCommands {
  symbols : jsstring -> option Exp;
  operators : jsstring -> option Exp;
  enclosures : jsstring -> option Exp;
  styleOps : jsstring -> option (list Exp -> Exp);
  textOps : jsstring -> option (jsstring -> Exp)
}.

(** The outcome of a parsing method run at some cursor position: it
    returns a value and leaves the cursor at [pos], or it throws; the
    recursion and the loops around [parseExpr] are bounded by a fuel. *)
Inductive Res (A : Type) :=
  | OutOfFuel
  | Throw (e : ParseError)
  | Ret (a : A) (pos : nat).

Arguments OutOfFuel {A}.
Arguments Throw {A} e.
Arguments Ret {A} a pos.

(** A method of [Parser]: [this.pos] is threaded through. *)
Definition M (A : Type) := nat -> Res A.

Definition ret {A} (a : A) : M A := fun pos => Ret a pos.

Definition bind {A B} (m : M A) (k : A -> M B) : M B :=
  fun pos =>
    match m pos with
    | OutOfFuel => OutOfFuel
    | Throw e => Throw e
    | Ret a pos' => k a pos'
    end.

Definition throw {A} (e : ParseError) : M A := fun _ => Throw e.
Definition outOfFuel {A} : M A := fun _ => OutOfFuel.
Definition getPos : M nat := fun pos => Ret pos pos.
Definition setPos (p : nat) : M unit := fun _ => Ret tt p.

Declare Scope parser_scope.
Delimit Scope parser_scope with parser.
Notation "x <- m ;; k" := (bind m (fun x => k))
  (at level 61, m at next level, right associativity) : parser_scope.
Notation "m ;; k" := (bind m (fun _ => k))
  (at level 61, right associativity) : parser_scope.
Local Open Scope parser_scope.

(** [a ?? b] on two parsing calls. *)
Definition orElse {A} (m : M (option A)) (k : M (option A)) : M (option A) :=
  r <- m ;;
  match r with
  | Some a => ret (Some a)
  | None => k
  end.
Notation "m ?? k" := (orElse m k)
  (at level 60, right associativity) : parser_scope.

(** [c === 'x'] for the result of [peek()]. *)
Definition peekIsCode (c : option char) (code : char) : bool :=
  match c with
  | Some x => N.eqb x code
  | None => false
  end.

Definition peekIs (c : option char) (a : ascii) : bool :=
  peekIsCode c (chr a).

(** A call on a [T | null] whose [T] is itself nullable yields one [null]. *)
Definition flatten {A} (r : option (option A)) : option A :=
  match r with
  | Some (Some a) => Some a
  | _ => None
  end.

(** A string is truthy when it is neither [null] nor empty. *)
Definition truthy (s : option jsstring) : bool :=
  match s with
  | Some (_ :: _) => true
  | _ => false
  end.

Definition backslash : char := 92%N.

Section Parser.

Variable input : jsstring.
Variable cmds : Commands.

Definition peek : M (option char) := fun pos => Ret (nth_error input pos) pos.

Definition advance (count : nat) : M unit := fun pos => Ret tt (pos + count).

(** [while (this.peek() && test(this.peek())) this.advance()]: at most
    [input.length - pos] characters are left to pass over. *)
Fixpoint scanFrom (test : char -> bool) (n pos : nat) : nat :=
  match n with
  | O => pos
  | S n' =>
      match nth_error input pos with
      | Some c => if test c then scanFrom test n' (S pos) else pos
      | None => pos
      end
  end.

Definition scanWhile (test : char -> bool) : M unit :=
  fun pos => Ret tt (scanFrom test (List.length input - pos) pos).

Definition skipWhitespace : M unit := scanWhile isSpace.

(** The body of the comment branch of [skipIgnorable]. *)
Definition skipComment : M unit :=
  scanWhile (fun c => negb (N.eqb c 10%N)) ;;
  c <- peek ;;
  if peekIsCode c 10%N then advance 1 else ret tt.

(** [while (true)] of [skipIgnorable]: every round but the last passes
    over a ['%'], so [input.length - pos + 1] rounds are enough. *)
Fixpoint skipIgnorableLoop (n : nat) : M unit :=
  match n with
  | O => ret tt
  | S n' =>
      skipWhitespace ;;
      c <- peek ;;
      if peekIs c "%" then skipComment ;; skipIgnorableLoop n' else ret tt
  end.

Definition skipIgnorable : M unit :=
  fun pos => skipIgnorableLoop (S (List.length input - pos)) pos.

Definition matchStr (s : jsstring) : M bool :=
  fun pos =>
    if str_eqb (substr input pos (List.length s)) s
    then Ret true (pos + List.length s)
    else Ret false pos.

Definition substringFrom (start : nat) : M jsstring :=
  fun pos => Ret (substring input start pos) pos.

Definition readControlSequence : M (option jsstring) :=
  c <- peek ;;
  if negb (peekIs c "\") then ret None else
  advance 1 ;;
  start <- getPos ;;
  firstChar <- peek ;;
  let letters :=
    scanWhile isLetter ;;
    pos <- getPos ;;
    if Nat.eqb pos start then ret None else
    name <- substringFrom start ;;
    ret (Some (backslash :: name)) in
  match firstChar with
  | Some fc =>
      if negb (isLetter fc)
      then advance 1 ;; ret (Some [backslash; fc])
      else letters
  | None => letters
  end.

(** [if (this.peek() !== close) throw new ParseError(msg, this.pos);
    this.advance();] *)
Definition expectClose (close : ascii) (msg : string) : M unit :=
  c <- peek ;;
  if negb (peekIs c close)
  then pos <- getPos ;; throw (mkParseError (lit msg) pos)
  else advance 1.

Definition readBraces {T} (parser : M T) : M (option T) :=
  skipIgnorable ;;
  c <- peek ;;
  if negb (peekIs c "{") then ret None else
  advance 1 ;;
  skipIgnorable ;;
  result <- parser ;;
  skipIgnorable ;;
  expectClose "}" "Expected closing brace" ;;
  skipIgnorable ;;
  ret (Some result).

Definition readBrackets {T} (parser : M T) : M (option T) :=
  skipIgnorable ;;
  c <- peek ;;
  if negb (peekIs c "[") then ret None else
  advance 1 ;;
  skipIgnorable ;;
  result <- parser ;;
  skipIgnorable ;;
  expectClose "]" "Expected closing bracket" ;;
  skipIgnorable ;;
  ret (Some result).

(** The closure of [parseTextOp], [parseEnvironment] and [parseHSpace]:
    the text up to the next ['}']. *)
Definition textUntilBrace : M jsstring :=
  start <- getPos ;;
  scanWhile (fun c => negb (N.eqb c (chr "}"))) ;;
  substringFrom start.

Definition parseNumber : M (option Exp) :=
  skipIgnorable ;;
  start <- getPos ;;
  scanWhile isDigit ;;
  afterDigits <- getPos ;;
  let hasDigits := negb (Nat.eqb afterDigits start) in
  let finish :=
    pos <- getPos ;;
    if Nat.eqb pos start then ret None else
    skipIgnorable ;;
    (* the substring is taken after the trailing skipIgnorable *)
    value <- substringFrom start ;;
    ret (Some (ENumber value)) in
  c <- peek ;;
  if peekIs c "." then
    dotPos <- getPos ;;
    advance 1 ;;
    d <- peek ;;
    match d with
    | Some x =>
        if isDigit x then scanWhile isDigit ;; finish
        else if negb hasDigits then setPos dotPos ;; ret None
        else finish
    | None =>
        if negb hasDigits then setPos dotPos ;; ret None else finish
    end
  else finish.

Definition parseVariable : M (option Exp) :=
  skipIgnorable ;;
  c <- peek ;;
  match c with
  | Some x =>
      if isLetter x
      then advance 1 ;; skipIgnorable ;; ret (Some (EIdentifier [x]))
      else ret None
  | None => ret None
  end.

(** ['()[]|'.includes(char)] *)
Definition isEnclosureChar (c : char) : bool :=
  existsb (N.eqb c) (lit "()[]|").

(** The [for] loop of [parseOperator] over the prime operators. *)
Fixpoint tryOperators (ops : list jsstring) (otherwise : M (option Exp))
    : M (option Exp) :=
  match ops with
  | [] => otherwise
  | op :: rest =>
      found <- matchStr op ;;
      if found then skipIgnorable ;; ret (operators cmds op)
      else tryOperators rest otherwise
  end.

Definition parseOperator : M (option Exp) :=
  skipIgnorable ;;
  tryOperators [lit "''''"; lit "'''"; lit "''"; lit "'"]
    (c <- peek ;;
     match c with
     | Some x =>
         match operators cmds [x] with
         | Some op => advance 1 ;; skipIgnorable ;; ret (Some op)
         | None => ret None
         end
     | None => ret None
     end).

Definition parseEnclosure : M (option Exp) :=
  c <- peek ;;
  match c with
  | Some x =>
      if isEnclosureChar x then
        match enclosures cmds [x] with
        | Some enc => advance 1 ;; skipIgnorable ;; ret (Some enc)
        | None => ret None
        end
      else ret None
  | None => ret None
  end.

(** The last alternative of [parseDelimiter]: one enclosure character. *)
Definition singleDelimiter : M (option jsstring) :=
  c <- peek ;;
  match c with
  | Some x =>
      if isEnclosureChar x
      then advance 1 ;; skipIgnorable ;; ret (Some [x])
      else ret None
  | None => ret None
  end.

Definition parseDelimiter : M (option jsstring) :=
  skipIgnorable ;;
  c <- peek ;;
  if peekIs c "." then advance 1 ;; skipIgnorable ;; ret (Some []) else
  cmd <- readControlSequence ;;
  match cmd with
  | Some name =>
      match enclosures cmds name with
      | Some enc =>
          skipIgnorable ;;
          match enc with
          | ESymbol _ value => ret (Some value)
          | _ => singleDelimiter
          end
      | None => singleDelimiter
      end
  | None => singleDelimiter
  end.

(** [exps.length === 0 ? EGrouped [] : exps.length === 1 ? exps[0]
    : EGrouped exps] *)
Definition groupExps (exps : list Exp) : Exp :=
  match exps with
  | [e] => e
  | _ => EGrouped exps
  end.

Fixpoint expToText (exp : Exp) : jsstring :=
  match exp with
  | EIdentifier value | ENumber value | EMathOperator value => value
  | EText _ value => value
  | ESymbol _ value => value
  | EGrouped value => List.concat (map expToText value)
  | _ => []
  end.

Definition primeSymbol (primeCount : nat) : jsstring :=
  match primeCount with
  | 1 => [8242%N]
  | 2 => [8243%N]
  | 3 => [8244%N]
  | _ => [8279%N]
  end.

(** [Math.max(...lines.map(l => l.length), 0)] *)
Definition maxCols (lines : ArrayLine) : nat :=
  fold_right Nat.max 0 (map (@List.length (list Exp)) lines).

Definition cmdIs (cmd : jsstring) (name : string) : bool :=
  str_eqb cmd (lit name).

(** [cmd === name] for the result of [readControlSequence()]. *)
Definition readIs (cmd : option jsstring) (name : string) : bool :=
  match cmd with
  | Some c => cmdIs c name
  | None => false
  end.

Definition orEmpty (s : option jsstring) : jsstring :=
  match s with
  | Some v => v
  | None => []
  end.

Section Body.

(** [this.parseExpr()] and [this.parseExpr1()] as the methods below call
    them, and the bound on the iterations of their loops. *)
Variables parseExpr parseExpr1 : M (option Exp).
Variable fuel : nat.

(** [while (this.peek() !== '}' && this.peek() !== null)] collecting
    the results of [parse] until it yields [null]. *)
Fixpoint collectUntilBrace (parse : M (option Exp)) (n : nat)
    (exps : list Exp) : M (list Exp) :=
  match n with
  | O => outOfFuel
  | S n' =>
      c <- peek ;;
      match c with
      | Some x =>
          if N.eqb x (chr "}") then ret exps else
          exp <- parse ;;
          match exp with
          | Some e => collectUntilBrace parse n' (exps ++ [e])
          | None => ret exps
          end
      | None => ret exps
      end
  end.

Definition parseInBraces : M (option Exp) :=
  result <- readBraces (collectUntilBrace parseExpr fuel []) ;;
  match result with
  | None => ret None
  | Some exps => ret (Some (groupExps exps))
  end.

Fixpoint groupedLoop (n : nat) (exps : list Exp) : M (list Exp) :=
  match n with
  | O => outOfFuel
  | S n' =>
      c <- peek ;;
      match c with
      | Some x =>
          if N.eqb x (chr "}") || N.eqb x (chr "]") then ret exps else
          exp <- parseExpr ;;
          match exp with
          | Some e => groupedLoop n' (exps ++ [e])
          | None =>
              (* advance one character to avoid an infinite loop *)
              c <- peek ;;
              match c with
              | Some y =>
                  if N.eqb y (chr "}") || N.eqb y (chr "]") then ret exps
                  else advance 1 ;; groupedLoop n' exps
              | None => ret exps
              end
          end
      | None => ret exps
      end
  end.

Definition parseGroupedExpr : M Exp :=
  exps <- groupedLoop fuel [] ;;
  ret (groupExps exps).

Definition parseFrac (fracType : FractionType) : M (option Exp) :=
  num <- readBraces parseGroupedExpr ;;
  den <- readBraces parseGroupedExpr ;;
  match num, den with
  | Some num, Some den => ret (Some (EFraction fracType num den))
  | _, _ => ret None
  end.

Definition parseSqrt : M (option Exp) :=
  index <- readBrackets parseGroupedExpr ;;
  base <- (readBraces parseGroupedExpr ?? parseExpr1) ;;
  match base with
  | Some base =>
      match index with
      | Some index => ret (Some (ERoot index base))
      | None => ret (Some (ESqrt base))
      end
  | None => ret None
  end.

Definition parseOverset : M (option Exp) :=
  over <- readBraces parseExpr1 ;;
  base <- readBraces parseExpr1 ;;
  match flatten over, flatten base with
  | Some over, Some base => ret (Some (EOver false base over))
  | _, _ => ret None
  end.

Definition parseUnderset : M (option Exp) :=
  under <- readBraces parseExpr1 ;;
  base <- readBraces parseExpr1 ;;
  match flatten under, flatten base with
  | Some under, Some base => ret (Some (EUnder false base under))
  | _, _ => ret None
  end.

Definition parseStackrel : M (option Exp) := parseOverset.

Fixpoint delimitedLoop (n : nat) (content : list InEDelimited)
    : M (list InEDelimited) :=
  match n with
  | O => outOfFuel
  | S n' =>
      skipIgnorable ;;
      savedPos <- getPos ;;
      cmd <- readControlSequence ;;
      if readIs cmd "\right" then ret content else
      setPos savedPos ;;
      if readIs cmd "\middle" then
        delim <- parseDelimiter ;;
        if truthy delim
        then delimitedLoop n' (content ++ [Left (orEmpty delim)])
        else delimitedLoop n' content
      else
        exp <- parseExpr ;;
        match exp with
        | Some e => delimitedLoop n' (content ++ [Right e])
        | None => ret content
        end
  end.

Definition parseDelimited : M (option Exp) :=
  open <- parseDelimiter ;;
  match open with
  | None => ret None
  | Some open =>
      content <- delimitedLoop fuel [] ;;
      close <- parseDelimiter ;;
      ret (Some (EDelimited open (orEmpty close) content))
  end.

Definition parseTextOp (op : jsstring -> Exp) : M (option Exp) :=
  text <- readBraces textUntilBrace ;;
  match text with
  | Some text => ret (Some (op text))
  | None => ret None
  end.

Definition parseStyleOp (op : list Exp -> Exp) : M (option Exp) :=
  braced <- readBraces (collectUntilBrace parseExpr fuel []) ;;
  content <-
    match braced with
    | Some exps => ret exps
    | None =>
        e <- parseExpr1 ;;
        ret (match e with Some e => [e] | None => [] end)
    end ;;
  match content with
  | _ :: _ => ret (Some (op content))
  | [] => ret None
  end.

Definition parseOperatorName : M (option Exp) :=
  c <- peek ;;
  (if peekIs c "*" then advance 1 else ret tt) ;;
  name <- readBraces
            (exps <- collectUntilBrace parseExpr1 fuel [] ;;
             ret (List.concat (map expToText exps))) ;;
  if truthy name
  then ret (Some (EMathOperator (orEmpty name)))
  else ret None.

(** [this.readBraces(() => this.parseExpr1()) ?? this.parseExpr1()] *)
Definition bracedOrBare : M (option Exp) :=
  (r <- readBraces parseExpr1 ;; ret (flatten r)) ?? parseExpr1.

Definition parseBoxed : M (option Exp) :=
  content <- bracedOrBare ;;
  match content with
  | Some content => ret (Some (EBoxed content))
  | None => ret None
  end.

Definition parsePhantom : M (option Exp) :=
  content <- bracedOrBare ;;
  match content with
  | Some content => ret (Some (EPhantom content))
  | None => ret None
  end.

Definition parseCancel (strokeType : StrokeType) : M (option Exp) :=
  content <- bracedOrBare ;;
  match content with
  | Some content => ret (Some (ECancel strokeType content))
  | None => ret None
  end.

Fixpoint arrayLineLoop (n : nat) (cells : list (list Exp))
    (currentCell : list Exp) : M (list (list Exp)) :=
  match n with
  | O => outOfFuel
  | S n' =>
      skipIgnorable ;;
      c <- peek ;;
      if peekIs c "&" then
        advance 1 ;; arrayLineLoop n' (cells ++ [currentCell]) []
      else
        lineBreak <- matchStr (lit "\\") ;;
        c <- peek ;;
        if lineBreak || match c with None => true | Some _ => false end
        then ret (cells ++ [currentCell])
        else
          savedPos <- getPos ;;
          cmd <- readControlSequence ;;
          setPos savedPos ;;
          if readIs cmd "\end" then ret (cells ++ [currentCell]) else
          exp <- parseExpr ;;
          match exp with
          | Some e => arrayLineLoop n' cells (currentCell ++ [e])
          | None => ret cells
          end
  end.

Definition parseArrayLine : M (list (list Exp)) := arrayLineLoop fuel [] [].

(** The [while (true)] shared by [parseMatrix] and [parseAlign]. *)
Fixpoint linesLoop (n : nat) (lines : ArrayLine) : M ArrayLine :=
  match n with
  | O => outOfFuel
  | S n' =>
      skipIgnorable ;;
      savedPos <- getPos ;;
      cmd <- readControlSequence ;;
      if readIs cmd "\end" then readBraces (ret tt) ;; ret lines else
      setPos savedPos ;;
      line <- parseArrayLine ;;
      let lines :=
        match line with
        | [] => lines
        | _ :: _ => lines ++ [line]
        end in
      lineBreak <- matchStr (lit "\\") ;;
      if lineBreak
      then skipIgnorable ;; readBrackets (ret tt) ;; linesLoop n' lines
      else ret lines
  end.

Definition matrixDelimiters (envName : jsstring) : jsstring * jsstring :=
  if cmdIs envName "pmatrix" then (lit "(", lit ")")
  else if cmdIs envName "bmatrix" then (lit "[", lit "]")
  else if cmdIs envName "Bmatrix" then (lit "{", lit "}")
  else if cmdIs envName "vmatrix" then (lit "|", lit "|")
  else if cmdIs envName "Vmatrix" then ([8741%N], [8741%N])
  else ([], []).

Definition parseMatrix (envName : jsstring) : M (option Exp) :=
  lines <- linesLoop fuel [] ;;
  let alignments := repeat AlignCenter (maxCols lines) in
  let open := fst (matrixDelimiters envName) in
  let close := snd (matrixDelimiters envName) in
  let array := EArray alignments lines in
  match open, close with
  | _ :: _, _ :: _ => ret (Some (EDelimited open close [Right array]))
  | _, _ => ret (Some array)
  end.

Definition parseAlign : M (option Exp) :=
  lines <- linesLoop fuel [] ;;
  let alignments :=
    map (fun i => if Nat.even i then AlignRight else AlignLeft)
        (seq 0 (maxCols lines)) in
  ret (Some (EArray alignments lines)).

Definition parseEnvironment : M (option Exp) :=
  envName <- readBraces textUntilBrace ;;
  if negb (truthy envName) then ret None else
  let envName := orEmpty envName in
  if str_includes envName (lit "matrix") || cmdIs envName "array"
  then parseMatrix envName
  else if str_includes envName (lit "align") || cmdIs envName "eqnarray"
  then parseAlign
  else ret None.

Definition parseHSpace : M (option Exp) :=
  width <- readBraces textUntilBrace ;;
  if truthy width then ret (Some (ESpace (Finite double_0_33))) else ret None.

(** The branch of [parseCommand] for a command found in [symbols]. *)
Definition parseSymbol (sym : Exp) : M (option Exp) :=
  match sym with
  | ESymbol Accent _ | ESymbol TOver _ =>
      arg <- parseExpr1 ;;
      match arg with
      | Some arg => ret (Some (EOver false arg sym))
      | None => ret (Some sym)
      end
  | ESymbol TUnder _ =>
      arg <- parseExpr1 ;;
      match arg with
      | Some arg => ret (Some (EUnder false arg sym))
      | None => ret (Some sym)
      end
  | _ => ret (Some sym)
  end.

Definition parseCommand : M (option Exp) :=
  cmd <- readControlSequence ;;
  match cmd with
  | None => ret None
  | Some cmd =>
      skipIgnorable ;;
      match symbols cmds cmd with
      | Some sym => parseSymbol sym
      | None =>
          if cmdIs cmd "\frac" then parseFrac NormalFrac
          else if cmdIs cmd "\tfrac" then parseFrac InlineFrac
          else if cmdIs cmd "\dfrac" then parseFrac DisplayFrac
          else if cmdIs cmd "\sqrt" then parseSqrt
          else if cmdIs cmd "\overset" then parseOverset
          else if cmdIs cmd "\underset" then parseUnderset
          else if cmdIs cmd "\stackrel" then parseStackrel
          else if cmdIs cmd "\left" then parseDelimited
          else if cmdIs cmd "\right" then ret None
          else
            match textOps cmds cmd with
            | Some op => parseTextOp op
            | None =>
                match styleOps cmds cmd with
                | Some op => parseStyleOp op
                | None =>
                    if cmdIs cmd "\operatorname" then parseOperatorName
                    else if cmdIs cmd "\boxed" then parseBoxed
                    else if cmdIs cmd "\phantom" then parsePhantom
                    else if cmdIs cmd "\cancel" then parseCancel ForwardSlash
                    else if cmdIs cmd "\bcancel" then parseCancel BackSlash
                    else if cmdIs cmd "\xcancel" then parseCancel XSlash
                    else if cmdIs cmd "\begin" then parseEnvironment
                    else if cmdIs cmd "\enspace"
                    then ret (Some (ESpace (Finite (1 # 2))))
                    else if cmdIs cmd "\hspace" then parseHSpace
                    else ret None
                end
            end
      end
  end.

(** The tail shared by the branches of [parseSubSup]: an optional second
    script introduced by [marker]. *)
Definition secondScript (marker : ascii) (both : Exp -> Exp) (single : Exp)
    : M (option Exp) :=
  skipIgnorable ;;
  c <- peek ;;
  if peekIs c marker then
    advance 1 ;;
    skipIgnorable ;;
    other <- parseExpr1 ;;
    match other with
    | Some other => ret (Some (both other))
    | None => ret (Some single)
    end
  else ret (Some single).

Definition parseSubSup (base : Exp) : M (option Exp) :=
  skipIgnorable ;;
  c <- peek ;;
  if peekIs c "_" then
    advance 1 ;;
    skipIgnorable ;;
    sub <- parseExpr1 ;;
    match sub with
    | None => ret None
    | Some sub =>
        secondScript "^" (fun sup => ESubsup base sub sup) (ESub base sub)
    end
  else if peekIs c "^" then
    advance 1 ;;
    skipIgnorable ;;
    c <- peek ;;
    if peekIs c "'" then
      start <- getPos ;;
      scanWhile (fun x => N.eqb x (chr "'")) ;;
      stop <- getPos ;;
      let primeCount := stop - start in
      let sup := ESymbol Pun (primeSymbol primeCount) in
      secondScript "_" (fun sub => ESubsup base sub sup) (ESuper base sup)
    else
      sup <- parseExpr1 ;;
      match sup with
      | None => ret None
      | Some sup =>
          secondScript "_" (fun sub => ESubsup base sub sup) (ESuper base sup)
      end
  else ret None.

Definition parseExprBody : M (option Exp) :=
  skipIgnorable ;;
  base <- parseExpr1 ;;
  match base with
  | None => ret None
  | Some base =>
      skipIgnorable ;;
      subSupResult <- parseSubSup base ;;
      match subSupResult with
      | Some result => ret (Some result)
      | None => ret (Some base)
      end
  end.

Definition parseExpr1Body : M (option Exp) :=
  skipIgnorable ;;
  (parseInBraces ?? parseNumber ?? parseVariable ?? parseCommand ??
   parseOperator ?? parseEnclosure).

End Body.

(** The two mutually recursive methods; each nested call spends fuel. *)
Fixpoint parseExpr (fuel : nat) (pos : nat) {struct fuel}
    : Res (option Exp) :=
  match fuel with
  | O => OutOfFuel
  | S fuel' => parseExprBody (parseExpr1 fuel') pos
  end
with parseExpr1 (fuel : nat) (pos : nat) {struct fuel} : Res (option Exp) :=
  match fuel with
  | O => OutOfFuel
  | S fuel' => parseExpr1Body (parseExpr fuel') (parseExpr1 fuel') fuel' pos
  end.

(** [while (this.peek() !== null)] of [parse]. *)
Fixpoint parseLoop (parseExpr : M (option Exp)) (n : nat) (exps : list Exp)
    : M (list Exp) :=
  match n with
  | O => outOfFuel
  | S n' =>
      c <- peek ;;
      match c with
      | None => ret exps
      | Some _ =>
          exp <- parseExpr ;;
          match exp with
          | Some e => skipIgnorable ;; parseLoop parseExpr n' (exps ++ [e])
          | None => ret exps
          end
      end
  end.

Definition parse (fuel : nat) : M (list Exp) :=
  skipIgnorable ;;
  exps <- parseLoop (parseExpr fuel) fuel [] ;;
  ret (FixBin.fixBinList exps).

End Parser.

(** [new Parser(input).parse()]: the parsed expressions, or the
    [ParseError] thrown. *)
Inductive Outcome :=
  | Parsed (exps : list Exp)
  | Raised (e : ParseError)
  | Exhausted.

Definition readTeX (cmds : Commands) (fuel : nat) (input : jsstring)
    : Outcome :=
  match parse input cmds fuel 0 with
  | Ret exps _ => Parsed exps
  | Throw e => Raised e
  | OutOfFuel => Exhausted
  end.

End Reader.

(* ================================================================== *)
(** ** Reading serialized text back *)

Module XmlDecode.

Import Writer.

(** What an XML reader does to character data and to attribute values:
    from left to right, each reference to one of the five predefined
    entities stands for its character, and every other character
    stands for itself.  (Not part of the program: the consumer of its
    output.) *)
Definition entities : list (jsstring * char) :=
  [ (lit "&amp;", amp); (lit "&lt;", lessThan); (lit "&gt;", greaterThan);
    (lit "&quot;", quot); (lit "&apos;", apos) ].

Definition startsWith (s prefix : jsstring) : bool :=
  str_eqb (firstn (List.length prefix) s) prefix.

(** The entity reference at the head of [s]: its character and the
    length of the reference. *)
Definition entityAt (s : jsstring) : option (char * nat) :=
  match find (fun e => startsWith s (fst e)) entities with
  | Some e => Some (snd e, List.length (fst e))
  | None => None
  end.

(** [skip] is the number of characters of a reference still to pass. *)
Fixpoint unescapeFrom (skip : nat) (s : jsstring) : jsstring :=
  match s with
  | [] => []
  | c :: rest =>
      match skip with
      | S k => unescapeFrom k rest
      | O =>
          match entityAt s with
          | Some (ch, len) => ch :: unescapeFrom (len - 1) rest
          | None => c :: unescapeFrom 0 rest
          end
      end
  end.

Definition unescapeXml (s : jsstring) : jsstring := unescapeFrom 0 s.

(** The characters that [escapeXml] rewrites. *)
Definition escapedChars : list char :=
  [amp; lessThan; greaterThan; quot; apos].

(** The five passes of [escapeXml] on one character. *)
Definition escapeChar (c : char) : jsstring :=
  if N.eqb c amp then lit "&amp;"
  else if N.eqb c lessThan then lit "&lt;"
  else if N.eqb c greaterThan then lit "&gt;"
  else if N.eqb c quot then lit "&quot;"
  else if N.eqb c apos then lit "&apos;"
  else [c].

(** [s] ends with the character [c]. *)
Definition endsWith (s : jsstring) (c : char) : Prop :=
  exists body, s = body ++ [c].

End XmlDecode.

(* ================================================================== *)
(** ** Notions used to state the properties of the reader *)

Module ReaderSpec.

Import Reader.

(** [r'] is [r], unless [r] ran out of fuel. *)
Definition resLe {A} (r r' : Res A) : Prop := r = OutOfFuel \/ r = r'.

(** [m'] behaves as [m] wherever [m] has enough fuel. *)
Definition Mono {A} (m m' : M A) : Prop :=
  forall pos, resLe (m pos) (m' pos).

(** Two command tables that answer every lookup alike. *)
Record sameCommands (a b : Commands) : Prop := {
  same_symbols : forall k, symbols a k = symbols b k;
  same_operators : forall k, operators a k = operators b k;
  same_enclosures : forall k, enclosures a k = enclosures b k;
  same_styleOps : forall k, styleOps a k = styleOps b k;
  same_textOps : forall k, textOps a k = textOps b k
}.

(** The table [table] with the answer [v] at [key]. *)
Definition override {A} (key : string) (v : option A)
    (table : jsstring -> option A) : jsstring -> option A :=
  fun k => if str_eqb k (lit key) then v else table k.

(** The error reports a closing brace (or bracket) that the input does
    not have at the reported position. *)
Definition missingClose (input : jsstring) (e : ParseError) : Prop :=
  (message e = lit "Expected closing brace" /\
   nth_error input (position e) <> Some (chr "}")) \/
  (message e = lit "Expected closing bracket" /\
   nth_error input (position e) <> Some (chr "]")).

(** Whatever [m] throws is a missing closing brace or bracket. *)
Definition Safe (input : jsstring) {A} (m : M A) : Prop :=
  forall pos e, m pos = Throw e -> missingClose input e.

(** Whatever [m] returns satisfies [P]. *)
Definition Post {A} (P : A -> Prop) (m : M A) : Prop :=
  forall pos a pos', m pos = Ret a pos' -> P a.

Definition optP {A} (P : A -> Prop) (o : option A) : Prop :=
  match o with
  | Some a => P a
  | None => True
  end.

(** [e] is not a group wrapped around exactly one expression. *)
Definition noSingle (e : Exp) : Prop := forall x, e <> EGrouped [x].

(** No entry of the tables is a one-element group. *)
Record cleanCommands (cmds : Commands) : Prop := {
  clean_symbols : forall k e, symbols cmds k = Some e -> noSingle e;
  clean_operators : forall k e, operators cmds k = Some e -> noSingle e;
  clean_enclosures : forall k e, enclosures cmds k = Some e -> noSingle e;
  clean_styleOps :
    forall k op content, styleOps cmds k = Some op -> noSingle (op content);
  clean_textOps :
    forall k op text, textOps cmds k = Some op -> noSingle (op text)
}.

(** No table and no built-in rule of [parseCommand] knows [cmd]. *)
Definition builtinCommands : list jsstring :=
  map lit
    [ "\frac"; "\tfrac"; "\dfrac"; "\sqrt"; "\overset"; "\underset";
      "\stackrel"; "\left"; "\right"; "\operatorname"; "\boxed";
      "\phantom"; "\cancel"; "\bcancel"; "\xcancel"; "\begin";
      "\enspace"; "\hspace" ]%string.

Definition unrecognized (cmds : Commands) (cmd : jsstring) : Prop :=
  symbols cmds cmd = None /\ textOps cmds cmd = None /\
  styleOps cmds cmd = None /\ includes builtinCommands cmd = false.

(** Every brace and bracket of [s] has its closing character, in
    order: [expected] holds the closing characters still to come, the
    innermost first. *)
Fixpoint balancedFrom (expected : list char) (s : jsstring) : bool :=
  match s with
  | [] =>
      match expected with
      | [] => true
      | _ :: _ => false
      end
  | c :: rest =>
      if N.eqb c (chr "{") then balancedFrom (chr "}" :: expected) rest
      else if N.eqb c (chr "[") then balancedFrom (chr "]" :: expected) rest
      else if N.eqb c (chr "}") || N.eqb c (chr "]") then
        match expected with
        | e :: expected' => N.eqb c e && balancedFrom expected' rest
        | [] => false
        end
      else balancedFrom expected rest
  end.

Definition balanced (s : jsstring) : bool := balancedFrom [] s.

(** Where the content of a braced group ends: on the closing brace or
    at the end of the input; and where a braced or bracketed argument
    ends: on a closing brace, on a closing bracket or at the end. *)
Definition endsGroup (c : option char) : bool :=
  match c with
  | Some x => N.eqb x (chr "}")
  | None => true
  end.

Definition endsArgument (c : option char) : bool :=
  match c with
  | Some x => N.eqb x (chr "}") || N.eqb x (chr "]")
  | None => true
  end.

(** From [pos] on, [parser] reads the expressions [exps] one after the
    other, none of them started where the content ends, and the cursor
    is then at [pos'], where the content ends. *)
Fixpoint collects (input : jsstring) (ends : option char -> bool)
    (parser : M (option Exp)) (pos : nat) (exps : list Exp) (pos' : nat)
    : Prop :=
  match exps with
  | [] => pos' = pos /\ ends (nth_error input pos) = true
  | e :: rest =>
      ends (nth_error input pos) = false /\
      exists p, parser pos = Ret (Some e) p /\
                collects input ends parser p rest pos'
  end.

(** At [pos], after the text that is passed over, the input has an
    opening brace, and the content of the group starts at [start]. *)
Definition opensGroup (input : jsstring) (pos start : nat) : Prop :=
  exists q, skipIgnorable input pos = Ret tt q /\
            nth_error input q = Some (chr "{") /\
            skipIgnorable input (q + 1) = Ret tt start.

(** The closing brace is at [stop]; [after] is the position after it
    and after the text that is passed over. *)
Definition closesGroup (input : jsstring) (stop after : nat) : Prop :=
  nth_error input stop = Some (chr "}") /\
  skipIgnorable input (stop + 1) = Ret tt after.

End ReaderSpec.

(* ================================================================== *)
(** ** A command table to run the reader on *)

Module Sample.

Import Reader.

(** [table[key]] for a table written as a list of entries. *)
Definition lookup {A} (entries : list (string * A)) (key : jsstring)
    : option A :=
  match find (fun kv => str_eqb key (lit (fst kv))) entries with
  | Some kv => Some (snd kv)
  | None => None
  end.

(** Modelled from the spec: an excerpt of the lookup tables of
    [commands.ts], which is not under src/.  The tables map command
    tokens to prebuilt leaves with their symbol class: large operators,
    Greek letters, binary operators, relations, accents and function
    names among the symbols; the one-character operators and the prime
    sequences; the enclosure characters; the style and the text
    commands as constructors. *)
Definition commands : Commands := {|
  symbols := lookup
    [ ("\sum", ESymbol Op [8721%N]);
      ("\prod", ESymbol Op [8719%N]);
      ("\int", ESymbol Op [8747%N]);
      ("\alpha", EIdentifier [945%N]);
      ("\pi", EIdentifier [960%N]);
      ("\pm", ESymbol Bin [177%N]);
      ("\times", ESymbol Bin [215%N]);
      ("\leq", ESymbol Rel [8804%N]);
      ("\hat", ESymbol Accent [770%N]);
      ("\overline", ESymbol TOver [175%N]);
      ("\underline", ESymbol TUnder (lit "_"));
      ("\sin", EMathOperator (lit "sin")) ]%string;
  operators := lookup
    [ ("+", ESymbol Bin (lit "+"));
      ("-", ESymbol Bin [8722%N]);
      ("*", ESymbol Bin (lit "*"));
      ("=", ESymbol Rel (lit "="));
      ("<", ESymbol Rel (lit "<"));
      (">", ESymbol Rel (lit ">"));
      (",", ESymbol Pun (lit ","));
      ("'", ESymbol Ord [8242%N]);
      ("''", ESymbol Ord [8243%N]);
      ("'''", ESymbol Ord [8244%N]);
      ("''''", ESymbol Ord [8279%N]) ]%string;
  enclosures := lookup
    [ ("(", ESymbol Open (lit "("));
      (")", ESymbol Close (lit ")"));
      ("[", ESymbol Open (lit "["));
      ("]", ESymbol Close (lit "]"));
      ("|", ESymbol Open (lit "|"));
      ("\{", ESymbol Open (lit "{"));
      ("\}", ESymbol Close (lit "}"));
      ("\langle", ESymbol Open [10216%N]);
      ("\rangle", ESymbol Close [10217%N]) ]%string;
  styleOps := lookup
    [ ("\mathrm", EStyled TextNormal);
      ("\mathbf", EStyled TextBold);
      ("\mathit", EStyled TextItalic) ]%string;
  textOps := lookup
    [ ("\text", EText TextNormal);
      ("\textbf", EText TextBold) ]%string
|}.

End Sample.

(* ================================================================== *)
(** ** The entry point ([index.ts]) *)

Module Index.

Import Reader Writer.

(** The markup returned by [latexToOmml], or the message of the [Error]
    it throws in place of a [ParseError]. *)
Inductive Conversion :=
  | Converted (omml : jsstring)
  | Failed (message : jsstring)
  | NoFuel.

Definition latexToOmml (cmds : Commands) (fuel : nat) (latex : jsstring)
    (displayType : DisplayType) : Conversion :=
  match readTeX cmds fuel latex with
  | Parsed ast => Converted (writeOMML displayType ast)
  | Raised e =>
      Failed (lit "Failed to convert LaTeX to OMML: " ++ message e)
  | Exhausted => NoFuel
  end.

(** The shape of an [m:nary] element: its properties and its three
    child slots. *)
Definition naryNode (chr limLoc subHide supHide : jsstring)
    (sub sup operand : list XMLNode) : XMLNode :=
  createNode (lit "nary") []
    [createNode (lit "naryPr") []
       [createNodeWithVal (lit "chr") chr [];
        createNodeWithVal (lit "limLoc") limLoc [];
        createNodeWithVal (lit "subHide") subHide [];
        createNodeWithVal (lit "supHide") supHide []];
     createNode (lit "sub") [] sub;
     createNode (lit "sup") [] sup;
     createNode (lit "e") [] operand].

(** A plain run [m:r] holding [text], and a run in the normal style. *)
Definition run (text : string) : XMLNode := str [] (lit text).

Definition plainRun (text : jsstring) : XMLNode :=
  str [createNodeWithVal (lit "sty") (lit "p") []] text.

(** Some element of the tree has the tag [tag]. *)
Fixpoint hasTag (tag : jsstring) (node : XMLNode) : bool :=
  match node with
  | Node t _ children => str_eqb t tag || existsb (hasTag tag) children
  | Text _ => false
  end.

(** U+2211, the summation sign. *)
Definition sumSign : jsstring := [8721%N].

End Index.

(* ================================================================== *)
(** ** Notions used to state the properties of the writer *)

Module WriterSpec.

Import Writer.

(** [node] is an element in which every text leaf is the only child of
    its parent: the one position where [nodeToString] escapes a text
    (it returns any other text child as it is). *)
Fixpoint textEscaped (node : XMLNode) : bool :=
  match node with
  | Text _ => false
  | Node _ _ children =>
      match children with
      | [Text _] => true
      | _ => forallb textEscaped children
      end
  end.

End WriterSpec.

(* ================================================================== *)
(** ** Notions used to state the properties of the two passes *)

Module PassSpec.

Import FixBin Writer.

(** The symbols after which [fixBinList] turns a binary operator into
    an ordinary symbol, and the symbols before which it does. *)
Definition opensOperand (e : Exp) : bool :=
  isSymbolOf [Bin; Op; Rel; Open; Pun] e.

Definition closesOperand (e : Exp) : bool :=
  isSymbolOf [Rel; Close; Pun] e.

(** Two neighbours [a], [b] between which no binary operator lacks an
    operand. *)
Definition pairPlaced (a b : Exp) : bool :=
  negb (isBinSymbol b && opensOperand a) &&
  negb (isBinSymbol a && closesOperand b).

Fixpoint neighboursPlaced (l : list Exp) : bool :=
  match l with
  | a :: ((b :: _) as rest) => pairPlaced a b && neighboursPlaced rest
  | _ => true
  end.

Definition headPlaced (l : list Exp) : bool :=
  match l with
  | e :: _ => negb (isBinSymbol e)
  | [] => true
  end.

(** Every binary operator of [l] has a left operand and is not
    followed by a relation, a closing delimiter or a punctuation. *)
Definition binPlaced (l : list Exp) : bool :=
  headPlaced l && neighboursPlaced l.

(** [exp] is a limit or a script on an n-ary operator, which
    [handleDownup] merges with its neighbour. *)
Definition isNaryScript (exp : Exp) : bool :=
  match naryGroup exp (EGrouped []) with
  | Some _ => true
  | None => false
  end.

(** The sub-expressions of a delimited region, in order. *)
Definition rights {A : Type} (content : list (InEDelimitedOf A)) : list A :=
  flat_map (fun item => match item with
                        | Left _ => []
                        | Right v => [v]
                        end) content.

(** The characters that delimit markup and attribute values. *)
Definition isMarkupChar (c : char) : bool :=
  N.eqb c lessThan || N.eqb c greaterThan || N.eqb c quot || N.eqb c apos.

End PassSpec.

(* ================================================================== *)
(** ** Notions used to follow the cursor of the reader *)

Module CursorSpec.

Import Reader.

Section Cursor.

Variable input : jsstring.

(** Run at [pos], [m] does not run out of fuel; the error it throws, if
    any, points into the input; the value and the cursor it returns
    satisfy [Post]. *)
Definition wp {A} (m : M A) (Post : A -> nat -> Prop) (pos : nat) : Prop :=
  match m pos with
  | OutOfFuel => False
  | Throw e => position e <= List.length input
  | Ret a pos' => Post a pos'
  end.

(** Started at any cursor [q] from [lo] to the end of the input, [m]
    behaves as [wp] says and leaves the cursor between [q] and the end
    of the input, with [Q] relating start, value and cursor. *)
Definition Spec {A} (lo : nat) (m : M A) (Q : nat -> A -> nat -> Prop)
    : Prop :=
  forall q, lo <= q <= List.length input ->
    wp m (fun a p => q <= p <= List.length input /\ Q q a p) q.

(** A value was returned only after the cursor moved. *)
Definition consumed {A} (q : nat) (a : option A) (p : nat) : Prop :=
  match a with
  | Some _ => q < p
  | None => True
  end.

Definition anyResult {A} (q : nat) (a : A) (p : nat) : Prop := True.

(** A backslash at the start is passed over, and nothing is returned
    without one. *)
Definition pastBackslash {A} (q : nat) (a : option A) (p : nat) : Prop :=
  (peekIs (nth_error input q) "\" = true -> q < p) /\
  (peekIs (nth_error input q) "\" = false -> a = None).

Definition movedPastBackslash {A} (q : nat) (a : A) (p : nat) : Prop :=
  peekIs (nth_error input q) "\" = true -> q < p.

(** The fuel that is enough for every input of this length. *)
Definition enoughFuel : nat := 2 * List.length input + 2.

End Cursor.

(** All the characters of [s] are white space. *)
Definition blank (s : jsstring) : bool := forallb isSpace s.

End CursorSpec.

(* ================================================================== *)
(** * Properties *)

Import Writer Reader.

(** ** Strings *)

Lemma str_eqb_eq (a b : jsstring) : str_eqb a b = true <-> a = b.
Proof.
  revert b; induction a as [|x a IH]; intros [|y b]; simpl; split;
    try congruence; try reflexivity.
  - intros H. apply andb_true_iff in H as [H1 H2].
    apply N.eqb_eq in H1. apply IH in H2. congruence.
  - intros H. injection H as -> ->. rewrite N.eqb_refl. simpl.
    now apply IH.
Qed.

Lemma str_eqb_refl (a : jsstring) : str_eqb a a = true.
Proof. now apply str_eqb_eq. Qed.

(** ** The binary-operator post-pass *)

Section FixBinFacts.

Import FixBin.

Lemma isBinSymbol_inv (e : Exp) :
  isBinSymbol e = true -> exists v, e = ESymbol Bin v.
Proof.
  destruct e as [| | | | |t v| | | | | | | | | | | | | | | | |];
    try discriminate.
  destruct t; try discriminate. intros _. now exists v.
Qed.

Lemma binToOrd_refl (e : Exp) : binToOrd e e.
Proof. now left. Qed.

Lemma binToOrd_toOrd (e : Exp) :
  isBinSymbol e = true -> binToOrd e (toOrd e).
Proof.
  intros H. apply isBinSymbol_inv in H as [v ->]. right. now exists v.
Qed.

(** A [Bin] symbol in the result is still the input element. *)
Lemma binToOrd_bin (i o : Exp) :
  binToOrd i o -> isBinSymbol o = true -> i = o.
Proof.
  intros [->|[v [-> ->]]] H; [reflexivity | discriminate].
Qed.

Lemma setLast_frame (done result : list Exp) :
  Forall2 binToOrd done result ->
  result <> [] ->
  isBinSymbol (last result (EGrouped [])) = true ->
  Forall2 binToOrd done (setLast result (toOrd (last result (EGrouped [])))).
Proof.
  intros HF Hne Hbin.
  destruct (exists_last Hne) as [front [prev ->]].
  rewrite last_last in *. unfold setLast. rewrite removelast_last.
  apply Forall2_app_inv_r in HF as [d1 [d2 [H1 [H2 ->]]]].
  apply Forall2_app; [assumption|].
  inversion H2 as [|d p ? ? Hd Hnil]; subst. inversion Hnil; subst.
  constructor; [|constructor].
  rewrite (binToOrd_bin Hd Hbin). now apply binToOrd_toOrd.
Qed.

Lemma last_default (l : list Exp) (d d' : Exp) :
  l <> [] -> last l d = last l d'.
Proof.
  induction l as [|x [|y l] IH]; intros H; try congruence; try reflexivity.
  change (last (y :: l) d = last (y :: l) d'). apply IH. discriminate.
Qed.

Lemma fixBinStep_frame (done result : list Exp) (exp : Exp) :
  Forall2 binToOrd done result ->
  Forall2 binToOrd (done ++ [exp]) (fixBinStep result exp).
Proof.
  intros HF. unfold fixBinStep.
  destruct (isBinSymbol exp) eqn:Hbin.
  - destruct result as [|r result].
    + apply Forall2_app; [assumption|].
      constructor; [now apply binToOrd_toOrd | constructor].
    + destruct (isSymbolOf _ _); apply Forall2_app; try assumption;
        (constructor; [|constructor]);
        [now apply binToOrd_toOrd | apply binToOrd_refl].
  - destruct (isSymbolOf [Rel; Close; Pun] exp).
    + apply Forall2_app; [|constructor; [apply binToOrd_refl | constructor]].
      destruct result as [|r result]; [assumption|].
      destruct (isBinSymbol (last (r :: result) exp)) eqn:Hprev;
        [|assumption].
      rewrite (last_default exp (EGrouped [])) in * by discriminate.
      apply setLast_frame; [assumption | discriminate | assumption].
    + apply Forall2_app; [assumption|].
      constructor; [apply binToOrd_refl | constructor].
Qed.

Lemma fold_fixBinStep_frame (exps done result : list Exp) :
  Forall2 binToOrd done result ->
  Forall2 binToOrd (done ++ exps) (fold_left fixBinStep exps result).
Proof.
  revert done result.
  induction exps as [|e exps IH]; intros done result HF; simpl.
  - now rewrite app_nil_r.
  - replace (done ++ e :: exps) with ((done ++ [e]) ++ exps)
      by now rewrite <- app_assoc.
    apply IH. now apply fixBinStep_frame.
Qed.

End FixBinFacts.

(** C3: on [relation, binary] the binary symbol becomes ordinary; a
    lone binary symbol becomes ordinary; between two ordinary symbols
    the binary symbol stays binary. *)
Theorem fixBinList_reclassification (r b o1 o2 : jsstring) :
  FixBin.fixBinList [ESymbol Rel r; ESymbol Bin b]
    = [ESymbol Rel r; ESymbol Ord b] /\
  FixBin.fixBinList [ESymbol Bin b] = [ESymbol Ord b] /\
  FixBin.fixBinList [ESymbol Ord o1; ESymbol Bin b; ESymbol Ord o2]
    = [ESymbol Ord o1; ESymbol Bin b; ESymbol Ord o2].
Proof. repeat split. Qed.

(** C10: the post-pass keeps the length and the order of the sequence;
    every element of the result is the input element at the same index,
    except that a [Bin] symbol may have become the [Ord] symbol of the
    same value. *)
Theorem fixBinList_frame (exps : list Exp) :
  List.length (FixBin.fixBinList exps) = List.length exps /\
  Forall2 FixBin.binToOrd exps (FixBin.fixBinList exps).
Proof.
  assert (H : Forall2 FixBin.binToOrd exps (FixBin.fixBinList exps)).
  { apply (fold_fixBinStep_frame exps (done := []) (result := [])).
    constructor. }
  split; [|exact H].
  symmetry. eapply Forall2_length. exact H.
Qed.

(** ** Escaping *)

Section EscapeFacts.

Import XmlDecode.

Lemma replaceAll_app (c : char) (r a b : jsstring) :
  replaceAll c r (a ++ b) = replaceAll c r a ++ replaceAll c r b.
Proof. apply flat_map_app. Qed.

Lemma escapeXml_app (a b : jsstring) :
  escapeXml (a ++ b) = escapeXml a ++ escapeXml b.
Proof. unfold escapeXml. now rewrite !replaceAll_app. Qed.

Lemma escapeXml_char (c : char) : escapeXml [c] = escapeChar c.
Proof.
  unfold escapeXml, escapeChar, replaceAll. cbn [flat_map app].
  destruct (N.eqb c amp) eqn:E1; [reflexivity|].
  cbn [flat_map app]. destruct (N.eqb c lessThan) eqn:E2; [reflexivity|].
  cbn [flat_map app]. destruct (N.eqb c greaterThan) eqn:E3; [reflexivity|].
  cbn [flat_map app]. destruct (N.eqb c quot) eqn:E4; [reflexivity|].
  cbn [flat_map app]. destruct (N.eqb c apos) eqn:E5; reflexivity.
Qed.

Lemma escapeXml_flat_map (s : jsstring) :
  escapeXml s = flat_map escapeChar s.
Proof.
  induction s as [|c s IH]; [reflexivity|].
  change (c :: s) with ([c] ++ s).
  rewrite escapeXml_app, escapeXml_char, IH. reflexivity.
Qed.

Lemma escapeChar_other (c : char) :
  ~ In c escapedChars -> escapeChar c = [c].
Proof.
  intros H. unfold escapeChar.
  repeat match goal with
  | |- context [N.eqb c ?k] =>
      destruct (N.eqb_spec c k) as [->|_];
      [exfalso; apply H; simpl; tauto|]
  end.
  reflexivity.
Qed.

Lemma escapeChar_escaped (c : char) :
  In c escapedChars -> escapeChar c <> [c].
Proof.
  simpl. intros [<-|[<-|[<-|[<-|[<-|[]]]]]]; discriminate.
Qed.

Lemma unescape_escapeChar (c : char) (t : jsstring) :
  unescapeFrom 0 (escapeChar c ++ t) = c :: unescapeFrom 0 t.
Proof.
  unfold escapeChar.
  destruct (N.eqb_spec c amp) as [->|Hamp]; [reflexivity|].
  destruct (N.eqb_spec c lessThan) as [->|_]; [reflexivity|].
  destruct (N.eqb_spec c greaterThan) as [->|_]; [reflexivity|].
  destruct (N.eqb_spec c quot) as [->|_]; [reflexivity|].
  destruct (N.eqb_spec c apos) as [->|_]; [reflexivity|].
  cbn [app unescapeFrom].
  assert (E : entityAt (c :: t) = None).
  { unfold entityAt, entities, startsWith. cbn.
    apply N.eqb_neq in Hamp. unfold amp in Hamp. rewrite Hamp.
    reflexivity. }
  now rewrite E.
Qed.

Lemma unescape_escape (s : jsstring) : unescapeXml (escapeXml s) = s.
Proof.
  unfold unescapeXml. rewrite escapeXml_flat_map.
  induction s as [|c s IH]; [reflexivity|].
  cbn [flat_map]. rewrite unescape_escapeChar. now rewrite IH.
Qed.

End EscapeFacts.

(** C7: an attribute value and a text content are serialized through
    [escapeXml], and reading the serialized content back gives the
    original characters, whatever the string holds. *)
Theorem escape_roundtrip
    (tag name value text : jsstring) (indent : nat) :
  nodeToString (Node tag [(name, value)] [Text text]) indent
    = repeatStr (lit "  ") indent ++ lit "<" ++ tag ++
      (lit " " ++ name ++ lit "=" ++ [quot] ++ escapeXml value ++ [quot]) ++
      lit ">" ++ escapeXml text ++ lit "</" ++ tag ++ lit ">" /\
  XmlDecode.unescapeXml (escapeXml value) = value /\
  XmlDecode.unescapeXml (escapeXml text) = text.
Proof.
  split; [|split; apply unescape_escape].
  cbn [nodeToString attrsToString map List.concat fst snd].
  now rewrite app_nil_r.
Qed.

(** C8 as stated fails: the characters that serialization escapes are
    not four. *)
Lemma escaped_chars_not_four :
  ~ exists l : list char,
      NoDup l /\ List.length l = 4 /\
      forall c, escapeXml [c] <> [c] <-> In c l.
Proof.
  intros [l [Hnd [Hlen H]]].
  assert (Hincl : incl XmlDecode.escapedChars l).
  { intros c Hc. apply H. rewrite escapeXml_char.
    now apply escapeChar_escaped. }
  assert (Hnd5 : NoDup XmlDecode.escapedChars).
  { unfold XmlDecode.escapedChars.
    repeat constructor; simpl; intuition discriminate. }
  pose proof (NoDup_incl_length Hnd5 Hincl) as Hle.
  simpl in Hle. lia.
Qed.

(** C8, amended: serialization escapes exactly five characters (the
    ampersand, the two angle brackets, the double and the single
    quote), each on its own, and no other. *)
Theorem escaped_chars_exactly_five :
  NoDup XmlDecode.escapedChars /\
  List.length XmlDecode.escapedChars = 5 /\
  (forall c, escapeXml [c] <> [c] <-> In c XmlDecode.escapedChars) /\
  (forall s, escapeXml s = flat_map (fun c => escapeXml [c]) s).
Proof.
  split; [|split; [reflexivity|split]].
  - unfold XmlDecode.escapedChars.
    repeat constructor; simpl; intuition discriminate.
  - intros c. rewrite escapeXml_char. split.
    + intros Hne.
      destruct (in_dec N.eq_dec c XmlDecode.escapedChars) as [Hin|Hout];
        [assumption|].
      exfalso. apply Hne. now apply escapeChar_other.
    + apply escapeChar_escaped.
  - intros s. rewrite escapeXml_flat_map.
    apply flat_map_ext. intros c. symmetry. apply escapeXml_char.
Qed.

(** ** The writer *)

Section WriterFacts.

Import XmlDecode.

(** The [EUnderover] case is [showExp] of the nested over/under pair,
    as the source writes it. *)
Lemma showExp_EUnderover (props : list XMLNode) (c : bool)
    (base under over : Exp) :
  showExp props (EUnderover c base under over)
    = showExp props (EOver c (EUnder c base under) over).
Proof. reflexivity. Qed.

Lemma groupsLoop_map {A B : Type} (f : A -> B)
    (content : list (InEDelimitedOf A)) (elements : list (list A))
    (currentGroup : list A) :
  groupsLoop
    (map (fun item => match item with
                      | Left s => Left s
                      | Right e => Right (f e)
                      end) content)
    (map (map f) elements) (map f currentGroup)
  = map (map f) (groupsLoop content elements currentGroup).
Proof.
  revert elements currentGroup.
  induction content as [|[s|e] content IH]; intros elements currentGroup;
    cbn [map groupsLoop].
  - destruct currentGroup; cbn [map]; [reflexivity|].
    now rewrite map_app.
  - destruct currentGroup as [|x g]; cbn [map].
    + apply (IH elements []).
    + rewrite <- (IH (elements ++ [x :: g]) []). now rewrite map_app.
  - rewrite <- (IH elements (currentGroup ++ [e])). now rewrite map_app.
Qed.

(** The [EDelimited] case groups the sub-expressions first and shows
    each group afterwards, as the source writes it. *)
Lemma showExp_EDelimited (props : list XMLNode) (open close : jsstring)
    (content : list InEDelimited) :
  showExp props (EDelimited open close content)
    = [delimitedNode open close (firstSeparator content)
         (map (fun group => flat_map (showExp props) group)
              (delimitedGroups content))].
Proof.
  cbn [showExp]. f_equal. f_equal.
  unfold delimitedGroups.
  pose proof (groupsLoop_map (showExp props) content [] []) as E.
  cbn [map] in E. rewrite E.
  rewrite map_map. apply map_ext. intros g.
  symmetry. apply flat_map_concat_map.
Qed.

Lemma endsWith_app (a s : jsstring) (c : char) :
  endsWith s c -> endsWith (a ++ s) c.
Proof. intros [b ->]. exists (a ++ b). now rewrite app_assoc. Qed.

Lemma endsWith_cons (x : char) (s : jsstring) (c : char) :
  endsWith s c -> endsWith (x :: s) c.
Proof. apply (endsWith_app [x]). Qed.

Lemma endsWith_last (s : jsstring) (c : char) : endsWith (s ++ [c]) c.
Proof. now exists s. Qed.

(** Every element is serialized as a tag: it opens with its name and
    closes with a [>]. *)
Lemma nodeToString_element (tag : jsstring)
    (attrs : list (jsstring * jsstring)) (children : list XMLNode) :
  exists rest,
    nodeToString (Node tag attrs children) 0 = lit "<" ++ tag ++ rest /\
    endsWith rest greaterThan.
Proof.
  cbn [nodeToString repeatStr].
  destruct children as [|[t a c|t] [|child children]];
    cbn [app]; eexists; (split; [reflexivity|]);
    repeat match goal with
    | |- endsWith (_ :: _) _ => apply endsWith_cons
    | |- endsWith (_ ++ _) _ => apply endsWith_app
    end;
    try (now exists (lit "/")); now exists [].
Qed.

End WriterFacts.

Section EscapedFacts.

Import WriterSpec.

Lemma textEscaped_createNode (tag : jsstring)
    (attrs : list (jsstring * jsstring)) (children : list XMLNode) :
  forallb textEscaped children = true ->
  textEscaped (createNode tag attrs children) = true.
Proof.
  intros H. unfold createNode. cbn [textEscaped].
  destruct children as [|[t a c|t] [|child children]]; try exact H.
  reflexivity.
Qed.

Lemma textEscaped_str (props : list XMLNode) (text : jsstring) :
  forallb textEscaped props = true -> textEscaped (str props text) = true.
Proof.
  intros H. unfold str. destruct props as [|p props]; [reflexivity|].
  apply textEscaped_createNode. cbn [forallb].
  rewrite (textEscaped_createNode (lit "rPr") [] (p :: props) H).
  reflexivity.
Qed.

Lemma forallb_cons_true {A} (p : A -> bool) (x : A) (l : list A) :
  p x = true -> forallb p l = true -> forallb p (x :: l) = true.
Proof. intros Hx Hl. cbn [forallb]. now rewrite Hx, Hl. Qed.

Lemma forallb_concat {A} (p : A -> bool) (l : list (list A)) :
  forallb (forallb p) l = true -> forallb p (List.concat l) = true.
Proof.
  induction l as [|x l IH]; [reflexivity|].
  cbn [forallb List.concat]. intros H.
  apply andb_true_iff in H as [Hx Hl].
  rewrite forallb_app, Hx, (IH Hl). reflexivity.
Qed.

Lemma setProps_escaped (t : TextType) :
  forallb textEscaped (setProps t) = true.
Proof. destruct t; reflexivity. Qed.

Lemma groupsLoop_all {A} (p : A -> bool)
    (content : list (InEDelimitedOf A)) :
  forallb (fun item => match item with
                       | Left _ => true
                       | Right v => p v
                       end) content = true ->
  forall elements currentGroup,
  forallb (forallb p) elements = true ->
  forallb p currentGroup = true ->
  forallb (forallb p) (groupsLoop content elements currentGroup) = true.
Proof.
  induction content as [|[s|v] content IH]; cbn [forallb groupsLoop];
    intros Hc elements currentGroup He Hg.
  - destruct currentGroup; [assumption|].
    rewrite forallb_app, He. cbn [forallb] in Hg |- *. now rewrite Hg.
  - destruct currentGroup as [|x g]; apply IH; try assumption;
      try reflexivity.
    rewrite forallb_app, He. cbn [forallb] in Hg |- *. now rewrite Hg.
  - apply andb_true_iff in Hc as [Hv Hc]. apply IH; try assumption.
    rewrite forallb_app, Hg. cbn [forallb]. now rewrite Hv.
Qed.

End EscapedFacts.

(** Reduces a goal on the nodes built by the writer to goals on the
    nodes of the sub-expressions. *)
Ltac escaped_step :=
  match goal with
  | |- forallb WriterSpec.textEscaped [] = true => reflexivity
  | |- forallb WriterSpec.textEscaped (_ :: _) = true =>
      apply forallb_cons_true
  | |- forallb WriterSpec.textEscaped (_ ++ _) = true =>
      rewrite forallb_app; apply andb_true_intro; split
  | |- WriterSpec.textEscaped (createNode _ _ _) = true =>
      apply textEscaped_createNode
  | |- WriterSpec.textEscaped (createNodeWithVal _ _ _) = true =>
      unfold createNodeWithVal
  | |- WriterSpec.textEscaped (str _ _) = true => apply textEscaped_str
  | |- forallb WriterSpec.textEscaped (setProps _) = true =>
      apply setProps_escaped
  | |- forallb WriterSpec.textEscaped (defaultTo _ ?props) = true =>
      unfold defaultTo; destruct props
  | |- forallb WriterSpec.textEscaped (if ?b then _ else _) = true =>
      destruct b
  | |- forallb WriterSpec.textEscaped (match ?x with _ => _ end) = true =>
      destruct x
  end.

Ltac escaped := repeat first [assumption | reflexivity | escaped_step].

Section EscapedWriter.

Import WriterSpec.

Lemma overNodes_escaped (over : Exp) (shownBase shownOver : list XMLNode) :
  forallb textEscaped shownBase = true ->
  forallb textEscaped shownOver = true ->
  forallb textEscaped (overNodes over shownBase shownOver) = true.
Proof. intros Hb Ho. unfold overNodes. escaped. Qed.

Lemma underNodes_escaped (under : Exp) (shownBase shownUnder : list XMLNode) :
  forallb textEscaped shownBase = true ->
  forallb textEscaped shownUnder = true ->
  forallb textEscaped (underNodes under shownBase shownUnder) = true.
Proof. intros Hb Hu. unfold underNodes. escaped. Qed.

Lemma showSymbol_escaped (props : list XMLNode) (t : TeXSymbolType)
    (value : jsstring) :
  forallb textEscaped props = true ->
  forallb textEscaped (showSymbol props t value) = true.
Proof. intros Hp. unfold showSymbol. escaped. Qed.

(** Every text leaf that [showExp] produces is the only child of its
    element. *)
Lemma showExp_escaped :
  forall (exp : Exp) (props : list XMLNode),
  forallb textEscaped props = true ->
  forallb textEscaped (showExp props exp) = true.
Proof.
  fix IH 1. intros exp props Hp.
  destruct exp as
    [ value | value | open close content | value | value | t value | width
    | base sub | base sup | base sub sup | c base over | c base under
    | c base under over | value | value | stroke value | ft num den
    | index base | value | scale value | alignments lines | tt value
    | tt value ];
    cbn [showExp].
  - escaped.
  - assert (Hall : forallb textEscaped (flat_map (showExp props) value)
                   = true).
    { induction value as [|e value IHv]; [reflexivity|].
      cbn [flat_map]. rewrite forallb_app, (IH e props Hp), IHv.
      reflexivity. }
    destruct value as [|first [|second [|third value]]]; try exact Hall.
    + escaped.
    + destruct first; try exact Hall;
        (destruct (isNary _); [|exact Hall]);
        unfold makeNary; escaped; apply IH; assumption.
  - unfold delimitedNode. escaped.
    assert (Hshown :
      forallb (fun item => match item with
                           | Left _ => true
                           | Right v => forallb textEscaped v
                           end)
        (map (fun item => match item with
                          | Left s => Left s
                          | Right e => Right (showExp props e)
                          end) content) = true).
    { induction content as [|[s|e] content IHc]; cbn [map forallb];
        [reflexivity | exact IHc |].
      now rewrite (IH e props Hp), IHc. }
    pose proof (groupsLoop_all (forallb textEscaped) _ Hshown [] []
                  eq_refl eq_refl) as Hgroups.
    unfold delimitedGroups.
    induction (groupsLoop _ [] []) as [|g groups IHg]; [reflexivity|].
    cbn [forallb map] in Hgroups |- *.
    apply andb_true_iff in Hgroups as [Hg Hgroups].
    rewrite (IHg Hgroups), andb_true_r.
    apply textEscaped_createNode. now apply forallb_concat.
  - escaped.
  - escaped.
  - now apply showSymbol_escaped.
  - escaped.
  - escaped; apply IH; assumption.
  - escaped; apply IH; assumption.
  - escaped; apply IH; assumption.
  - apply overNodes_escaped; apply IH; assumption.
  - apply underNodes_escaped; apply IH; assumption.
  - apply overNodes_escaped; [apply underNodes_escaped|];
      apply IH; assumption.
  - escaped; apply IH; assumption.
  - escaped; apply IH; assumption.
  - unfold makeCancel. escaped; apply IH; assumption.
  - unfold showFraction. escaped; apply IH; assumption.
  - escaped; apply IH; assumption.
  - escaped; apply IH; assumption.
  - apply IH; assumption.
  - unfold makeArray. escaped.
    + induction alignments as [|a alignments IHa]; [reflexivity|].
      cbn [map]. escaped.
    + induction lines as [|line lines IHl]; [reflexivity|].
      cbn [map]. apply forallb_cons_true; [|exact IHl].
      apply textEscaped_createNode.
      induction line as [|cell line IHc]; [reflexivity|].
      cbn [map]. apply forallb_cons_true; [|exact IHc].
      apply textEscaped_createNode.
      induction cell as [|e cell IHe]; [reflexivity|].
      cbn [flat_map]. rewrite forallb_app, (IH e props Hp), IHe.
      reflexivity.
  - unfold makeText. escaped.
  - induction value as [|e value IHv]; [reflexivity|].
    cbn [flat_map]. rewrite forallb_app, IHv.
    rewrite (IH e (setProps tt) (setProps_escaped tt)). reflexivity.
Qed.

End EscapedWriter.

(** C4: [writeOMML] is defined on every expression sequence (the
    recursion of [showExp] is structural on the tree, so every variant
    and attribute combination, empty children included, has a value)
    and in both display modes it returns a markup string: the
    serialization of the element [m:oMath] or [m:oMathPara], from its
    opening [<] to its closing [>], in which every text leaf sits where
    the serializer escapes it. *)
Theorem writeOMML_total (dt : DisplayType) (exps : list Exp) :
  exists (root : XMLNode) (body : jsstring),
    writeOMML dt exps = nodeToString root 0 /\
    WriterSpec.textEscaped root = true /\
    writeOMML dt exps = lit "<m:oMath" ++ body /\
    XmlDecode.endsWith body greaterThan.
Proof.
  unfold writeOMML.
  set (nodes := flat_map (showExp []) (handleDownup dt exps)).
  assert (Hnodes : forallb WriterSpec.textEscaped nodes = true).
  { unfold nodes.
    induction (handleDownup dt exps) as [|e l IH]; [reflexivity|].
    cbn [flat_map]. rewrite forallb_app, IH.
    now rewrite (showExp_escaped e [] eq_refl). }
  exists (rootNode dt nodes).
  assert (Hroot : WriterSpec.textEscaped (rootNode dt nodes) = true)
    by (destruct dt; unfold rootNode; escaped).
  unfold rootNode, createNode in *.
  destruct dt.
  - destruct (nodeToString_element (lit "m:" ++ lit "oMathPara") []
                [createNode (lit "oMathParaPr") []
                   [createNodeWithVal (lit "jc") (lit "center") []];
                 createNode (lit "oMath") [] nodes])
      as [rest [E H]].
    unfold createNode in E.
    exists (lit "Para" ++ rest). rewrite E.
    repeat split; [exact Hroot | now apply endsWith_app].
  - destruct (nodeToString_element (lit "m:" ++ lit "oMath") [] nodes)
      as [rest [E H]].
    exists rest. rewrite E. repeat split; assumption.
Qed.

(** ** The bounds of the scanning loops are never reached *)

Section Scanning.

Variable input : jsstring.

Lemma scanFrom_ge (test : char -> bool) (n pos : nat) :
  pos <= scanFrom input test n pos.
Proof.
  revert pos. induction n as [|n IH]; intros pos; cbn [scanFrom]; [lia|].
  destruct (nth_error input pos) as [c|]; [|lia].
  destruct (test c); [|lia].
  specialize (IH (S pos)). lia.
Qed.

(** [scanWhile] stops where the [while] loop does: at the end of the
    input or at a character that fails the test. *)
Lemma scanFrom_stops (test : char -> bool) (n pos : nat) :
  List.length input - pos <= n ->
  match nth_error input (scanFrom input test n pos) with
  | Some c => test c = false
  | None => True
  end.
Proof.
  revert pos. induction n as [|n IH]; intros pos Hn; cbn [scanFrom].
  - assert (H : nth_error input pos = None)
      by (apply nth_error_None; lia).
    now rewrite H.
  - destruct (nth_error input pos) as [c|] eqn:E; [|now rewrite E].
    destruct (test c) eqn:Et; [|now rewrite E].
    apply IH. lia.
Qed.

Lemma scanFrom_step (test : char -> bool) (n pos : nat) (c : char) :
  nth_error input pos = Some c -> test c = true ->
  S pos <= scanFrom input test (S n) pos.
Proof.
  intros E Et. cbn [scanFrom]. rewrite E, Et. apply scanFrom_ge.
Qed.

(** [skipIgnorable] stops where its [while (true)] loop breaks: at a
    character that is neither white space nor the start of a comment,
    or at the end of the input. *)
Lemma skipIgnorableLoop_stops (n : nat) :
  forall pos pos',
  List.length input - pos < n ->
  skipIgnorableLoop input n pos = Ret tt pos' ->
  match nth_error input pos' with
  | Some c => isSpace c = false /\ N.eqb c (chr "%") = false
  | None => True
  end.
Proof.
  induction n as [|n IH]; intros pos pos' Hn; [lia|].
  cbn [skipIgnorableLoop].
  unfold bind, skipWhitespace, scanWhile, peek.
  set (p1 := scanFrom input isSpace (List.length input - pos) pos).
  pose proof (scanFrom_ge isSpace (List.length input - pos) pos) as Hge.
  pose proof (@scanFrom_stops isSpace (List.length input - pos) pos
                (Nat.le_refl _)) as Hstop.
  fold p1 in Hge, Hstop.
  destruct (nth_error input p1) as [c|] eqn:E; cbn [peekIs peekIsCode].
  - destruct (N.eqb c (chr "%")) eqn:Ec.
    + unfold skipComment, bind, scanWhile, peek.
      assert (Hlt : p1 < List.length input)
        by (apply nth_error_Some; congruence).
      set (p2 := scanFrom input (fun x => negb (N.eqb x 10%N))
                   (List.length input - p1) p1).
      assert (Hp2 : S p1 <= p2).
      { unfold p2. destruct (List.length input - p1) as [|k] eqn:Ek; [lia|].
        eapply scanFrom_step; [exact E|].
        apply N.eqb_eq in Ec. subst c. reflexivity. }
      destruct (peekIsCode (nth_error input p2) 10%N);
        unfold advance, ret; apply IH; lia.
    + intros H. injection H as <-. rewrite E. now split.
  - intros H. injection H as <-. now rewrite E.
Qed.

Lemma skipIgnorable_stops (pos pos' : nat) :
  skipIgnorable input pos = Ret tt pos' ->
  match nth_error input pos' with
  | Some c => isSpace c = false /\ N.eqb c (chr "%") = false
  | None => True
  end.
Proof. unfold skipIgnorable. apply skipIgnorableLoop_stops. lia. Qed.

End Scanning.

(** ** The reader: more fuel or an equal table changes no result *)

Section MonoFacts.

Import ReaderSpec.

Lemma resLe_refl {A} (r : Res A) : resLe r r.
Proof. now right. Qed.

Lemma Mono_refl {A} (m : M A) : Mono m m.
Proof. intros pos. apply resLe_refl. Qed.

Lemma Mono_outOfFuel {A} (m : M A) : Mono outOfFuel m.
Proof. intros pos. now left. Qed.

Lemma Mono_bind {A B} (m m' : M A) (k k' : A -> M B) :
  Mono m m' -> (forall a, Mono (k a) (k' a)) ->
  Mono (bind m k) (bind m' k').
Proof.
  intros Hm Hk pos. unfold bind.
  destruct (Hm pos) as [E|E]; rewrite E; [now left|].
  destruct (m' pos) as [|e|a pos']; try apply resLe_refl.
  apply Hk.
Qed.

Lemma Mono_orElse {A} (m m' k k' : M (option A)) :
  Mono m m' -> Mono k k' -> Mono (orElse m k) (orElse m' k').
Proof.
  intros Hm Hk. unfold orElse. apply Mono_bind; [assumption|].
  intros [a|]; [apply Mono_refl | assumption].
Qed.

End MonoFacts.

(** One step of a proof that two parsing methods are related: through
    [bind], through the case analyses (on the same scrutinee on both
    sides), and by the facts known for the methods they call. *)
Ltac mono_same :=
  match goal with
  | |- ReaderSpec.Mono ?a ?b => constr_eq a b; apply Mono_refl
  end.

Ltac mono_step known :=
  first
    [ mono_same
    | assumption
    | known
    | match goal with
      | |- ReaderSpec.Mono outOfFuel _ => apply Mono_outOfFuel
      | |- ReaderSpec.Mono (bind _ _) (bind _ _) =>
          apply Mono_bind; [|intros ?]
      | |- ReaderSpec.Mono (orElse _ _) (orElse _ _) => apply Mono_orElse
      | |- ReaderSpec.Mono (match ?x with _ => _ end)
                           (match ?x with _ => _ end) => destruct x
      end ].

Ltac mono_with known := cbv zeta; repeat (mono_step known).

Section MonoParser.

Import ReaderSpec.

Variable input : jsstring.
Variables cmds cmds' : Commands.
Hypothesis Hsame : sameCommands cmds cmds'.

Lemma Mono_readBraces {T} (p p' : M T) :
  Mono p p' -> Mono (readBraces input p) (readBraces input p').
Proof. intros H. unfold readBraces. mono_with fail. Qed.

Lemma Mono_readBrackets {T} (p p' : M T) :
  Mono p p' -> Mono (readBrackets input p) (readBrackets input p').
Proof. intros H. unfold readBrackets. mono_with fail. Qed.

Lemma Mono_tryOperators (ops : list jsstring) (k k' : M (option Exp)) :
  Mono k k' ->
  Mono (tryOperators input cmds ops k) (tryOperators input cmds' ops k').
Proof.
  intros H. induction ops as [|op ops IH]; cbn [tryOperators];
    [assumption|].
  rewrite (same_operators Hsame). mono_with fail.
Qed.

Lemma Mono_parseOperator :
  Mono (parseOperator input cmds) (parseOperator input cmds').
Proof.
  unfold parseOperator.
  mono_with ltac:(first [apply Mono_tryOperators
                        | rewrite (same_operators Hsame)]).
Qed.

Lemma Mono_parseEnclosure :
  Mono (parseEnclosure input cmds) (parseEnclosure input cmds').
Proof.
  unfold parseEnclosure. mono_with ltac:(rewrite (same_enclosures Hsame)).
Qed.

Lemma Mono_parseDelimiter :
  Mono (parseDelimiter input cmds) (parseDelimiter input cmds').
Proof.
  unfold parseDelimiter. mono_with ltac:(rewrite (same_enclosures Hsame)).
Qed.

Section MonoBody.

Variables pe pe' pe1 pe1' : M (option Exp).
Variables f f' : nat.
Hypothesis Hpe : Mono pe pe'.
Hypothesis Hpe1 : Mono pe1 pe1'.
Hypothesis Hf : f <= f'.

Lemma Mono_collectUntilBrace (p p' : M (option Exp)) :
  Mono p p' ->
  forall n n', n <= n' -> forall exps,
  Mono (collectUntilBrace input p n exps)
       (collectUntilBrace input p' n' exps).
Proof.
  intros Hp. induction n as [|n IH]; intros [|n'] Hle exps;
    try apply Mono_outOfFuel; [lia|].
  cbn [collectUntilBrace]. mono_with ltac:(apply IH; lia).
Qed.

Lemma Mono_parseInBraces :
  Mono (parseInBraces input pe f) (parseInBraces input pe' f').
Proof.
  unfold parseInBraces.
  mono_with ltac:(first [apply Mono_readBraces
                        | now apply Mono_collectUntilBrace]).
Qed.

Lemma Mono_groupedLoop :
  forall n n', n <= n' -> forall exps,
  Mono (groupedLoop input pe n exps) (groupedLoop input pe' n' exps).
Proof.
  induction n as [|n IH]; intros [|n'] Hle exps;
    try apply Mono_outOfFuel; [lia|].
  cbn [groupedLoop]. mono_with ltac:(apply IH; lia).
Qed.

Lemma Mono_parseGroupedExpr :
  Mono (parseGroupedExpr input pe f) (parseGroupedExpr input pe' f').
Proof.
  unfold parseGroupedExpr. mono_with ltac:(now apply Mono_groupedLoop).
Qed.

Lemma Mono_parseFrac (fracType : FractionType) :
  Mono (parseFrac input pe f fracType) (parseFrac input pe' f' fracType).
Proof.
  unfold parseFrac.
  mono_with ltac:(first [apply Mono_readBraces
                        | apply Mono_parseGroupedExpr]).
Qed.

Lemma Mono_parseSqrt :
  Mono (parseSqrt input pe pe1 f) (parseSqrt input pe' pe1' f').
Proof.
  unfold parseSqrt.
  mono_with ltac:(first [apply Mono_readBraces | apply Mono_readBrackets
                        | apply Mono_parseGroupedExpr]).
Qed.

Lemma Mono_parseOverset :
  Mono (parseOverset input pe1) (parseOverset input pe1').
Proof. unfold parseOverset. mono_with ltac:(apply Mono_readBraces). Qed.

Lemma Mono_parseUnderset :
  Mono (parseUnderset input pe1) (parseUnderset input pe1').
Proof. unfold parseUnderset. mono_with ltac:(apply Mono_readBraces). Qed.

Lemma Mono_delimitedLoop :
  forall n n', n <= n' -> forall content,
  Mono (delimitedLoop input cmds pe n content)
       (delimitedLoop input cmds' pe' n' content).
Proof.
  induction n as [|n IH]; intros [|n'] Hle content;
    try apply Mono_outOfFuel; [lia|].
  cbn [delimitedLoop].
  mono_with ltac:(first [apply Mono_parseDelimiter; assumption
                        | apply IH; lia]).
Qed.

Lemma Mono_parseDelimited :
  Mono (parseDelimited input cmds pe f) (parseDelimited input cmds' pe' f').
Proof.
  unfold parseDelimited.
  mono_with ltac:(first [apply Mono_parseDelimiter; assumption
                        | now apply Mono_delimitedLoop]).
Qed.

Lemma Mono_parseStyleOp (op : list Exp -> Exp) :
  Mono (parseStyleOp input pe pe1 f op) (parseStyleOp input pe' pe1' f' op).
Proof.
  unfold parseStyleOp.
  mono_with ltac:(first [apply Mono_readBraces
                        | now apply Mono_collectUntilBrace]).
Qed.

Lemma Mono_parseOperatorName :
  Mono (parseOperatorName input pe1 f) (parseOperatorName input pe1' f').
Proof.
  unfold parseOperatorName.
  mono_with ltac:(first [apply Mono_readBraces
                        | now apply Mono_collectUntilBrace]).
Qed.

Lemma Mono_bracedOrBare :
  Mono (bracedOrBare input pe1) (bracedOrBare input pe1').
Proof. unfold bracedOrBare. mono_with ltac:(apply Mono_readBraces). Qed.

Lemma Mono_parseBoxed : Mono (parseBoxed input pe1) (parseBoxed input pe1').
Proof. unfold parseBoxed. mono_with ltac:(apply Mono_bracedOrBare). Qed.

Lemma Mono_parsePhantom :
  Mono (parsePhantom input pe1) (parsePhantom input pe1').
Proof. unfold parsePhantom. mono_with ltac:(apply Mono_bracedOrBare). Qed.

Lemma Mono_parseCancel (strokeType : StrokeType) :
  Mono (parseCancel input pe1 strokeType) (parseCancel input pe1' strokeType).
Proof. unfold parseCancel. mono_with ltac:(apply Mono_bracedOrBare). Qed.

Lemma Mono_arrayLineLoop :
  forall n n', n <= n' -> forall cells currentCell,
  Mono (arrayLineLoop input pe n cells currentCell)
       (arrayLineLoop input pe' n' cells currentCell).
Proof.
  induction n as [|n IH]; intros [|n'] Hle cells currentCell;
    try apply Mono_outOfFuel; [lia|].
  cbn [arrayLineLoop]. mono_with ltac:(apply IH; lia).
Qed.

Lemma Mono_parseArrayLine :
  Mono (parseArrayLine input pe f) (parseArrayLine input pe' f').
Proof. unfold parseArrayLine. now apply Mono_arrayLineLoop. Qed.

Lemma Mono_linesLoop :
  forall n n', n <= n' -> forall lines,
  Mono (linesLoop input pe f n lines) (linesLoop input pe' f' n' lines).
Proof.
  induction n as [|n IH]; intros [|n'] Hle lines;
    try apply Mono_outOfFuel; [lia|].
  cbn [linesLoop].
  mono_with ltac:(first [apply Mono_readBraces | apply Mono_readBrackets
                        | apply Mono_parseArrayLine | apply IH; lia]).
Qed.

Lemma Mono_parseMatrix (envName : jsstring) :
  Mono (parseMatrix input pe f envName) (parseMatrix input pe' f' envName).
Proof. unfold parseMatrix. mono_with ltac:(now apply Mono_linesLoop). Qed.

Lemma Mono_parseAlign :
  Mono (parseAlign input pe f) (parseAlign input pe' f').
Proof. unfold parseAlign. mono_with ltac:(now apply Mono_linesLoop). Qed.

Lemma Mono_parseEnvironment :
  Mono (parseEnvironment input pe f) (parseEnvironment input pe' f').
Proof.
  unfold parseEnvironment.
  mono_with ltac:(first [apply Mono_parseMatrix | apply Mono_parseAlign]).
Qed.

Lemma Mono_parseSymbol (sym : Exp) :
  Mono (parseSymbol pe1 sym) (parseSymbol pe1' sym).
Proof. unfold parseSymbol. mono_with fail. Qed.

Lemma Mono_parseCommand :
  Mono (parseCommand input cmds pe pe1 f) (parseCommand input cmds' pe' pe1' f').
Proof.
  unfold parseCommand, parseStackrel.
  mono_with ltac:(first
    [ rewrite (same_symbols Hsame) | rewrite (same_textOps Hsame)
    | rewrite (same_styleOps Hsame)
    | apply Mono_parseSymbol | apply Mono_parseFrac | apply Mono_parseSqrt
    | apply Mono_parseOverset | apply Mono_parseUnderset
    | apply Mono_parseDelimited | apply Mono_parseStyleOp
    | apply Mono_parseOperatorName | apply Mono_parseBoxed
    | apply Mono_parsePhantom | apply Mono_parseCancel
    | apply Mono_parseEnvironment ]).
Qed.

Lemma Mono_secondScript (marker : ascii) (both : Exp -> Exp) (single : Exp) :
  Mono (secondScript input pe1 marker both single)
       (secondScript input pe1' marker both single).
Proof. unfold secondScript. mono_with fail. Qed.

Lemma Mono_parseSubSup (base : Exp) :
  Mono (parseSubSup input pe1 base) (parseSubSup input pe1' base).
Proof. unfold parseSubSup. mono_with ltac:(apply Mono_secondScript). Qed.

Lemma Mono_parseExprBody :
  Mono (parseExprBody input pe1) (parseExprBody input pe1').
Proof. unfold parseExprBody. mono_with ltac:(apply Mono_parseSubSup). Qed.

Lemma Mono_parseExpr1Body :
  Mono (parseExpr1Body input cmds pe pe1 f)
       (parseExpr1Body input cmds' pe' pe1' f').
Proof.
  unfold parseExpr1Body.
  mono_with ltac:(first
    [ apply Mono_parseInBraces | apply Mono_parseCommand
    | apply Mono_parseOperator; assumption
    | apply Mono_parseEnclosure; assumption ]).
Qed.

End MonoBody.

Lemma Mono_parseExpr (f : nat) :
  forall f', f <= f' ->
  Mono (parseExpr input cmds f) (parseExpr input cmds' f') /\
  Mono (parseExpr1 input cmds f) (parseExpr1 input cmds' f').
Proof.
  induction f as [|f IH]; intros [|f'] Hle;
    try (split; intros pos; now left).
  destruct (IH f' ltac:(lia)) as [IHe IH1].
  split; intros pos; cbn [parseExpr parseExpr1].
  - now apply Mono_parseExprBody.
  - apply Mono_parseExpr1Body; [assumption | assumption | lia].
Qed.

Lemma Mono_parseLoop (p p' : M (option Exp)) :
  Mono p p' ->
  forall n n', n <= n' -> forall exps,
  Mono (parseLoop input p n exps) (parseLoop input p' n' exps).
Proof.
  intros Hp. induction n as [|n IH]; intros [|n'] Hle exps;
    try apply Mono_outOfFuel; [lia|].
  cbn [parseLoop]. mono_with ltac:(apply IH; lia).
Qed.

Lemma Mono_parse (f f' : nat) :
  f <= f' -> Mono (parse input cmds f) (parse input cmds' f').
Proof.
  intros Hle. unfold parse.
  mono_with ltac:(apply Mono_parseLoop;
                  [now apply Mono_parseExpr | assumption]).
Qed.

End MonoParser.

(** Once [readTeX] has enough fuel for an input, more fuel and a table
    with the same answers give the same outcome. *)
Lemma readTeX_stable (cmds cmds' : Commands) (f f' : nat)
    (input : jsstring) (outcome : Outcome) :
  ReaderSpec.sameCommands cmds cmds' ->
  f <= f' ->
  readTeX cmds f input = outcome ->
  outcome <> Exhausted ->
  readTeX cmds' f' input = outcome.
Proof.
  intros Hsame Hle E Hne. unfold readTeX in *.
  destruct (Mono_parse input Hsame Hle 0) as [H|H].
  - rewrite H in E. congruence.
  - now rewrite <- H.
Qed.

(** ** The reader: what it throws *)

Section SafeFacts.

Import ReaderSpec.

Variable input : jsstring.

Lemma Safe_ret {A} (a : A) : Safe input (ret a).
Proof. intros pos e H. discriminate. Qed.

Lemma Safe_outOfFuel {A} : Safe input (@outOfFuel A).
Proof. intros pos e H. discriminate. Qed.

Lemma Safe_bind {A B} (m : M A) (k : A -> M B) :
  Safe input m -> (forall a, Safe input (k a)) -> Safe input (bind m k).
Proof.
  intros Hm Hk pos e. unfold bind.
  destruct (m pos) as [|e'|a pos'] eqn:E; try discriminate.
  - intros H. injection H as <-. now apply (Hm pos).
  - apply Hk.
Qed.

Lemma Safe_orElse {A} (m k : M (option A)) :
  Safe input m -> Safe input k -> Safe input (orElse m k).
Proof.
  intros Hm Hk. unfold orElse. apply Safe_bind; [assumption|].
  intros [a|]; [apply Safe_ret | assumption].
Qed.

Lemma Safe_peek : Safe input (peek input).
Proof. intros pos e H. discriminate. Qed.

Lemma Safe_advance (n : nat) : Safe input (advance n).
Proof. intros pos e H. discriminate. Qed.

Lemma Safe_getPos : Safe input getPos.
Proof. intros pos e H. discriminate. Qed.

Lemma Safe_setPos (p : nat) : Safe input (setPos p).
Proof. intros pos e H. discriminate. Qed.

Lemma Safe_scanWhile (test : char -> bool) : Safe input (scanWhile input test).
Proof. intros pos e H. discriminate. Qed.

Lemma Safe_substringFrom (start : nat) : Safe input (substringFrom input start).
Proof. intros pos e H. discriminate. Qed.

Lemma Safe_matchStr (s : jsstring) : Safe input (matchStr input s).
Proof.
  intros pos e. unfold matchStr.
  destruct (str_eqb _ _); discriminate.
Qed.

(** The one place that throws: the error carries the position at which
    the closing character is not found. *)
Lemma Safe_expectBrace :
  Safe input (expectClose input "}" "Expected closing brace").
Proof.
  intros pos e. unfold expectClose, bind, peek, getPos, throw, advance.
  destruct (negb (peekIs (nth_error input pos) "}")) eqn:E;
    [|discriminate].
  intros H. injection H as <-. left. split; [reflexivity|].
  cbn [position]. intros Hc. rewrite Hc in E.
  unfold peekIs, peekIsCode in E. now rewrite N.eqb_refl in E.
Qed.

Lemma Safe_expectBracket :
  Safe input (expectClose input "]" "Expected closing bracket").
Proof.
  intros pos e. unfold expectClose, bind, peek, getPos, throw, advance.
  destruct (negb (peekIs (nth_error input pos) "]")) eqn:E;
    [|discriminate].
  intros H. injection H as <-. right. split; [reflexivity|].
  cbn [position]. intros Hc. rewrite Hc in E.
  unfold peekIs, peekIsCode in E. now rewrite N.eqb_refl in E.
Qed.

End SafeFacts.

Ltac safe_prim :=
  first
    [ apply Safe_ret | apply Safe_outOfFuel | apply Safe_peek
    | apply Safe_advance | apply Safe_getPos | apply Safe_setPos
    | apply Safe_scanWhile | apply Safe_substringFrom | apply Safe_matchStr
    | apply Safe_expectBrace | apply Safe_expectBracket ].

Ltac safe_step known :=
  first
    [ assumption
    | known
    | match goal with
      | |- ReaderSpec.Safe _ (bind _ _) => apply Safe_bind; [|intros ?]
      | |- ReaderSpec.Safe _ (orElse _ _) => apply Safe_orElse
      | |- ReaderSpec.Safe _ (match ?x with _ => _ end) => destruct x
      end
    | safe_prim ].

Ltac safe_with known := cbv zeta; repeat (safe_step known).

Section SafeParser.

Import ReaderSpec.

Variable input : jsstring.
Variable cmds : Commands.

Lemma Safe_skipWhitespace : Safe input (skipWhitespace input).
Proof. apply Safe_scanWhile. Qed.

Lemma Safe_skipComment : Safe input (skipComment input).
Proof. unfold skipComment. safe_with fail. Qed.

Lemma Safe_skipIgnorableLoop (n : nat) : Safe input (skipIgnorableLoop input n).
Proof.
  induction n as [|n IH]; cbn [skipIgnorableLoop].
  - apply Safe_ret.
  - safe_with ltac:(first [apply Safe_skipWhitespace
                          | apply Safe_skipComment]).
Qed.

Lemma Safe_skipIgnorable : Safe input (skipIgnorable input).
Proof. intros pos e. unfold skipIgnorable. apply Safe_skipIgnorableLoop. Qed.

Lemma Safe_readControlSequence : Safe input (readControlSequence input).
Proof. unfold readControlSequence. safe_with fail. Qed.

Lemma Safe_readBraces {T} (p : M T) :
  Safe input p -> Safe input (readBraces input p).
Proof.
  intros H. unfold readBraces. safe_with ltac:(apply Safe_skipIgnorable).
Qed.

Lemma Safe_readBrackets {T} (p : M T) :
  Safe input p -> Safe input (readBrackets input p).
Proof.
  intros H. unfold readBrackets. safe_with ltac:(apply Safe_skipIgnorable).
Qed.

Lemma Safe_textUntilBrace : Safe input (textUntilBrace input).
Proof. unfold textUntilBrace. safe_with fail. Qed.

Lemma Safe_parseNumber : Safe input (parseNumber input).
Proof. unfold parseNumber. safe_with ltac:(apply Safe_skipIgnorable). Qed.

Lemma Safe_parseVariable : Safe input (parseVariable input).
Proof. unfold parseVariable. safe_with ltac:(apply Safe_skipIgnorable). Qed.

Lemma Safe_tryOperators (ops : list jsstring) (k : M (option Exp)) :
  Safe input k -> Safe input (tryOperators input cmds ops k).
Proof.
  intros H. induction ops as [|op ops IH]; cbn [tryOperators];
    [assumption|].
  safe_with ltac:(apply Safe_skipIgnorable).
Qed.

Lemma Safe_parseOperator : Safe input (parseOperator input cmds).
Proof.
  unfold parseOperator.
  safe_with ltac:(first [apply Safe_skipIgnorable | apply Safe_tryOperators]).
Qed.

Lemma Safe_parseEnclosure : Safe input (parseEnclosure input cmds).
Proof. unfold parseEnclosure. safe_with ltac:(apply Safe_skipIgnorable). Qed.

Lemma Safe_singleDelimiter : Safe input (singleDelimiter input).
Proof. unfold singleDelimiter. safe_with ltac:(apply Safe_skipIgnorable). Qed.

Lemma Safe_parseDelimiter : Safe input (parseDelimiter input cmds).
Proof.
  unfold parseDelimiter.
  safe_with ltac:(first [apply Safe_skipIgnorable
                        | apply Safe_readControlSequence
                        | apply Safe_singleDelimiter]).
Qed.

Ltac safe_lib :=
  first
    [ apply Safe_skipIgnorable | apply Safe_readControlSequence
    | apply Safe_readBraces | apply Safe_readBrackets
    | apply Safe_textUntilBrace | apply Safe_parseNumber
    | apply Safe_parseVariable | apply Safe_parseOperator
    | apply Safe_parseEnclosure | apply Safe_parseDelimiter ].

Section SafeBody.

Variables pe pe1 : M (option Exp).
Variable f : nat.
Hypothesis Hpe : Safe input pe.
Hypothesis Hpe1 : Safe input pe1.

Lemma Safe_collectUntilBrace (p : M (option Exp)) :
  Safe input p ->
  forall n exps, Safe input (collectUntilBrace input p n exps).
Proof.
  intros Hp. induction n as [|n IH]; intros exps;
    cbn [collectUntilBrace]; safe_with ltac:(apply IH).
Qed.

Lemma Safe_parseInBraces : Safe input (parseInBraces input pe f).
Proof.
  unfold parseInBraces.
  safe_with ltac:(first [safe_lib | now apply Safe_collectUntilBrace]).
Qed.

Lemma Safe_groupedLoop :
  forall n exps, Safe input (groupedLoop input pe n exps).
Proof.
  induction n as [|n IH]; intros exps; cbn [groupedLoop];
    safe_with ltac:(apply IH).
Qed.

Lemma Safe_parseGroupedExpr : Safe input (parseGroupedExpr input pe f).
Proof. unfold parseGroupedExpr. safe_with ltac:(apply Safe_groupedLoop). Qed.

Lemma Safe_parseFrac (fracType : FractionType) :
  Safe input (parseFrac input pe f fracType).
Proof.
  unfold parseFrac.
  safe_with ltac:(first [safe_lib | apply Safe_parseGroupedExpr]).
Qed.

Lemma Safe_parseSqrt : Safe input (parseSqrt input pe pe1 f).
Proof.
  unfold parseSqrt.
  safe_with ltac:(first [safe_lib | apply Safe_parseGroupedExpr]).
Qed.

Lemma Safe_parseOverset : Safe input (parseOverset input pe1).
Proof. unfold parseOverset. safe_with safe_lib. Qed.

Lemma Safe_parseUnderset : Safe input (parseUnderset input pe1).
Proof. unfold parseUnderset. safe_with safe_lib. Qed.

Lemma Safe_delimitedLoop :
  forall n content, Safe input (delimitedLoop input cmds pe n content).
Proof.
  induction n as [|n IH]; intros content; cbn [delimitedLoop];
    safe_with ltac:(first [safe_lib | apply IH]).
Qed.

Lemma Safe_parseDelimited : Safe input (parseDelimited input cmds pe f).
Proof.
  unfold parseDelimited.
  safe_with ltac:(first [safe_lib | apply Safe_delimitedLoop]).
Qed.

Lemma Safe_parseTextOp (op : jsstring -> Exp) :
  Safe input (parseTextOp input op).
Proof. unfold parseTextOp. safe_with safe_lib. Qed.

Lemma Safe_parseStyleOp (op : list Exp -> Exp) :
  Safe input (parseStyleOp input pe pe1 f op).
Proof.
  unfold parseStyleOp.
  safe_with ltac:(first [safe_lib | now apply Safe_collectUntilBrace]).
Qed.

Lemma Safe_parseOperatorName : Safe input (parseOperatorName input pe1 f).
Proof.
  unfold parseOperatorName.
  safe_with ltac:(first [safe_lib | now apply Safe_collectUntilBrace]).
Qed.

Lemma Safe_bracedOrBare : Safe input (bracedOrBare input pe1).
Proof. unfold bracedOrBare. safe_with safe_lib. Qed.

Lemma Safe_parseBoxed : Safe input (parseBoxed input pe1).
Proof. unfold parseBoxed. safe_with ltac:(apply Safe_bracedOrBare). Qed.

Lemma Safe_parsePhantom : Safe input (parsePhantom input pe1).
Proof. unfold parsePhantom. safe_with ltac:(apply Safe_bracedOrBare). Qed.

Lemma Safe_parseCancel (strokeType : StrokeType) :
  Safe input (parseCancel input pe1 strokeType).
Proof. unfold parseCancel. safe_with ltac:(apply Safe_bracedOrBare). Qed.

Lemma Safe_arrayLineLoop :
  forall n cells currentCell,
  Safe input (arrayLineLoop input pe n cells currentCell).
Proof.
  induction n as [|n IH]; intros cells currentCell; cbn [arrayLineLoop];
    safe_with ltac:(first [safe_lib | apply IH]).
Qed.

Lemma Safe_parseArrayLine : Safe input (parseArrayLine input pe f).
Proof. unfold parseArrayLine. apply Safe_arrayLineLoop. Qed.

Lemma Safe_linesLoop :
  forall n lines, Safe input (linesLoop input pe f n lines).
Proof.
  induction n as [|n IH]; intros lines; cbn [linesLoop];
    safe_with ltac:(first [safe_lib | apply Safe_parseArrayLine | apply IH]).
Qed.

Lemma Safe_parseMatrix (envName : jsstring) :
  Safe input (parseMatrix input pe f envName).
Proof. unfold parseMatrix. safe_with ltac:(apply Safe_linesLoop). Qed.

Lemma Safe_parseAlign : Safe input (parseAlign input pe f).
Proof. unfold parseAlign. safe_with ltac:(apply Safe_linesLoop). Qed.

Lemma Safe_parseEnvironment : Safe input (parseEnvironment input pe f).
Proof.
  unfold parseEnvironment.
  safe_with ltac:(first [safe_lib | apply Safe_parseMatrix
                        | apply Safe_parseAlign]).
Qed.

Lemma Safe_parseHSpace : Safe input (parseHSpace input).
Proof. unfold parseHSpace. safe_with safe_lib. Qed.

Lemma Safe_parseSymbol (sym : Exp) : Safe input (parseSymbol pe1 sym).
Proof. unfold parseSymbol. safe_with fail. Qed.

Lemma Safe_parseCommand : Safe input (parseCommand input cmds pe pe1 f).
Proof.
  unfold parseCommand, parseStackrel.
  safe_with ltac:(first
    [ safe_lib
    | apply Safe_parseSymbol | apply Safe_parseFrac | apply Safe_parseSqrt
    | apply Safe_parseOverset | apply Safe_parseUnderset
    | apply Safe_parseDelimited | apply Safe_parseTextOp
    | apply Safe_parseStyleOp | apply Safe_parseOperatorName
    | apply Safe_parseBoxed | apply Safe_parsePhantom
    | apply Safe_parseCancel | apply Safe_parseEnvironment
    | apply Safe_parseHSpace ]).
Qed.

Lemma Safe_secondScript (marker : ascii) (both : Exp -> Exp) (single : Exp) :
  Safe input (secondScript input pe1 marker both single).
Proof. unfold secondScript. safe_with safe_lib. Qed.

Lemma Safe_parseSubSup (base : Exp) : Safe input (parseSubSup input pe1 base).
Proof.
  unfold parseSubSup.
  safe_with ltac:(first [safe_lib | apply Safe_secondScript]).
Qed.

Lemma Safe_parseExprBody : Safe input (parseExprBody input pe1).
Proof.
  unfold parseExprBody.
  safe_with ltac:(first [safe_lib | apply Safe_parseSubSup]).
Qed.

Lemma Safe_parseExpr1Body : Safe input (parseExpr1Body input cmds pe pe1 f).
Proof.
  unfold parseExpr1Body.
  safe_with ltac:(first [safe_lib | apply Safe_parseInBraces
                        | apply Safe_parseCommand]).
Qed.

End SafeBody.

Lemma Safe_parseExpr (f : nat) :
  Safe input (parseExpr input cmds f) /\ Safe input (parseExpr1 input cmds f).
Proof.
  induction f as [|f [IHe IH1]].
  - split; intros pos e H; discriminate.
  - split; intros pos e; cbn [parseExpr parseExpr1].
    + now apply Safe_parseExprBody.
    + now apply Safe_parseExpr1Body.
Qed.

Lemma Safe_parseLoop (p : M (option Exp)) :
  Safe input p -> forall n exps, Safe input (parseLoop input p n exps).
Proof.
  intros Hp. induction n as [|n IH]; intros exps; cbn [parseLoop];
    safe_with ltac:(first [safe_lib | apply IH]).
Qed.

Lemma Safe_parse (f : nat) : Safe input (parse input cmds f).
Proof.
  unfold parse.
  safe_with ltac:(first [safe_lib
                        | apply Safe_parseLoop; apply Safe_parseExpr]).
Qed.

End SafeParser.

(** ** The reader: no group is wrapped around a single expression *)

Section PostFacts.

Import ReaderSpec.

Lemma Post_ret {A} (P : A -> Prop) (a : A) : P a -> Post P (ret a).
Proof. intros H pos a' pos' E. injection E as <- _. exact H. Qed.

Lemma Post_outOfFuel {A} (P : A -> Prop) : Post P outOfFuel.
Proof. intros pos a pos' E. discriminate. Qed.

Lemma Post_bind_with {A B} (P : A -> Prop) (Q : B -> Prop)
    (m : M A) (k : A -> M B) :
  Post P m -> (forall a, P a -> Post Q (k a)) -> Post Q (bind m k).
Proof.
  intros Hm Hk pos b pos'. unfold bind.
  destruct (m pos) as [|e|a p] eqn:E; try discriminate.
  apply (Hk a). now apply (Hm pos a p).
Qed.

Lemma Post_bind {A B} (Q : B -> Prop) (m : M A) (k : A -> M B) :
  (forall a, Post Q (k a)) -> Post Q (bind m k).
Proof.
  intros Hk. apply (@Post_bind_with A B (fun _ => True)); [|auto].
  intros pos a pos' _. exact I.
Qed.

Lemma Post_orElse {A} (P : A -> Prop) (m k : M (option A)) :
  Post (optP P) m -> Post (optP P) k -> Post (optP P) (orElse m k).
Proof.
  intros Hm Hk. unfold orElse. eapply Post_bind_with; [exact Hm|].
  intros [a|] Ha; [now apply Post_ret | assumption].
Qed.

Lemma noSingle_groupExps (exps : list Exp) :
  Forall noSingle exps -> noSingle (groupExps exps).
Proof.
  intros H. destruct exps as [|e [|e' exps]]; cbn [groupExps].
  - intros x. discriminate.
  - now inversion H.
  - intros x. discriminate.
Qed.

Lemma Forall_noSingle_snoc (exps : list Exp) (e : Exp) :
  Forall noSingle exps -> noSingle e -> Forall noSingle (exps ++ [e]).
Proof. intros H He. apply Forall_app. split; [assumption | now constructor]. Qed.

Lemma noSingle_fixBinList (exps : list Exp) :
  Forall noSingle exps -> Forall noSingle (FixBin.fixBinList exps).
Proof.
  intros H.
  pose proof (fold_fixBinStep_frame exps (done := []) (result := [])
                (Forall2_nil _)) as HF.
  cbn [app] in HF. fold (FixBin.fixBinList exps) in HF.
  induction HF as [|i o ins outs Hio _ IH]; [constructor|].
  inversion H as [|? ? Hi His]; subst.
  constructor; [|now apply IH].
  destruct Hio as [->|[v [_ ->]]]; [assumption|].
  intros x. discriminate.
Qed.

End PostFacts.

(** The value returned at a leaf: a constructor other than a group, or
    a value already known to be fine. *)
Ltac post_value :=
  cbn [ReaderSpec.optP];
  first
    [ exact I
    | assumption
    | intros ?; discriminate
    | apply noSingle_groupExps; assumption
    | idtac ].

Ltac post_step known :=
  first
    [ assumption
    | known
    | match goal with
      | |- ReaderSpec.Post _ (ret _) => apply Post_ret; post_value
      | |- ReaderSpec.Post _ outOfFuel => apply Post_outOfFuel
      | |- ReaderSpec.Post _ (bind _ _) => apply Post_bind; intros ?
      | |- ReaderSpec.Post _ (orElse _ _) => apply Post_orElse
      | |- ReaderSpec.Post _ (match ?x with _ => _ end) => destruct x eqn:?
      end ].

Ltac post_with known := cbv zeta; repeat (post_step known).

Section PostParser.

Import ReaderSpec.

Variable input : jsstring.
Variable cmds : Commands.
Hypothesis Hclean : cleanCommands cmds.

Lemma Post_readBraces {T} (P : T -> Prop) (p : M T) :
  Post P p -> Post (optP P) (readBraces input p).
Proof.
  intros H. unfold readBraces.
  post_with ltac:(eapply Post_bind_with; [exact H | intros ? ?]).
Qed.

Lemma Post_parseNumber : Post (optP noSingle) (parseNumber input).
Proof. unfold parseNumber. post_with fail. Qed.

Lemma Post_parseVariable : Post (optP noSingle) (parseVariable input).
Proof. unfold parseVariable. post_with fail. Qed.

Lemma optP_operators (k : jsstring) : optP noSingle (operators cmds k).
Proof.
  destruct (operators cmds k) eqn:E; [|exact I].
  exact (clean_operators Hclean _ E).
Qed.

Lemma Post_tryOperators (ops : list jsstring) (k : M (option Exp)) :
  Post (optP noSingle) k ->
  Post (optP noSingle) (tryOperators input cmds ops k).
Proof.
  intros H. induction ops as [|op ops IH]; cbn [tryOperators];
    [assumption|].
  post_with fail. apply optP_operators.
Qed.

Lemma Post_parseOperator : Post (optP noSingle) (parseOperator input cmds).
Proof.
  unfold parseOperator. post_with ltac:(apply Post_tryOperators).
  eapply clean_operators; eassumption.
Qed.

Lemma Post_parseEnclosure : Post (optP noSingle) (parseEnclosure input cmds).
Proof.
  unfold parseEnclosure. post_with fail.
  eapply clean_enclosures; eassumption.
Qed.

Section PostBody.

Variables pe pe1 : M (option Exp).
Variable f : nat.
Hypothesis Hpe : Post (optP noSingle) pe.
Hypothesis Hpe1 : Post (optP noSingle) pe1.

Lemma Post_collectUntilBrace (p : M (option Exp)) :
  Post (optP noSingle) p ->
  forall n exps, Forall noSingle exps ->
  Post (Forall noSingle) (collectUntilBrace input p n exps).
Proof.
  intros Hp. induction n as [|n IH]; intros exps Hexps;
    cbn [collectUntilBrace];
    post_with ltac:(first
      [ eapply Post_bind_with; [exact Hp | intros ? ?]
      | apply IH; now apply Forall_noSingle_snoc ]).
Qed.

Lemma Post_parseInBraces : Post (optP noSingle) (parseInBraces input pe f).
Proof.
  unfold parseInBraces.
  eapply Post_bind_with.
  - apply Post_readBraces. apply Post_collectUntilBrace; [exact Hpe|].
    constructor.
  - intros [exps|] H; post_with fail.
Qed.

Lemma Post_groupedLoop :
  forall n exps, Forall noSingle exps ->
  Post (Forall noSingle) (groupedLoop input pe n exps).
Proof.
  induction n as [|n IH]; intros exps Hexps; cbn [groupedLoop];
    post_with ltac:(first
      [ eapply Post_bind_with; [exact Hpe | intros ? ?]
      | apply IH; first [assumption | now apply Forall_noSingle_snoc] ]).
Qed.

Lemma Post_parseGroupedExpr : Post noSingle (parseGroupedExpr input pe f).
Proof.
  unfold parseGroupedExpr. eapply Post_bind_with.
  - apply Post_groupedLoop. constructor.
  - intros exps H. post_with fail.
Qed.

Lemma Post_parseTextOp (op : jsstring -> Exp) :
  (forall text, noSingle (op text)) ->
  Post (optP noSingle) (parseTextOp input op).
Proof. intros H. unfold parseTextOp. post_with fail. apply H. Qed.

Lemma Post_parseStyleOp (op : list Exp -> Exp) :
  (forall content, noSingle (op content)) ->
  Post (optP noSingle) (parseStyleOp input pe pe1 f op).
Proof. intros H. unfold parseStyleOp. post_with fail. apply H. Qed.

Lemma Post_parseSymbol (sym : Exp) :
  noSingle sym -> Post (optP noSingle) (parseSymbol pe1 sym).
Proof. intros H. unfold parseSymbol. post_with fail. Qed.

(** The methods that wrap what they read in a constructor of their
    own. *)
Lemma Post_constructors :
  (forall t, Post (optP noSingle) (parseFrac input pe f t)) /\
  Post (optP noSingle) (parseSqrt input pe pe1 f) /\
  Post (optP noSingle) (parseOverset input pe1) /\
  Post (optP noSingle) (parseUnderset input pe1) /\
  Post (optP noSingle) (parseDelimited input cmds pe f) /\
  Post (optP noSingle) (parseOperatorName input pe1 f) /\
  Post (optP noSingle) (parseBoxed input pe1) /\
  Post (optP noSingle) (parsePhantom input pe1) /\
  (forall s, Post (optP noSingle) (parseCancel input pe1 s)) /\
  Post (optP noSingle) (parseEnvironment input pe f) /\
  Post (optP noSingle) (parseHSpace input).
Proof.
  repeat split; intros;
    unfold parseFrac, parseSqrt, parseOverset, parseUnderset,
      parseDelimited, parseOperatorName, parseBoxed, parsePhantom,
      parseCancel, parseEnvironment, parseMatrix, parseAlign, parseHSpace;
    post_with fail.
Qed.

Lemma Post_parseCommand :
  Post (optP noSingle) (parseCommand input cmds pe pe1 f).
Proof.
  destruct Post_constructors
    as [Hfrac [Hsqrt [Hover [Hunder [Hdelim [Hname [Hbox [Hphant
       [Hcancel [Henv Hspace]]]]]]]]]].
  unfold parseCommand, parseStackrel.
  post_with ltac:(first
    [ apply Hfrac | apply Hcancel
    | apply Post_parseSymbol; eapply clean_symbols; eassumption
    | apply Post_parseTextOp; intros ?; eapply clean_textOps; eassumption
    | apply Post_parseStyleOp; intros ?; eapply clean_styleOps;
      eassumption ]).
Qed.

Lemma Post_secondScript (marker : ascii) (both : Exp -> Exp) (single : Exp) :
  (forall other, noSingle (both other)) -> noSingle single ->
  Post (optP noSingle) (secondScript input pe1 marker both single).
Proof. intros Hb Hs. unfold secondScript. post_with fail. apply Hb. Qed.

Lemma Post_parseSubSup (base : Exp) :
  Post (optP noSingle) (parseSubSup input pe1 base).
Proof.
  unfold parseSubSup.
  post_with ltac:(apply Post_secondScript; intros ? ?; discriminate).
Qed.

Lemma Post_parseExprBody : Post (optP noSingle) (parseExprBody input pe1).
Proof.
  unfold parseExprBody.
  post_with ltac:(first
    [ eapply Post_bind_with; [exact Hpe1 | intros ? ?]
    | eapply Post_bind_with; [apply Post_parseSubSup | intros ? ?] ]).
Qed.

Lemma Post_parseExpr1Body :
  Post (optP noSingle) (parseExpr1Body input cmds pe pe1 f).
Proof.
  unfold parseExpr1Body.
  post_with ltac:(first
    [ apply Post_parseInBraces | apply Post_parseNumber
    | apply Post_parseVariable | apply Post_parseCommand
    | apply Post_parseOperator | apply Post_parseEnclosure ]).
Qed.

End PostBody.

Lemma Post_parseExpr (f : nat) :
  Post (optP noSingle) (parseExpr input cmds f) /\
  Post (optP noSingle) (parseExpr1 input cmds f).
Proof.
  induction f as [|f [IHe IH1]].
  - split; intros pos a pos' H; discriminate.
  - split; intros pos a pos'; cbn [parseExpr parseExpr1].
    + now apply Post_parseExprBody.
    + now apply Post_parseExpr1Body.
Qed.

Lemma Post_parseLoop (p : M (option Exp)) :
  Post (optP noSingle) p ->
  forall n exps, Forall noSingle exps ->
  Post (Forall noSingle) (parseLoop input p n exps).
Proof.
  intros Hp. induction n as [|n IH]; intros exps Hexps; cbn [parseLoop];
    post_with ltac:(first
      [ eapply Post_bind_with; [exact Hp | intros ? ?]
      | apply IH; now apply Forall_noSingle_snoc ]).
Qed.

Lemma Post_parse (f : nat) : Post (Forall noSingle) (parse input cmds f).
Proof.
  unfold parse. apply Post_bind. intros _.
  eapply Post_bind_with.
  - apply Post_parseLoop; [apply Post_parseExpr | constructor].
  - intros exps H. apply Post_ret. now apply noSingle_fixBinList.
Qed.

End PostParser.

(** ** The reader on the inputs of the specification *)

Section ReaderRuns.

Import ReaderSpec Index.

Lemma sameCommands_refl (cmds : Commands) : sameCommands cmds cmds.
Proof. now constructor. Qed.

Lemma override_same {A} (key : string) (v : option A)
    (table : jsstring -> option A) :
  table (lit key) = v -> forall k, override key v table k = table k.
Proof.
  intros H k. unfold override.
  destruct (str_eqb k (lit key)) eqn:E; [|reflexivity].
  apply str_eqb_eq in E. now subst.
Qed.

Lemma latexToOmml_stable (cmds : Commands) (f f' : nat) (input : jsstring)
    (outcome : Outcome) (dt : DisplayType) :
  f <= f' ->
  readTeX cmds f' input = outcome ->
  outcome <> Exhausted ->
  latexToOmml cmds f' input dt =
    match outcome with
    | Parsed ast => Converted (writeOMML dt ast)
    | Raised e => Failed (lit "Failed to convert LaTeX to OMML: " ++ message e)
    | Exhausted => NoFuel
    end.
Proof. intros _ E _. unfold latexToOmml. now rewrite E. Qed.

End ReaderRuns.

(** Runs the reader with the fuel [n] on the table [known], which
    answers the lookups of this run by themselves, and carries the
    outcome over to any larger fuel and to the table at hand. *)
Ltac run_reader known n :=
  apply (@readTeX_stable known _ n);
  [ constructor; cbn [symbols operators enclosures styleOps textOps];
    intros ?; try reflexivity; now apply override_same
  | assumption
  | vm_compute; reflexivity
  | discriminate ].

(** C1 (the code departs from it): on the [pmatrix] input the reader
    returns the delimited region with the delimiters ( and ) around an
    array whose columns are both centered, but the array has one row
    only: [parseArrayLine] consumes the line break that [parseMatrix]
    looks for, so the loop over the lines stops after the first row and
    the second row is read as top-level expressions. *)
Theorem pmatrix_keeps_first_row_only (cmds : Commands) (fuel : nat) :
  symbols cmds (lit "\begin") = None ->
  textOps cmds (lit "\begin") = None ->
  styleOps cmds (lit "\begin") = None ->
  operators cmds (lit "&") = None ->
  6 <= fuel ->
  readTeX cmds fuel (lit "\begin{pmatrix} a & b \\ c & d \end{pmatrix}")
    = Parsed
        [ EDelimited (lit "(") (lit ")")
            [Right (EArray [AlignCenter; AlignCenter]
                      [ [ [EIdentifier (lit "a")]; [EIdentifier (lit "b")] ] ])];
          EIdentifier (lit "c") ].
Proof.
  intros Hsym Htext Hstyle Hop Hfuel.
  run_reader
    (mkCommands (ReaderSpec.override "\begin" None (symbols cmds))
                (ReaderSpec.override "&" None (operators cmds))
                (enclosures cmds)
                (ReaderSpec.override "\begin" None (styleOps cmds))
                (ReaderSpec.override "\begin" None (textOps cmds))) 6.
Qed.

Lemma pmatrix_keeps_first_row_only_witness :
  readTeX Sample.commands 10
    (lit "\begin{pmatrix} a & b \\ c & d \end{pmatrix}")
    = Parsed
        [ EDelimited (lit "(") (lit ")")
            [Right (EArray [AlignCenter; AlignCenter]
                      [ [ [EIdentifier (lit "a")]; [EIdentifier (lit "b")] ] ])];
          EIdentifier (lit "c") ].
Proof.
  apply (pmatrix_keeps_first_row_only Sample.commands (fuel := 10));
    solve [reflexivity | lia].
Defined.

(** C2 as stated fails on its second half: converting [\sum i] yields
    no [m:nary] element at all. *)
Lemma sum_without_limits_is_not_nary :
  exists ast : list Exp,
    readTeX Sample.commands 8 (lit "\sum i") = Parsed ast /\
    existsb (Index.hasTag (lit "m:nary"))
      (flat_map (showExp []) (handleDownup DisplayInline ast)) = false /\
    exists omml,
      Index.latexToOmml Sample.commands 8 (lit "\sum i") DisplayInline
        = Index.Converted omml /\
      str_includes omml (lit "nary") = false.
Proof.
  eexists. split; [vm_compute; reflexivity|].
  split; [vm_compute; reflexivity|].
  eexists. split; vm_compute; reflexivity.
Qed.

(** C2, amended: converting [\sum_{i=1}^{n} i] yields one [m:nary]
    element whose lower limit is [i=1], whose upper limit is [n] and
    whose operand is [i], neither limit hidden.  Converting [\sum i]
    yields no n-ary element: the operator and [i] are two runs.
    Converting [\sum_{i=1} i] yields one [m:nary] element with the
    lower limit [i=1], the operand [i] and the upper limit hidden, its
    slot holding a zero-width space. *)
Theorem sum_with_limits_is_nary (cmds : Commands) (fuel : nat)
    (dt : DisplayType) :
  symbols cmds (lit "\sum") = Some (ESymbol Op Index.sumSign) ->
  operators cmds (lit "=") = Some (ESymbol Rel (lit "=")) ->
  6 <= fuel ->
  Index.latexToOmml cmds fuel (lit "\sum_{i=1}^{n} i") dt
    = Index.Converted
        (nodeToString
           (rootNode dt
              [Index.naryNode Index.sumSign (lit "subSup") (lit "off")
                 (lit "off")
                 [Index.run "i"; Index.plainRun (lit "="); Index.run "1"]
                 [Index.run "n"]
                 [Index.run "i"]]) 0) /\
  Index.latexToOmml cmds fuel (lit "\sum i") dt
    = Index.Converted
        (nodeToString
           (rootNode dt [Index.plainRun Index.sumSign; Index.run "i"]) 0) /\
  Index.latexToOmml cmds fuel (lit "\sum_{i=1} i") dt
    = Index.Converted
        (nodeToString
           (rootNode dt
              [Index.naryNode Index.sumSign (lit "subSup") (lit "off")
                 (lit "on")
                 [Index.run "i"; Index.plainRun (lit "="); Index.run "1"]
                 [str [] zwsp]
                 [Index.run "i"]]) 0).
Proof.
  intros Hsym Hop Hfuel.
  pose (known :=
    mkCommands
      (ReaderSpec.override "\sum" (Some (ESymbol Op Index.sumSign))
         (symbols cmds))
      (ReaderSpec.override "=" (Some (ESymbol Rel (lit "=")))
         (operators cmds))
      (enclosures cmds) (styleOps cmds) (textOps cmds)).
  assert (E1 : readTeX cmds fuel (lit "\sum_{i=1}^{n} i")
               = Parsed [ESubsup (ESymbol Op Index.sumSign)
                           (EGrouped [EIdentifier (lit "i");
                                      ESymbol Rel (lit "=");
                                      ENumber (lit "1")])
                           (EIdentifier (lit "n"));
                         EIdentifier (lit "i")])
    by run_reader known 6.
  assert (E2 : readTeX cmds fuel (lit "\sum i")
               = Parsed [ESymbol Op Index.sumSign; EIdentifier (lit "i")])
    by run_reader known 6.
  assert (E3 : readTeX cmds fuel (lit "\sum_{i=1} i")
               = Parsed [ESub (ESymbol Op Index.sumSign)
                           (EGrouped [EIdentifier (lit "i");
                                      ESymbol Rel (lit "=");
                                      ENumber (lit "1")]);
                         EIdentifier (lit "i")])
    by run_reader known 6.
  unfold Index.latexToOmml. rewrite E1, E2, E3.
  repeat split; destruct dt; reflexivity.
Qed.

Lemma sum_with_limits_is_nary_witness :
  Index.latexToOmml Sample.commands 10 (lit "\sum_{i=1}^{n} i") DisplayInline
    = Index.Converted
        (nodeToString
           (rootNode DisplayInline
              [Index.naryNode Index.sumSign (lit "subSup") (lit "off")
                 (lit "off")
                 [Index.run "i"; Index.plainRun (lit "="); Index.run "1"]
                 [Index.run "n"]
                 [Index.run "i"]]) 0).
Proof.
  apply (sum_with_limits_is_nary Sample.commands (fuel := 10) DisplayInline);
    solve [reflexivity | lia].
Defined.

Section Unrecognized.

Import ReaderSpec.

Variable input : jsstring.

Lemma skipComment_returns (pos : nat) :
  exists pos', skipComment input pos = Ret tt pos'.
Proof.
  unfold skipComment, bind, scanWhile, peek, advance, ret.
  destruct (peekIsCode _ _); eexists; reflexivity.
Qed.

Lemma skipIgnorableLoop_returns (n : nat) :
  forall pos, exists pos', skipIgnorableLoop input n pos = Ret tt pos'.
Proof.
  induction n as [|n IH]; intros pos; cbn [skipIgnorableLoop].
  - now exists pos.
  - unfold bind, skipWhitespace, scanWhile, peek.
    destruct (peekIs _ _); [|eexists; reflexivity].
    destruct (skipComment_returns
                (scanFrom input isSpace (List.length input - pos) pos))
      as [p ->].
    apply IH.
Qed.

Lemma skipIgnorable_returns (pos : nat) :
  exists pos', skipIgnorable input pos = Ret tt pos'.
Proof. apply skipIgnorableLoop_returns. Qed.

(** A command that no table and no built-in rule knows makes
    [parseCommand] yield no expression; nothing is thrown. *)
Lemma parseCommand_unrecognized (cmds : Commands)
    (pe pe1 : M (option Exp)) (f pos pos' : nat) (cmd : jsstring) :
  readControlSequence input pos = Ret (Some cmd) pos' ->
  unrecognized cmds cmd ->
  exists pos'', parseCommand input cmds pe pe1 f pos = Ret None pos''.
Proof.
  intros Hread [Hsym [Htext [Hstyle Hbuiltin]]].
  unfold parseCommand, bind. rewrite Hread.
  destruct (skipIgnorable_returns pos') as [p ->].
  rewrite Hsym, Htext, Hstyle.
  unfold includes, builtinCommands in Hbuiltin.
  cbn [map existsb] in Hbuiltin.
  repeat match type of Hbuiltin with
  | (_ || _)%bool = false =>
      let H := fresh "H" in
      apply orb_false_elim in Hbuiltin as [H Hbuiltin];
      unfold cmdIs; rewrite H
  end.
  eexists. reflexivity.
Qed.

(** At the top level, an expression that cannot be read ends the parse
    with what was accumulated. *)
Lemma parseLoop_stops (p : M (option Exp)) (n : nat) (exps : list Exp)
    (pos pos' : nat) :
  p pos = Ret None pos' ->
  exists pos'', parseLoop input p (S n) exps pos = Ret exps pos''.
Proof.
  intros H. cbn [parseLoop]. unfold bind, peek.
  destruct (nth_error input pos); [|now eexists].
  rewrite H. now eexists.
Qed.

End Unrecognized.

(** C6 as stated fails inside a braced group: the unrecognized command
    leaves the cursor before [{n}], where the group requires its
    closing brace, and the reader throws. *)
Lemma unrecognized_in_braces_raises :
  ReaderSpec.unrecognized Sample.commands (lit "\binom") /\
  readTeX Sample.commands 8 (lit "{\binom{n}{k}}")
    = Raised (mkParseError (lit "Expected closing brace") 7).
Proof. split; [repeat split | vm_compute; reflexivity]. Qed.

(** C6, amended: [\binom{n}{k}] parses to the empty sequence and
    nothing is raised; a command that nothing recognizes makes
    [parseCommand] yield no expression without raising, and at the top
    level an expression that cannot be read ends the parse with the
    expressions accumulated so far.  Inside a braced group the same
    command is followed by the check for the closing brace, which
    raises. *)
Theorem unrecognized_command_ends_parse (cmds : Commands) :
  ReaderSpec.unrecognized cmds (lit "\binom") ->
  operators cmds (lit "{") = None ->
  (forall fuel, 2 <= fuel ->
     readTeX cmds fuel (lit "\binom{n}{k}") = Parsed []) /\
  (forall input pe pe1 f pos pos' cmd,
     readControlSequence input pos = Ret (Some cmd) pos' ->
     ReaderSpec.unrecognized cmds cmd ->
     exists pos'', parseCommand input cmds pe pe1 f pos = Ret None pos'') /\
  (forall input p n exps pos pos',
     p pos = Ret None pos' ->
     exists pos'', parseLoop input p (S n) exps pos = Ret exps pos'') /\
  (forall fuel, 4 <= fuel ->
     readTeX cmds fuel (lit "{\binom{n}{k}}")
       = Raised (mkParseError (lit "Expected closing brace") 7)).
Proof.
  intros [Hsym [Htext [Hstyle _]]] Hop.
  pose (known :=
    mkCommands (ReaderSpec.override "\binom" None (symbols cmds))
               (ReaderSpec.override "{" None (operators cmds))
               (enclosures cmds)
               (ReaderSpec.override "\binom" None (styleOps cmds))
               (ReaderSpec.override "\binom" None (textOps cmds))).
  split; [|split; [|split]].
  - intros fuel Hfuel. run_reader known 2.
  - intros input pe pe1 f pos pos' cmd Hread Hcmd.
    eapply parseCommand_unrecognized; eassumption.
  - intros input p n exps pos pos' Hp.
    eapply parseLoop_stops; eassumption.
  - intros fuel Hfuel. run_reader known 4.
Qed.

Lemma unrecognized_command_ends_parse_witness :
  readTeX Sample.commands 10 (lit "\binom{n}{k}") = Parsed [].
Proof.
  refine (proj1 (@unrecognized_command_ends_parse Sample.commands _ _) 10 _).
  - repeat split.
  - reflexivity.
  - lia.
Defined.

Lemma lookup_in {A} (entries : list (string * A)) (k : jsstring) (v : A) :
  Sample.lookup entries k = Some v -> In v (map snd entries).
Proof.
  unfold Sample.lookup.
  destruct (find _ entries) as [kv|] eqn:E; [|discriminate].
  intros H. injection H as <-. apply find_some in E as [E _].
  now apply in_map.
Qed.

(** The sample table has no one-element group among its entries. *)
Lemma sample_commands_clean : ReaderSpec.cleanCommands Sample.commands.
Proof.
  constructor; cbn [symbols operators enclosures styleOps textOps
                    Sample.commands];
    intros k v; intros; apply lookup_in in H; cbn [map snd] in H;
    repeat destruct H as [<-|H]; try contradiction;
    intros x; discriminate.
Qed.

(** The three shapes of a braced group, whatever the command table. *)
Lemma braced_groups (cmds : Commands) (fuel : nat) :
  5 <= fuel ->
  readTeX cmds fuel (lit "{x}") = Parsed [EIdentifier (lit "x")] /\
  readTeX cmds fuel (lit "{}") = Parsed [EGrouped []] /\
  readTeX cmds fuel (lit "{xy}")
    = Parsed [EGrouped [EIdentifier (lit "x"); EIdentifier (lit "y")]].
Proof.
  intros Hfuel. repeat split; run_reader cmds 5.
Qed.

(* ================================================================== *)
(** * Further properties of the passes and of the serializer *)

(** ** What [fixBinList] establishes *)

Section FixBinPlaced.

Import FixBin PassSpec.

Lemma neighboursPlaced_snoc (l : list Exp) (e d : Exp) :
  neighboursPlaced (l ++ [e])
    = neighboursPlaced l &&
      match l with
      | [] => true
      | _ :: _ => pairPlaced (last l d) e
      end.
Proof.
  induction l as [|a [|b l] IH]; [reflexivity| |].
  - cbn. now destruct (pairPlaced a e).
  - change (neighboursPlaced ((a :: b :: l) ++ [e]))
      with (pairPlaced a b && neighboursPlaced ((b :: l) ++ [e])).
    rewrite IH.
    change (neighboursPlaced (a :: b :: l))
      with (pairPlaced a b && neighboursPlaced (b :: l)).
    change (last (a :: b :: l) d) with (last (b :: l) d).
    now rewrite andb_assoc.
Qed.

Lemma headPlaced_snoc (l : list Exp) (e : Exp) :
  headPlaced (l ++ [e])
    = match l with
      | [] => negb (isBinSymbol e)
      | _ :: _ => headPlaced l
      end.
Proof. now destruct l. Qed.

Lemma binPlaced_snoc (l : list Exp) (e d : Exp) :
  binPlaced (l ++ [e])
    = match l with
      | [] => negb (isBinSymbol e)
      | _ :: _ => binPlaced l && pairPlaced (last l d) e
      end.
Proof.
  unfold binPlaced. rewrite headPlaced_snoc, (neighboursPlaced_snoc l e d).
  destruct l as [|a l]; [now rewrite andb_true_r|].
  now rewrite andb_assoc.
Qed.

Lemma toOrd_not_bin (e : Exp) :
  isBinSymbol e = true -> isBinSymbol (toOrd e) = false.
Proof. intros H. apply isBinSymbol_inv in H as [v ->]. reflexivity. Qed.

Lemma toOrd_not_closing (e : Exp) :
  isBinSymbol e = true -> closesOperand (toOrd e) = false.
Proof. intros H. apply isBinSymbol_inv in H as [v ->]. reflexivity. Qed.

Lemma pairPlaced_toOrd_r (a e : Exp) :
  isBinSymbol e = true -> pairPlaced a (toOrd e) = true.
Proof.
  intros H. unfold pairPlaced.
  rewrite (toOrd_not_bin _ H), (toOrd_not_closing _ H).
  cbn. now rewrite andb_false_r.
Qed.

Lemma pairPlaced_toOrd_l (a e : Exp) :
  isBinSymbol a = true -> isBinSymbol e = false ->
  pairPlaced (toOrd a) e = true.
Proof.
  intros Ha He. unfold pairPlaced. rewrite He, (toOrd_not_bin _ Ha).
  reflexivity.
Qed.

(** Turning the last element, a binary operator, into an ordinary
    symbol keeps the sequence well placed. *)
Lemma binPlaced_setLast (l : list Exp) (d : Exp) :
  l <> [] -> binPlaced l = true -> isBinSymbol (last l d) = true ->
  binPlaced (setLast l (toOrd (last l d))) = true /\
  last (setLast l (toOrd (last l d))) d = toOrd (last l d) /\
  setLast l (toOrd (last l d)) <> [].
Proof.
  intros Hne Hok Hbin.
  destruct (exists_last Hne) as [front [prev ->]].
  rewrite last_last in *. unfold setLast. rewrite removelast_last.
  rewrite last_last. split; [|split; [reflexivity|]].
  - rewrite (binPlaced_snoc front prev d) in Hok.
    rewrite (binPlaced_snoc front (toOrd prev) d).
    destruct front as [|a front]; [now rewrite (toOrd_not_bin _ Hbin)|].
    apply andb_true_iff in Hok as [Hfront _].
    rewrite Hfront. cbn [andb]. now apply pairPlaced_toOrd_r.
  - now destruct front.
Qed.

Lemma binPlaced_single (e : Exp) :
  isBinSymbol e = false -> binPlaced [e] = true.
Proof.
  intros H. unfold binPlaced. cbn [headPlaced neighboursPlaced].
  now rewrite H.
Qed.

Lemma fixBinStep_placed (result : list Exp) (exp : Exp) :
  binPlaced result = true -> binPlaced (fixBinStep result exp) = true.
Proof.
  intros Hok. unfold fixBinStep.
  destruct (isBinSymbol exp) eqn:Hbin.
  - destruct result as [|r result].
    + apply binPlaced_single. now apply toOrd_not_bin.
    + destruct (isSymbolOf _ _) eqn:Hprev;
        rewrite (binPlaced_snoc _ _ exp), Hok; cbn [andb].
      * now apply pairPlaced_toOrd_r.
      * unfold pairPlaced, opensOperand. rewrite Hprev, Hbin.
        cbn [andb negb].
        destruct (isBinSymbol (last (r :: result) exp)) eqn:Hp;
          [|reflexivity].
        apply isBinSymbol_inv in Hp as [v Hp]. rewrite Hp in Hprev.
        discriminate.
  - destruct (isSymbolOf [Rel; Close; Pun] exp) eqn:Hclose.
    + destruct result as [|r result]; [now apply binPlaced_single|].
      destruct (isBinSymbol (last (r :: result) exp)) eqn:Hprev.
      * destruct (@binPlaced_setLast (r :: result) exp
                    ltac:(discriminate) Hok Hprev) as [Hok' [Hlast Hne]].
        destruct (setLast (r :: result) (toOrd (last (r :: result) exp)))
          as [|r' result'] eqn:E; [congruence|].
        rewrite (binPlaced_snoc _ _ exp), Hok', Hlast. cbn [andb].
        now apply pairPlaced_toOrd_l.
      * rewrite (binPlaced_snoc _ _ exp), Hok. cbn [andb].
        unfold pairPlaced. now rewrite Hbin, Hprev.
    + destruct result as [|r result]; [now apply binPlaced_single|].
      rewrite (binPlaced_snoc _ _ exp), Hok. cbn [andb].
      unfold pairPlaced, closesOperand. rewrite Hbin, Hclose.
      cbn. now rewrite andb_false_r.
Qed.

Lemma fold_fixBinStep_placed (exps result : list Exp) :
  binPlaced result = true ->
  binPlaced (fold_left fixBinStep exps result) = true.
Proof.
  revert result. induction exps as [|e exps IH]; intros result H;
    [assumption|].
  cbn [fold_left]. apply IH. now apply fixBinStep_placed.
Qed.

(** On a sequence that is already well placed the pass changes
    nothing. *)
Lemma fold_fixBinStep_fixed (suffix prefix : list Exp) :
  binPlaced (prefix ++ suffix) = true ->
  fold_left fixBinStep suffix prefix = prefix ++ suffix.
Proof.
  revert prefix. induction suffix as [|e suffix IH]; intros prefix Hok;
    cbn [fold_left]; [now rewrite app_nil_r|].
  assert (Hpre : binPlaced (prefix ++ [e]) = true).
  { clear IH. revert Hok.
    replace (prefix ++ e :: suffix) with ((prefix ++ [e]) ++ suffix)
      by now rewrite <- app_assoc.
    generalize (prefix ++ [e]) as l. intros l.
    induction suffix as [|x suffix IHs] using rev_ind;
      [now rewrite app_nil_r|].
    rewrite app_assoc. intros H. apply IHs.
    rewrite (binPlaced_snoc _ _ x) in H.
    destruct (l ++ suffix); [reflexivity|].
    now apply andb_true_iff in H as [H _]. }
  replace (prefix ++ e :: suffix) with ((prefix ++ [e]) ++ suffix) in *
    by now rewrite <- app_assoc.
  rewrite <- (IH _ Hok). f_equal.
  rewrite (binPlaced_snoc _ _ e) in Hpre. unfold fixBinStep.
  destruct prefix as [|p prefix].
  - apply negb_true_iff in Hpre. rewrite Hpre. now destruct (isSymbolOf _ e).
  - apply andb_true_iff in Hpre as [_ Hpair]. unfold pairPlaced in Hpair.
    apply andb_true_iff in Hpair as [H1 H2].
    apply negb_true_iff in H1, H2.
    destruct (isBinSymbol e) eqn:Hbin.
    + cbn [andb] in H1. unfold opensOperand in H1. now rewrite H1.
    + destruct (isSymbolOf [Rel; Close; Pun] e) eqn:Hclose; [|reflexivity].
      unfold closesOperand in H2. rewrite Hclose, andb_true_r in H2.
      now rewrite H2.
Qed.

End FixBinPlaced.

(** X1: after the post-pass no binary operator is left without
    operands: none is first, none follows a binary operator, an
    operator, a relation, an opening delimiter or a punctuation, and
    none precedes a relation, a closing delimiter or a punctuation.
    Running the pass again changes nothing. *)
Theorem fixBinList_places_operators (exps : list Exp) :
  PassSpec.binPlaced (FixBin.fixBinList exps) = true /\
  FixBin.fixBinList (FixBin.fixBinList exps) = FixBin.fixBinList exps.
Proof.
  assert (H : PassSpec.binPlaced (FixBin.fixBinList exps) = true)
    by now apply fold_fixBinStep_placed.
  split; [exact H|].
  exact (fold_fixBinStep_fixed (FixBin.fixBinList exps) [] H).
Qed.

(** ** What [handleDownup] establishes *)

Section DownupFacts.

Import PassSpec.

Lemma naryGroup_grouped (exp next merged : Exp) :
  naryGroup exp next = Some merged -> exists l, merged = EGrouped l.
Proof.
  destruct exp; cbn [naryGroup]; try discriminate;
    destruct (isNary _); try discriminate;
    intros H; injection H as <-; eexists; reflexivity.
Qed.

Lemma naryGroup_none (exp next : Exp) :
  naryGroup exp next = None <-> isNaryScript exp = false.
Proof.
  unfold isNaryScript.
  destruct exp; cbn [naryGroup]; try (split; reflexivity);
    destruct (isNary _); split; intros H; try reflexivity;
    discriminate.
Qed.

Lemma isNaryScript_merged (exp next merged : Exp) :
  naryGroup exp next = Some merged -> isNaryScript merged = false.
Proof.
  intros H. apply naryGroup_grouped in H as [l ->]. reflexivity.
Qed.

(** The loop consumes one or two elements per round; what holds of
    every list holds of it with one more element in front. *)
Lemma handleDownup_ind (dt : DisplayType) (P : list Exp -> Prop) :
  P [] ->
  (forall exp rest,
     naryGroup exp (match rest with n :: _ => n | [] => EGrouped [] end)
       = None ->
     P rest -> P (exp :: rest)) ->
  (forall exp merged,
     naryGroup exp (EGrouped []) = Some merged -> P [exp]) ->
  (forall exp next rest merged,
     naryGroup exp next = Some merged -> P rest -> P (exp :: next :: rest)) ->
  forall exps, P exps.
Proof.
  intros Hnil Hkeep Hlast Hmerge exps.
  assert (H : P exps /\ forall x, P (x :: exps)).
  { induction exps as [|e exps [IH1 IH2]].
    - split; [exact Hnil|]. intros x.
      destruct (naryGroup x (EGrouped [])) eqn:E.
      + now apply (Hlast x e).
      + now apply Hkeep.
    - split; [apply IH2|]. intros x.
      destruct (naryGroup x e) eqn:E.
      + now apply (Hmerge x e exps e0).
      + apply Hkeep; [exact E | apply IH2]. }
  apply H.
Qed.

Lemma handleDownup_no_script (dt : DisplayType) (exps : list Exp) :
  forallb (fun e => negb (isNaryScript e)) (handleDownup dt exps) = true.
Proof.
  induction exps using (handleDownup_ind dt); cbn [handleDownup].
  - reflexivity.
  - rewrite H. cbn [forallb]. rewrite IHexps.
    apply naryGroup_none in H. now rewrite H.
  - rewrite H. cbn [forallb]. now rewrite (isNaryScript_merged _ _ H).
  - rewrite H. cbn [forallb]. now rewrite (isNaryScript_merged _ _ H).
Qed.

Lemma handleDownup_fixed (dt : DisplayType) (exps : list Exp) :
  forallb (fun e => negb (isNaryScript e)) exps = true ->
  handleDownup dt exps = exps.
Proof.
  induction exps as [|e exps IH]; [reflexivity|].
  cbn [forallb handleDownup]. intros H.
  apply andb_true_iff in H as [He Hexps].
  apply negb_true_iff in He.
  rewrite (proj2 (naryGroup_none e _) He). now rewrite (IH Hexps).
Qed.

Lemma handleDownup_length (dt : DisplayType) (exps : list Exp) :
  List.length (handleDownup dt exps) <= List.length exps.
Proof.
  induction exps using (handleDownup_ind dt); cbn [handleDownup];
    try rewrite H; cbn [List.length]; lia.
Qed.

End DownupFacts.

(** X2: after the rewrite pre-pass no limit or script on an n-ary
    operator is left at the top level (each one is merged with the
    element that follows it, or with an empty group); the pass never
    lengthens the sequence, leaves a sequence without such an element
    as it is, and running it again changes nothing. *)
Theorem handleDownup_merges_all (dt : DisplayType) (exps : list Exp) :
  forallb (fun e => negb (PassSpec.isNaryScript e)) (handleDownup dt exps)
    = true /\
  List.length (handleDownup dt exps) <= List.length exps /\
  (forallb (fun e => negb (PassSpec.isNaryScript e)) exps = true <->
   handleDownup dt exps = exps) /\
  handleDownup dt (handleDownup dt exps) = handleDownup dt exps.
Proof.
  pose proof (handleDownup_no_script dt exps) as H.
  split; [exact H|split; [apply handleDownup_length|split]].
  - split; [apply handleDownup_fixed|]. intros E. now rewrite <- E.
  - now apply handleDownup_fixed.
Qed.

(** ** What the serializer lets through *)

Section EscapeMarkup.

Import PassSpec XmlDecode.

Lemma escapeChar_no_markup (c : char) :
  forallb (fun x => negb (isMarkupChar x)) (escapeChar c) = true.
Proof.
  unfold escapeChar.
  destruct (N.eqb c amp); [reflexivity|].
  destruct (N.eqb c lessThan) eqn:E1; [reflexivity|].
  destruct (N.eqb c greaterThan) eqn:E2; [reflexivity|].
  destruct (N.eqb c quot) eqn:E3; [reflexivity|].
  destruct (N.eqb c apos) eqn:E4; [reflexivity|].
  cbn [forallb]. unfold isMarkupChar. now rewrite E1, E2, E3, E4.
Qed.

Lemma escapeXml_no_markup (s : jsstring) :
  forallb (fun x => negb (isMarkupChar x)) (escapeXml s) = true.
Proof.
  rewrite escapeXml_flat_map.
  induction s as [|c s IH]; [reflexivity|].
  cbn [flat_map]. now rewrite forallb_app, escapeChar_no_markup, IH.
Qed.

Lemma escapeXml_length (s : jsstring) :
  List.length s <= List.length (escapeXml s).
Proof.
  rewrite escapeXml_flat_map.
  induction s as [|c s IH]; [reflexivity|].
  cbn [flat_map]. rewrite length_app. cbn [List.length].
  assert (1 <= List.length (escapeChar c)).
  { unfold escapeChar.
    repeat match goal with
    | |- context [if ?b then _ else _] => destruct b
    end; cbn; lia. }
  lia.
Qed.

Lemma escapeXml_plain (s : jsstring) :
  forallb (fun x => negb (N.eqb x amp || isMarkupChar x)) s = true ->
  escapeXml s = s.
Proof.
  rewrite escapeXml_flat_map.
  induction s as [|c s IH]; [reflexivity|].
  cbn [forallb flat_map]. intros H. apply andb_true_iff in H as [Hc Hs].
  rewrite (IH Hs).
  apply negb_true_iff in Hc. unfold isMarkupChar in Hc.
  unfold escapeChar.
  destruct (N.eqb c amp); [discriminate|].
  destruct (N.eqb c lessThan); [discriminate|].
  destruct (N.eqb c greaterThan); [discriminate|].
  destruct (N.eqb c quot); [discriminate|].
  destruct (N.eqb c apos); [discriminate|].
  reflexivity.
Qed.

End EscapeMarkup.

(** X3: the escaped form of a string holds none of the characters that
    open or close a tag or an attribute value, whatever the string; it
    is never shorter than the string, and a string without those
    characters and without an ampersand is serialized as it is. *)
Theorem escapeXml_leaves_no_markup (s : jsstring) :
  forallb (fun x => negb (PassSpec.isMarkupChar x)) (escapeXml s) = true /\
  List.length s <= List.length (escapeXml s) /\
  (forallb (fun x => negb (N.eqb x amp || PassSpec.isMarkupChar x)) s = true ->
   escapeXml s = s).
Proof.
  split; [apply escapeXml_no_markup|].
  split; [apply escapeXml_length | apply escapeXml_plain].
Qed.

(** ** The groups of a delimited region *)

Section GroupFacts.

Import PassSpec.

Lemma groupsLoop_concat {A} (content : list (InEDelimitedOf A)) :
  forall elements currentGroup,
  List.concat (groupsLoop content elements currentGroup)
    = List.concat elements ++ currentGroup ++ rights content.
Proof.
  induction content as [|[s|v] content IH]; intros elements currentGroup;
    cbn [groupsLoop].
  - unfold rights. cbn [flat_map]. rewrite app_nil_r.
    destruct currentGroup; [now rewrite app_nil_r|].
    rewrite concat_app. cbn [List.concat]. now rewrite app_nil_r.
  - unfold rights at 1. cbn [flat_map]. fold (rights content).
    destruct currentGroup as [|x g]; rewrite IH; [reflexivity|].
    rewrite concat_app. cbn [List.concat app].
    rewrite app_nil_r, <- app_assoc. reflexivity.
  - rewrite IH. unfold rights at 2. cbn [flat_map]. fold (rights content).
    now rewrite <- app_assoc.
Qed.

Lemma groupsLoop_nonempty {A} (content : list (InEDelimitedOf A)) :
  forall elements currentGroup,
  Forall (fun g => g <> []) elements ->
  Forall (fun g : list A => g <> []) (groupsLoop content elements currentGroup).
Proof.
  induction content as [|[s|v] content IH]; intros elements currentGroup He;
    cbn [groupsLoop].
  - destruct currentGroup; [assumption|].
    apply Forall_app. split; [assumption|].
    constructor; [discriminate | constructor].
  - destruct currentGroup as [|x g]; apply IH; [assumption|].
    apply Forall_app. split; [assumption|].
    constructor; [discriminate | constructor].
  - now apply IH.
Qed.

Lemma groupsLoop_count {A} (content : list (InEDelimitedOf A)) :
  forall elements currentGroup,
  List.length (groupsLoop content elements currentGroup)
    <= List.length elements + 1 +
       List.length (filter (fun item => match item with
                                        | Left _ => true
                                        | Right _ => false
                                        end) content).
Proof.
  induction content as [|[s|v] content IH]; intros elements currentGroup;
    cbn [groupsLoop filter List.length].
  - destruct currentGroup; [lia|]. rewrite length_app. cbn. lia.
  - destruct currentGroup as [|x g].
    + specialize (IH elements []). lia.
    + specialize (IH (elements ++ [x :: g]) []).
      rewrite length_app in IH. cbn [List.length] in IH. lia.
  - apply IH.
Qed.

End GroupFacts.

(** X4: the groups that the writer emits for a delimited region are a
    partition of its sub-expressions: in order they hold every
    sub-expression exactly once, no group is empty (separators at the
    ends or in a row open no group), and there is at most one group
    more than there are separators. *)
Theorem delimitedGroups_partition {A : Type}
    (content : list (InEDelimitedOf A)) :
  List.concat (delimitedGroups content) = PassSpec.rights content /\
  Forall (fun g => g <> []) (delimitedGroups content) /\
  List.length (delimitedGroups content)
    <= 1 + List.length (filter (fun item => match item with
                                            | Left _ => true
                                            | Right _ => false
                                            end) content).
Proof.
  unfold delimitedGroups. split; [|split].
  - now rewrite groupsLoop_concat.
  - apply groupsLoop_nonempty. constructor.
  - apply (groupsLoop_count content [] []).
Qed.

(* ================================================================== *)
(** * The cursor of the reader *)

Section WpFacts.

Import CursorSpec.

Variable input : jsstring.

Lemma wp_bind {A B} (m : M A) (k : A -> M B) (Post : B -> nat -> Prop)
    (p : nat) :
  wp input m (fun a p' => wp input (k a) Post p') p ->
  wp input (bind m k) Post p.
Proof. unfold wp, bind. now destruct (m p). Qed.

Lemma wp_ret {A} (a : A) (Post : A -> nat -> Prop) (p : nat) :
  Post a p -> wp input (ret a) Post p.
Proof. now unfold wp, ret. Qed.

Lemma wp_conseq {A} (m : M A) (Post Post' : A -> nat -> Prop) (p : nat) :
  wp input m Post p -> (forall a p', Post a p' -> Post' a p') ->
  wp input m Post' p.
Proof. unfold wp. destruct (m p); auto. Qed.

Lemma wp_call {A} (lo : nat) (m : M A) (Q : nat -> A -> nat -> Prop)
    (Post : A -> nat -> Prop) (p : nat) :
  Spec input lo m Q ->
  lo <= p <= List.length input ->
  (forall a p', p <= p' <= List.length input -> Q p a p' -> Post a p') ->
  wp input m Post p.
Proof.
  intros Hm Hp HPost. eapply wp_conseq; [exact (Hm p Hp)|].
  cbv beta. intros a p' [H1 H2]. now apply HPost.
Qed.

Lemma wp_peek (Post : option char -> nat -> Prop) (p : nat) :
  Post (nth_error input p) p -> wp input (peek input) Post p.
Proof. now unfold wp, peek. Qed.

Lemma wp_advance (n : nat) (Post : unit -> nat -> Prop) (p : nat) :
  Post tt (p + n) -> wp input (advance n) Post p.
Proof. now unfold wp, advance. Qed.

Lemma wp_getPos (Post : nat -> nat -> Prop) (p : nat) :
  Post p p -> wp input getPos Post p.
Proof. now unfold wp, getPos. Qed.

Lemma wp_setPos (s : nat) (Post : unit -> nat -> Prop) (p : nat) :
  Post tt s -> wp input (setPos s) Post p.
Proof. now unfold wp, setPos. Qed.

Lemma wp_substringFrom (start : nat) (Post : jsstring -> nat -> Prop)
    (p : nat) :
  Post (substring input start p) p ->
  wp input (substringFrom input start) Post p.
Proof. now unfold wp, substringFrom. Qed.

Lemma scanFrom_le (test : char -> bool) (n pos : nat) :
  pos <= List.length input ->
  scanFrom input test n pos <= List.length input.
Proof.
  revert pos. induction n as [|n IH]; intros pos H; cbn [scanFrom];
    [assumption|].
  destruct (nth_error input pos) as [c|] eqn:E; [|assumption].
  destruct (test c); [|assumption].
  apply IH. apply Nat.le_succ_l. apply nth_error_Some. congruence.
Qed.

Lemma wp_scanWhile (test : char -> bool) (Post : unit -> nat -> Prop)
    (p : nat) :
  p <= List.length input ->
  (forall p', p <= p' <= List.length input -> Post tt p') ->
  wp input (scanWhile input test) Post p.
Proof.
  intros Hp H. unfold wp, scanWhile. apply H. split.
  - apply scanFrom_ge.
  - now apply scanFrom_le.
Qed.

Lemma skipComment_range (pos : nat) :
  pos <= List.length input ->
  exists pos', skipComment input pos = Ret tt pos' /\
               pos <= pos' <= List.length input.
Proof.
  intros Hp. unfold skipComment, bind, scanWhile, peek, advance, ret.
  set (p := scanFrom input _ _ pos).
  assert (Hge : pos <= p) by apply scanFrom_ge.
  assert (Hle : p <= List.length input) by now apply scanFrom_le.
  destruct (nth_error input p) as [c|] eqn:E; cbn [peekIsCode].
  - assert (p < List.length input) by (apply nth_error_Some; congruence).
    destruct (N.eqb c 10); eexists; (split; [reflexivity | lia]).
  - eexists; (split; [reflexivity | lia]).
Qed.

Lemma skipIgnorableLoop_range (n : nat) :
  forall pos, pos <= List.length input ->
  exists pos', skipIgnorableLoop input n pos = Ret tt pos' /\
               pos <= pos' <= List.length input.
Proof.
  induction n as [|n IH]; intros pos Hp; cbn [skipIgnorableLoop].
  - exists pos. split; [reflexivity | lia].
  - unfold bind, skipWhitespace, scanWhile, peek.
    set (p := scanFrom input _ _ pos).
    assert (Hge : pos <= p) by apply scanFrom_ge.
    assert (Hle : p <= List.length input) by now apply scanFrom_le.
    destruct (peekIs _ _); [|exists p; split; [reflexivity | lia]].
    destruct (skipComment_range Hle) as [p2 [-> H2]].
    destruct (IH p2 ltac:(lia)) as [p3 [-> H3]].
    exists p3. split; [reflexivity | lia].
Qed.

Lemma wp_skipIgnorable (Post : unit -> nat -> Prop) (p : nat) :
  p <= List.length input ->
  (forall p', p <= p' <= List.length input -> Post tt p') ->
  wp input (skipIgnorable input) Post p.
Proof.
  intros Hp H. unfold wp, skipIgnorable.
  destruct (skipIgnorableLoop_range (S (List.length input - p)) Hp)
    as [p' [-> Hr]].
  now apply H.
Qed.

Lemma str_eqb_length (a b : jsstring) :
  str_eqb a b = true -> List.length a = List.length b.
Proof. intros H. apply str_eqb_eq in H. now subst. Qed.

Lemma wp_matchStr (s : jsstring) (Post : bool -> nat -> Prop) (p : nat) :
  p <= List.length input ->
  (p + List.length s <= List.length input -> Post true (p + List.length s)) ->
  Post false p ->
  wp input (matchStr input s) Post p.
Proof.
  intros Hp Ht Hf. unfold wp, matchStr.
  destruct (str_eqb _ s) eqn:E; [|exact Hf].
  apply Ht. apply str_eqb_length in E. unfold substr in E.
  rewrite length_firstn, length_skipn in E. lia.
Qed.

Lemma wp_expectClose (close : ascii) (msg : string)
    (Post : unit -> nat -> Prop) (p : nat) :
  p <= List.length input ->
  (p < List.length input -> Post tt (p + 1)) ->
  wp input (expectClose input close msg) Post p.
Proof.
  intros Hp H. unfold wp, expectClose, bind, peek, getPos, throw, advance.
  destruct (nth_error input p) as [c|] eqn:E; cbn [peekIs peekIsCode negb].
  - destruct (N.eqb c (chr close)); cbn [negb position]; [|exact Hp].
    apply H. apply nth_error_Some. congruence.
  - exact Hp.
Qed.

Lemma nth_error_lt (p : nat) (c : char) :
  nth_error input p = Some c -> p < List.length input.
Proof. intros E. apply nth_error_Some. congruence. Qed.

Lemma nth_error_ge (p : nat) :
  nth_error input p = None -> List.length input <= p.
Proof. apply nth_error_None. Qed.

End WpFacts.

(** One step of the symbolic run of a method from a cursor position:
    the primitives move the cursor as they are defined to, a [peek]
    splits on what is under the cursor, a case analysis splits on its
    scrutinee, and [known] runs the methods whose behaviour is already
    established. *)
Ltac wp_case x :=
  let Hm := fresh "Hm" in
  destruct x eqn:Hm; try (cbn in Hm; discriminate Hm).

Ltac wp_step known :=
  cbv beta zeta;
  match goal with
  | |- CursorSpec.wp _ (bind _ _) _ _ => apply wp_bind
  | |- CursorSpec.wp _ (ret _) _ _ => apply wp_ret
  | |- CursorSpec.wp _ (peek _) _ ?p =>
      apply wp_peek;
      let E := fresh "E" in
      destruct (nth_error _ p) eqn:E;
      [ pose proof (nth_error_lt _ _ E) | pose proof (nth_error_ge _ _ E) ]
  | |- CursorSpec.wp _ (advance _) _ _ => apply wp_advance
  | |- CursorSpec.wp _ getPos _ _ => apply wp_getPos
  | |- CursorSpec.wp _ (setPos _) _ _ => apply wp_setPos
  | |- CursorSpec.wp _ (substringFrom _ _) _ _ => apply wp_substringFrom
  | |- CursorSpec.wp _ (scanWhile _ _) _ _ =>
      apply wp_scanWhile; [lia | intros ? ?]
  | |- CursorSpec.wp _ (skipWhitespace _) _ _ =>
      apply wp_scanWhile; [lia | intros ? ?]
  | |- CursorSpec.wp _ (skipIgnorable _) _ _ =>
      apply wp_skipIgnorable; [lia | intros ? ?]
  | |- CursorSpec.wp _ (matchStr _ _) _ _ =>
      apply wp_matchStr; [lia | intros ? | ]
  | |- CursorSpec.wp _ (expectClose _ _ _) _ _ =>
      apply wp_expectClose; [lia | intros ?]
  | |- CursorSpec.wp _ (orElse _ _) _ _ => unfold orElse at 1
  | |- CursorSpec.wp _ (if negb ?x then _ else _) _ _ =>
      wp_case x; cbn [negb]
  | |- CursorSpec.wp _ (if (?x || ?y)%bool then _ else _) _ _ =>
      wp_case x; cbn [orb]
  | |- CursorSpec.wp _ (match ?x with _ => _ end) _ _ => wp_case x
  | |- CursorSpec.wp _ _ _ _ => known
  end.

(** The condition left at the end of a run. *)
Ltac wp_done :=
  cbv beta;
  unfold CursorSpec.consumed, CursorSpec.anyResult,
    CursorSpec.pastBackslash, CursorSpec.movedPastBackslash in *;
  repeat match goal with
  | H : Nat.eqb _ _ = true |- _ => apply Nat.eqb_eq in H
  | H : Nat.eqb _ _ = false |- _ => apply Nat.eqb_neq in H
  end;
  repeat match goal with
  | E : nth_error ?i ?p = _ |- context [nth_error ?i ?p] => rewrite E
  | E : nth_error ?i ?p = _, H : context [peekIs (nth_error ?i ?p) _] |- _ =>
      rewrite E in H
  end;
  repeat match goal with
  | |- _ /\ _ => split
  | |- match ?x with _ => _ end => destruct x
  | |- True => exact I
  | |- _ -> _ => intros ?
  end;
  cbn [List.length] in *; try reflexivity; try congruence; try lia.

Ltac wp_run known := repeat (wp_step known); wp_done.

Ltac wp_arith :=
  cbv beta iota delta [CursorSpec.consumed CursorSpec.anyResult] in *;
  repeat match goal with
  | H : context [List.length (lit ?s)] |- _ =>
      let n := eval vm_compute in (List.length (lit s)) in
      change (List.length (lit s)) with n in H
  end;
  lia.

(** Runs a method that has a [Spec]. *)
Ltac wp_use H :=
  eapply wp_call; [apply H | wp_arith | intros ? ? ? ?].

(** Ends a run that started on a backslash: white space was not
    skipped, so the control sequence was read from the start. *)
Ltac wp_backslash :=
  match goal with
  | H : ?q <= ?p' <= _, G : peekIs (nth_error _ ?q) _ = true |- _ =>
      destruct (Nat.eq_dec q p') as [->|]; [|lia]
  end;
  repeat match goal with
  | E : nth_error ?i ?p = _, H : context [nth_error ?i ?p] |- _ =>
      rewrite E in H
  end;
  try match goal with
  | G : peekIs None _ = true |- _ => discriminate G
  end;
  repeat match goal with
  | H : (?a = true -> _) /\ _, G : ?a = true |- _ =>
      destruct H as [H _]; specialize (H G)
  end;
  try lia; try congruence.

Section CursorLeaves.

Import CursorSpec.

Variable input : jsstring.
Variable cmds : Commands.

Lemma Spec_readControlSequence :
  Spec input 0 (readControlSequence input) (pastBackslash input).
Proof. intros q Hq. unfold readControlSequence. wp_run fail. Qed.

Lemma Spec_textUntilBrace :
  Spec input 0 (textUntilBrace input) anyResult.
Proof. intros q Hq. unfold textUntilBrace. wp_run fail. Qed.

Lemma Spec_parseNumber : Spec input 0 (parseNumber input) consumed.
Proof. intros q Hq. unfold parseNumber. wp_run fail. Qed.

Lemma Spec_parseVariable : Spec input 0 (parseVariable input) consumed.
Proof. intros q Hq. unfold parseVariable. wp_run fail. Qed.

Lemma wp_tryOperators (ops : list jsstring) (k : M (option Exp))
    (q p : nat) :
  Forall (fun op => 1 <= List.length op) ops ->
  q <= p <= List.length input ->
  wp input k (fun a p' => q <= p' <= List.length input /\ consumed q a p') p ->
  wp input (tryOperators input cmds ops k)
    (fun a p' => q <= p' <= List.length input /\ consumed q a p') p.
Proof.
  intros Hops Hp Hk. induction Hops as [|op ops Hop _ IH];
    cbn [tryOperators]; [exact Hk|].
  wp_run ltac:(exact IH).
Qed.

Lemma Spec_parseOperator : Spec input 0 (parseOperator input cmds) consumed.
Proof.
  intros q Hq. unfold parseOperator.
  wp_step fail. wp_step fail.
  apply wp_tryOperators; [repeat constructor | lia |].
  wp_run fail.
Qed.

Lemma Spec_parseEnclosure : Spec input 0 (parseEnclosure input cmds) consumed.
Proof. intros q Hq. unfold parseEnclosure. wp_run fail. Qed.

Lemma Spec_singleDelimiter : Spec input 0 (singleDelimiter input) consumed.
Proof. intros q Hq. unfold singleDelimiter. wp_run fail. Qed.

Lemma Spec_parseDelimiter :
  Spec input 0 (parseDelimiter input cmds) (movedPastBackslash input).
Proof.
  intros q Hq. unfold parseDelimiter.
  wp_run ltac:(first [wp_use Spec_readControlSequence
                     | wp_use Spec_singleDelimiter]);
    wp_backslash.
Qed.

Lemma Spec_controlSequence_consumed :
  Spec input 0 (readControlSequence input) consumed.
Proof.
  intros q Hq. eapply wp_conseq; [exact (Spec_readControlSequence Hq)|].
  cbv beta. intros a p [Hr [Ht Hf]]. split; [exact Hr|].
  destruct a as [cmd|]; [|exact I]. cbn.
  destruct (peekIs (nth_error input q) "\"); [auto|].
  discriminate (Hf eq_refl).
Qed.

Lemma Spec_readBraces {T} (lo : nat) (parser : M T)
    (Q : nat -> T -> nat -> Prop) :
  Spec input (S lo) parser Q ->
  Spec input lo (readBraces input parser) consumed.
Proof.
  intros Hp q Hq. unfold readBraces. wp_run ltac:(wp_use Hp).
Qed.

Lemma Spec_readBrackets {T} (lo : nat) (parser : M T)
    (Q : nat -> T -> nat -> Prop) :
  Spec input (S lo) parser Q ->
  Spec input lo (readBrackets input parser) consumed.
Proof.
  intros Hp q Hq. unfold readBrackets. wp_run ltac:(wp_use Hp).
Qed.

Lemma Spec_weaken {A} (lo lo' : nat) (m : M A)
    (Q : nat -> A -> nat -> Prop) :
  Spec input lo m Q -> lo <= lo' -> Spec input lo' m Q.
Proof. intros H Hle q Hq. apply H. lia. Qed.

Lemma Spec_any {A} (lo : nat) (m : M A) (Q : nat -> A -> nat -> Prop) :
  Spec input lo m Q -> Spec input lo m anyResult.
Proof.
  intros H q Hq. eapply wp_conseq; [exact (H q Hq)|].
  cbv beta. intros a p [Hr _]. now split.
Qed.

Lemma Spec_ret {A} (lo : nat) (a : A) : Spec input lo (ret a) anyResult.
Proof. intros q Hq. wp_run fail. Qed.

End CursorLeaves.

(** Runs a loop by its induction hypothesis: the cursor has moved, so
    one round less is enough. *)
Ltac wp_loop IH :=
  eapply wp_conseq; [apply IH; wp_arith | cbv beta; intros; wp_arith].

Section CursorBody.

Import CursorSpec.

Variable input : jsstring.
Variable cmds : Commands.
Variables pe pe1 : M (option Exp).
Variables f lo : nat.
Hypothesis Hpe : Spec input (S lo) pe consumed.
Hypothesis Hpe1 : Spec input (S lo) pe1 consumed.
Hypothesis Hf : List.length input - lo <= f.

Lemma wp_collectUntilBrace (parser : M (option Exp)) :
  Spec input (S lo) parser consumed ->
  forall n exps q,
  S lo <= q <= List.length input -> List.length input - q < n ->
  wp input (collectUntilBrace input parser n exps)
    (fun _ p => q <= p <= List.length input) q.
Proof.
  intros Hp. induction n as [|n IH]; intros exps q Hq Hn; [lia|].
  cbn [collectUntilBrace].
  wp_run ltac:(first [wp_use Hp | wp_loop IH]).
Qed.

Lemma Spec_collectUntilBrace (parser : M (option Exp)) :
  Spec input (S lo) parser consumed ->
  Spec input (S lo) (collectUntilBrace input parser f []) anyResult.
Proof.
  intros Hp q Hq. eapply wp_conseq.
  - apply (wp_collectUntilBrace Hp); lia.
  - cbv beta. intros a p H. now split.
Qed.

Lemma Spec_parseInBraces : Spec input lo (parseInBraces input pe f) consumed.
Proof.
  intros q Hq. unfold parseInBraces.
  wp_run ltac:(wp_use (Spec_readBraces (Spec_collectUntilBrace Hpe))).
Qed.

Lemma wp_groupedLoop :
  forall n exps q,
  S lo <= q <= List.length input -> List.length input - q < n ->
  wp input (groupedLoop input pe n exps)
    (fun _ p => q <= p <= List.length input) q.
Proof.
  induction n as [|n IH]; intros exps q Hq Hn; [lia|].
  cbn [groupedLoop].
  wp_run ltac:(first [wp_use Hpe | wp_loop IH]).
Qed.

Lemma Spec_parseGroupedExpr :
  Spec input (S lo) (parseGroupedExpr input pe f) anyResult.
Proof.
  intros q Hq. unfold parseGroupedExpr.
  wp_run ltac:(eapply wp_conseq;
    [apply wp_groupedLoop; lia | cbv beta; intros ? ? ?]).
Qed.

Lemma Spec_braceText :
  Spec input lo (readBraces input (textUntilBrace input)) consumed.
Proof.
  apply Spec_readBraces with (Q := anyResult).
  apply Spec_weaken with (lo := 0); [apply Spec_textUntilBrace | lia].
Qed.

Lemma Spec_emptyBraces :
  Spec input lo (readBraces input (ret tt)) consumed.
Proof. apply Spec_readBraces with (Q := anyResult). apply Spec_ret. Qed.

Lemma Spec_emptyBrackets :
  Spec input lo (readBrackets input (ret tt)) consumed.
Proof. apply Spec_readBrackets with (Q := anyResult). apply Spec_ret. Qed.

Ltac wp_body Hpe Hpe1 :=
  first
  [ wp_use Hpe
  | wp_use Hpe1
  | wp_use (Spec_readBraces Spec_parseGroupedExpr)
  | wp_use (Spec_readBrackets Spec_parseGroupedExpr)
  | wp_use (Spec_readBraces Hpe)
  | wp_use (Spec_readBraces Hpe1)
  | wp_use (Spec_readBraces (Spec_collectUntilBrace Hpe))
  | wp_use (Spec_readBraces (Spec_collectUntilBrace Hpe1))
  | wp_use Spec_braceText
  | wp_use Spec_emptyBraces
  | wp_use Spec_emptyBrackets
  | wp_use Spec_readControlSequence
  | wp_use Spec_parseDelimiter ].

Lemma Spec_parseFrac (t : FractionType) :
  Spec input (S lo) (parseFrac input pe f t) anyResult.
Proof. intros q Hq. unfold parseFrac. wp_run ltac:(wp_body Hpe Hpe1). Qed.

Lemma Spec_parseSqrt :
  Spec input (S lo) (parseSqrt input pe pe1 f) anyResult.
Proof. intros q Hq. unfold parseSqrt. wp_run ltac:(wp_body Hpe Hpe1). Qed.

Lemma Spec_parseOverset :
  Spec input (S lo) (parseOverset input pe1) anyResult.
Proof. intros q Hq. unfold parseOverset. wp_run ltac:(wp_body Hpe Hpe1). Qed.

Lemma Spec_parseUnderset :
  Spec input (S lo) (parseUnderset input pe1) anyResult.
Proof. intros q Hq. unfold parseUnderset. wp_run ltac:(wp_body Hpe Hpe1). Qed.

Lemma wp_delimitedLoop :
  forall n content q,
  S lo <= q <= List.length input -> List.length input - q < n ->
  wp input (delimitedLoop input cmds pe n content)
    (fun _ p => q <= p <= List.length input) q.
Proof.
  induction n as [|n IH]; intros content q Hq Hn; [lia|].
  cbn [delimitedLoop].
  wp_run ltac:(first [wp_body Hpe Hpe1 | wp_loop IH]).
  (* after [\middle] the delimiter is read from the backslash on *)
  all: match goal with
       | H1 : (peekIs ?c ?b = true -> _) /\ (_ = false -> ?a = None),
         Hm : readIs ?a _ = true,
         H3 : peekIs ?c ?b = true -> ?x < ?y |- _ =>
           assert (x < y)
             by (destruct (peekIs c b);
                 [ auto
                 | destruct H1 as [_ H1]; rewrite (H1 eq_refl) in Hm;
                   discriminate Hm ])
       end; wp_loop IH.
Qed.

Lemma Spec_parseDelimited :
  Spec input (S lo) (parseDelimited input cmds pe f) anyResult.
Proof.
  intros q Hq. unfold parseDelimited.
  wp_run ltac:(first
    [ wp_body Hpe Hpe1
    | eapply wp_conseq;
      [apply wp_delimitedLoop; lia | cbv beta; intros ? ? ?] ]).
Qed.

Lemma Spec_parseTextOp (op : jsstring -> Exp) :
  Spec input (S lo) (parseTextOp input op) anyResult.
Proof. intros q Hq. unfold parseTextOp. wp_run ltac:(wp_body Hpe Hpe1). Qed.

Lemma Spec_parseStyleOp (op : list Exp -> Exp) :
  Spec input (S lo) (parseStyleOp input pe pe1 f op) anyResult.
Proof. intros q Hq. unfold parseStyleOp. wp_run ltac:(wp_body Hpe Hpe1). Qed.

Lemma Spec_operatorText :
  Spec input (S lo)
    (bind (collectUntilBrace input pe1 f [])
       (fun exps => ret (List.concat (map expToText exps)))) anyResult.
Proof.
  intros q Hq.
  wp_run ltac:(wp_use (Spec_collectUntilBrace Hpe1)).
Qed.

Lemma Spec_parseOperatorName :
  Spec input (S lo) (parseOperatorName input pe1 f) anyResult.
Proof.
  intros q Hq. unfold parseOperatorName.
  wp_run ltac:(wp_use (Spec_readBraces Spec_operatorText)).
Qed.

Lemma Spec_bracedOrBare :
  Spec input (S lo) (bracedOrBare input pe1) anyResult.
Proof. intros q Hq. unfold bracedOrBare. wp_run ltac:(wp_body Hpe Hpe1). Qed.

Lemma Spec_parseBoxed : Spec input (S lo) (parseBoxed input pe1) anyResult.
Proof.
  intros q Hq. unfold parseBoxed. wp_run ltac:(wp_use Spec_bracedOrBare).
Qed.

Lemma Spec_parsePhantom : Spec input (S lo) (parsePhantom input pe1) anyResult.
Proof.
  intros q Hq. unfold parsePhantom. wp_run ltac:(wp_use Spec_bracedOrBare).
Qed.

Lemma Spec_parseCancel (t : StrokeType) :
  Spec input (S lo) (parseCancel input pe1 t) anyResult.
Proof.
  intros q Hq. unfold parseCancel. wp_run ltac:(wp_use Spec_bracedOrBare).
Qed.

Lemma wp_arrayLineLoop :
  forall n cells cell q,
  S lo <= q <= List.length input -> List.length input - q < n ->
  wp input (arrayLineLoop input pe n cells cell)
    (fun _ p => q <= p <= List.length input) q.
Proof.
  induction n as [|n IH]; intros cells cell q Hq Hn; [lia|].
  cbn [arrayLineLoop].
  wp_run ltac:(first [wp_body Hpe Hpe1 | wp_loop IH]).
Qed.

Lemma Spec_parseArrayLine :
  Spec input (S lo) (parseArrayLine input pe f) anyResult.
Proof.
  intros q Hq. unfold parseArrayLine. eapply wp_conseq.
  - apply wp_arrayLineLoop; lia.
  - cbv beta. intros a p H. now split.
Qed.

Lemma wp_linesLoop :
  forall n lines q,
  S lo <= q <= List.length input -> List.length input - q < n ->
  wp input (linesLoop input pe f n lines)
    (fun _ p => q <= p <= List.length input) q.
Proof.
  induction n as [|n IH]; intros lines q Hq Hn; [lia|].
  cbn [linesLoop].
  wp_run ltac:(first
    [ wp_body Hpe Hpe1 | wp_use Spec_parseArrayLine | wp_loop IH ]).
Qed.

Lemma Spec_linesLoop :
  Spec input (S lo) (linesLoop input pe f f []) anyResult.
Proof.
  intros q Hq. eapply wp_conseq.
  - apply wp_linesLoop; lia.
  - cbv beta. intros a p H. now split.
Qed.

Lemma Spec_parseMatrix (envName : jsstring) :
  Spec input (S lo) (parseMatrix input pe f envName) anyResult.
Proof.
  intros q Hq. unfold parseMatrix. wp_run ltac:(wp_use Spec_linesLoop).
Qed.

Lemma Spec_parseAlign : Spec input (S lo) (parseAlign input pe f) anyResult.
Proof.
  intros q Hq. unfold parseAlign. wp_run ltac:(wp_use Spec_linesLoop).
Qed.

Lemma Spec_parseEnvironment :
  Spec input (S lo) (parseEnvironment input pe f) anyResult.
Proof.
  intros q Hq. unfold parseEnvironment.
  wp_run ltac:(first
    [ wp_body Hpe Hpe1 | wp_use Spec_parseMatrix | wp_use Spec_parseAlign ]).
Qed.

Lemma Spec_parseHSpace : Spec input (S lo) (parseHSpace input) anyResult.
Proof. intros q Hq. unfold parseHSpace. wp_run ltac:(wp_body Hpe Hpe1). Qed.

Lemma Spec_parseSymbol (sym : Exp) :
  Spec input (S lo) (parseSymbol pe1 sym) anyResult.
Proof. intros q Hq. unfold parseSymbol. wp_run ltac:(wp_body Hpe Hpe1). Qed.

Lemma Spec_parseCommand :
  Spec input lo (parseCommand input cmds pe pe1 f) consumed.
Proof.
  intros q Hq. unfold parseCommand.
  wp_run ltac:(first
    [ wp_use Spec_controlSequence_consumed
    | wp_use Spec_parseSymbol | wp_use Spec_parseFrac | wp_use Spec_parseSqrt
    | wp_use Spec_parseOverset | wp_use Spec_parseUnderset
    | wp_use Spec_parseDelimited | wp_use Spec_parseTextOp
    | wp_use Spec_parseStyleOp | wp_use Spec_parseOperatorName
    | wp_use Spec_parseBoxed | wp_use Spec_parsePhantom
    | wp_use Spec_parseCancel | wp_use Spec_parseEnvironment
    | wp_use Spec_parseHSpace
    | unfold parseStackrel; wp_use Spec_parseOverset ]).
Qed.

Lemma Spec_parseExpr1Body :
  Spec input lo (parseExpr1Body input cmds pe pe1 f) consumed.
Proof.
  intros q Hq. unfold parseExpr1Body.
  wp_run ltac:(first
    [ wp_use Spec_parseInBraces | wp_use Spec_parseNumber
    | wp_use Spec_parseVariable | wp_use Spec_parseCommand
    | wp_use Spec_parseOperator | wp_use Spec_parseEnclosure ]).
Qed.

End CursorBody.

Section CursorExpr.

Import CursorSpec.

Variable input : jsstring.
Variable cmds : Commands.

Section Scripts.

Variable pe1 : M (option Exp).
Variable lo : nat.
Hypothesis Hpe1 : Spec input lo pe1 consumed.

Lemma Spec_secondScript (marker : ascii) (both : Exp -> Exp) (single : Exp) :
  Spec input lo (secondScript input pe1 marker both single) anyResult.
Proof. intros q Hq. unfold secondScript. wp_run ltac:(wp_use Hpe1). Qed.

Lemma Spec_parseSubSup (base : Exp) :
  Spec input lo (parseSubSup input pe1 base) anyResult.
Proof.
  intros q Hq. unfold parseSubSup.
  wp_run ltac:(first [wp_use Hpe1 | wp_use Spec_secondScript]).
Qed.

Lemma Spec_parseExprBody : Spec input lo (parseExprBody input pe1) consumed.
Proof.
  intros q Hq. unfold parseExprBody.
  wp_run ltac:(first [wp_use Hpe1 | wp_use Spec_parseSubSup]).
Qed.

End Scripts.

Lemma Spec_parseExpr_both (f : nat) :
  forall lo,
  (2 * (List.length input - lo) + 2 <= f ->
   Spec input lo (parseExpr input cmds f) consumed) /\
  (2 * (List.length input - lo) + 1 <= f ->
   Spec input lo (parseExpr1 input cmds f) consumed).
Proof.
  induction f as [|f IH]; intros lo; split; intros Hf; try lia;
    intros q Hq.
  - refine (@Spec_parseExprBody (parseExpr1 input cmds f) lo _ q Hq).
    apply IH. lia.
  - (* the nested calls start after the first character *)
    refine (@Spec_parseExpr1Body input cmds (parseExpr input cmds f)
              (parseExpr1 input cmds f) f lo _ _ _ q Hq).
    + destruct (le_lt_dec (List.length input) lo);
        [intros q' Hq'; lia | apply IH; lia].
    + destruct (le_lt_dec (List.length input) lo);
        [intros q' Hq'; lia | apply IH; lia].
    + lia.
Qed.

Lemma Spec_parseExpr (f : nat) :
  enoughFuel input <= f -> Spec input 0 (parseExpr input cmds f) consumed.
Proof. intros Hf. apply Spec_parseExpr_both. unfold enoughFuel in Hf. lia. Qed.

Lemma wp_parseLoop (parser : M (option Exp)) :
  Spec input 0 parser consumed ->
  forall n exps q,
  q <= List.length input -> List.length input - q < n ->
  wp input (parseLoop input parser n exps)
    (fun _ p => q <= p <= List.length input) q.
Proof.
  intros Hp. induction n as [|n IH]; intros exps q Hq Hn; [lia|].
  cbn [parseLoop].
  wp_run ltac:(first [wp_use Hp | wp_loop IH]).
Qed.

Lemma wp_parse (f : nat) :
  enoughFuel input <= f ->
  wp input (parse input cmds f) (fun _ p => p <= List.length input) 0.
Proof.
  intros Hf. unfold parse.
  wp_run ltac:(eapply wp_conseq;
    [ apply (wp_parseLoop (Spec_parseExpr Hf)); unfold enoughFuel in Hf; lia
    | cbv beta; intros ? ? ? ]).
Qed.

End CursorExpr.

(** X5: the reader terminates.  With [2 * input.length + 2] units of
    fuel or more, no loop and no nested call of [Parser.parse] runs out:
    the outcome is a list of expressions or a [ParseError], it is the
    same for every such amount of fuel, and the position of a
    [ParseError] lies within the input. *)
Theorem readTeX_terminates (cmds : Commands) (input : jsstring) (fuel : nat) :
  CursorSpec.enoughFuel input <= fuel ->
  readTeX cmds fuel input <> Exhausted /\
  readTeX cmds fuel input = readTeX cmds (CursorSpec.enoughFuel input) input /\
  (forall e, readTeX cmds fuel input = Raised e ->
             position e <= List.length input).
Proof.
  intros Hf.
  assert (Hwp : forall f, CursorSpec.enoughFuel input <= f ->
            readTeX cmds f input <> Exhausted /\
            (forall e, readTeX cmds f input = Raised e ->
                       position e <= List.length input)).
  { intros f Hle. pose proof (@wp_parse input cmds f Hle) as H.
    unfold CursorSpec.wp in H. unfold readTeX.
    destruct (parse input cmds f 0) as [|e|exps p];
      [contradiction | |]; (split; [discriminate|]); intros e' E;
      [injection E as <-; exact H | discriminate]. }
  destruct (Hwp fuel Hf) as [Hne Hpos].
  split; [exact Hne|]. split; [|exact Hpos].
  refine (@readTeX_stable cmds cmds (CursorSpec.enoughFuel input) fuel input
            _ (sameCommands_refl cmds) Hf eq_refl _).
  apply Hwp. apply Nat.le_refl.
Qed.

Lemma readTeX_terminates_witness :
  CursorSpec.enoughFuel (lit "{x") <= 9 /\
  readTeX Sample.commands 9 (lit "{x") <> Exhausted /\
  readTeX Sample.commands 9 (lit "{x") =
    readTeX Sample.commands (CursorSpec.enoughFuel (lit "{x")) (lit "{x") /\
  (forall e, readTeX Sample.commands 9 (lit "{x") = Raised e ->
             position e <= List.length (lit "{x")).
Proof.
  split; [vm_compute; lia|].
  apply (@readTeX_terminates Sample.commands (lit "{x") 9).
  vm_compute. lia.
Defined.

(** X6: [parseExpr] and [parseExpr1] move the cursor forward only.
    Started within the input they leave the cursor between its start
    position and the end of the input, and when they return an
    expression at least one character has been consumed. *)
Theorem parseExpr_moves_forward (cmds : Commands) (input : jsstring)
    (fuel pos : nat) :
  pos <= List.length input ->
  (forall a pos', parseExpr input cmds fuel pos = Ret a pos' ->
     pos <= pos' <= List.length input /\ (a <> None -> pos < pos')) /\
  (forall a pos', parseExpr1 input cmds fuel pos = Ret a pos' ->
     pos <= pos' <= List.length input /\ (a <> None -> pos < pos')).
Proof.
  intros Hpos.
  set (F := Nat.max fuel (CursorSpec.enoughFuel input)).
  assert (HF : 2 * (List.length input - 0) + 2 <= F)
    by (unfold F, CursorSpec.enoughFuel; lia).
  destruct (Spec_parseExpr_both input cmds F 0) as [He He1].
  destruct (@Mono_parseExpr input cmds cmds (sameCommands_refl cmds)
              fuel F ltac:(unfold F; lia)) as [Me Me1].
  split; intros a pos' E.
  - specialize (He HF pos ltac:(lia)). unfold CursorSpec.wp in He.
    destruct (Me pos) as [H|H]; [congruence|].
    rewrite <- H, E in He. destruct He as [Hr Hc]. split; [exact Hr|].
    destruct a; [intros _; exact Hc | congruence].
  - specialize (He1 ltac:(lia) pos ltac:(lia)). unfold CursorSpec.wp in He1.
    destruct (Me1 pos) as [H|H]; [congruence|].
    rewrite <- H, E in He1. destruct He1 as [Hr Hc]. split; [exact Hr|].
    destruct a; [intros _; exact Hc | congruence].
Qed.

Lemma parseExpr_moves_forward_witness :
  0 <= List.length (lit "x^2 ") /\
  (forall a pos',
     parseExpr (lit "x^2 ") Sample.commands 5 0 = Ret a pos' ->
     0 <= pos' <= List.length (lit "x^2 ") /\ (a <> None -> 0 < pos')) /\
  (forall a pos',
     parseExpr1 (lit "x^2 ") Sample.commands 5 0 = Ret a pos' ->
     0 <= pos' <= List.length (lit "x^2 ") /\ (a <> None -> 0 < pos')).
Proof.
  split; [apply Nat.le_0_l|].
  apply (@parseExpr_moves_forward Sample.commands (lit "x^2 ") 5 0).
  apply Nat.le_0_l.
Defined.

(** * Characters the reader passes over *)

Section Ignorable.

Variable input : jsstring.

Lemma scanFrom_stay (test : char -> bool) (n pos : nat) :
  match nth_error input pos with
  | Some c => test c = false
  | None => True
  end ->
  scanFrom input test n pos = pos.
Proof.
  intros H. destruct n as [|n]; cbn [scanFrom]; [reflexivity|].
  destruct (nth_error input pos) as [c|]; [|reflexivity].
  now rewrite H.
Qed.

Lemma skipIgnorable_stay (pos : nat) :
  match nth_error input pos with
  | Some c => isSpace c = false /\ N.eqb c (chr "%") = false
  | None => True
  end ->
  skipIgnorable input pos = Ret tt pos.
Proof.
  intros H. unfold skipIgnorable. cbn [skipIgnorableLoop].
  unfold bind, skipWhitespace, scanWhile, peek.
  rewrite scanFrom_stay
    by (destruct (nth_error input pos); [apply H | exact I]).
  destruct (nth_error input pos) as [c|]; cbn [peekIs peekIsCode];
    [|reflexivity].
  destruct H as [_ H]. now rewrite H.
Qed.

End Ignorable.

(** X7: [skipIgnorable] started within the input always returns, with
    the cursor not moved back and not past the end, on a character that
    is neither white space nor the start of a comment (or at the end of
    the input); running it again from there moves nothing. *)
Theorem skipIgnorable_lands (input : jsstring) (pos : nat) :
  pos <= List.length input ->
  exists pos',
    skipIgnorable input pos = Ret tt pos' /\
    pos <= pos' <= List.length input /\
    match nth_error input pos' with
    | Some c => isSpace c = false /\ N.eqb c (chr "%") = false
    | None => True
    end /\
    skipIgnorable input pos' = Ret tt pos'.
Proof.
  intros Hpos. unfold skipIgnorable at 1.
  destruct (skipIgnorableLoop_range input (S (List.length input - pos)) Hpos)
    as [pos' [E Hr]].
  exists pos'. split; [exact E|]. split; [exact Hr|].
  assert (Hs := skipIgnorable_stops input pos E).
  split; [exact Hs|]. now apply skipIgnorable_stay.
Qed.

Lemma skipIgnorable_lands_witness :
  2 <= List.length (lit "x  % note") /\
  exists pos',
    skipIgnorable (lit "x  % note") 2 = Ret tt pos' /\
    2 <= pos' <= List.length (lit "x  % note") /\
    match nth_error (lit "x  % note") pos' with
    | Some c => isSpace c = false /\ N.eqb c (chr "%") = false
    | None => True
    end /\
    skipIgnorable (lit "x  % note") pos' = Ret tt pos'.
Proof.
  split; [vm_compute; lia|].
  apply (@skipIgnorable_lands (lit "x  % note") 2). vm_compute. lia.
Defined.

(** * Inputs made of blanks, of digits, or of letters *)

Section Runs.

Lemma bind_run {A B} (m : M A) (k : A -> M B) (pos pos' : nat) (a : A)
    (r : Res B) :
  m pos = Ret a pos' -> k a pos' = r -> bind m k pos = r.
Proof. intros Hm Hk. unfold bind. now rewrite Hm. Qed.

Lemma nth_error_middle (pre post : jsstring) (c : char) :
  nth_error (pre ++ c :: post) (List.length pre) = Some c.
Proof. rewrite nth_error_app2, Nat.sub_diag by apply Nat.le_refl. reflexivity. Qed.

Lemma nth_error_end (s : jsstring) : nth_error s (List.length s) = None.
Proof. apply nth_error_None. apply Nat.le_refl. Qed.

(** A scan passes over a run of characters that satisfy its test and
    stops at the first one that does not. *)
Lemma scanFrom_run (test : char -> bool) (mid : jsstring) :
  forall (pre post : jsstring) (n : nat),
  forallb test mid = true ->
  match post with
  | c :: _ => test c = false
  | [] => True
  end ->
  List.length mid <= n ->
  scanFrom (pre ++ mid ++ post) test n (List.length pre) =
    List.length pre + List.length mid.
Proof.
  induction mid as [|c mid IH]; intros pre post n Hmid Hpost Hn.
  - cbn [app List.length]. rewrite Nat.add_0_r. apply scanFrom_stay.
    destruct post as [|x post].
    + now rewrite app_nil_r, nth_error_end.
    + now rewrite nth_error_middle.
  - cbn [forallb] in Hmid. apply andb_true_iff in Hmid as [Hc Hmid].
    cbn [List.length] in Hn. destruct n as [|n]; [lia|].
    cbn [scanFrom app]. rewrite nth_error_middle, Hc.
    replace (pre ++ c :: mid ++ post) with ((pre ++ [c]) ++ mid ++ post)
      by now rewrite <- app_assoc.
    replace (S (List.length pre)) with (List.length (pre ++ [c]))
      by (rewrite length_app; cbn; lia).
    rewrite IH by (assumption || lia).
    rewrite length_app. cbn [List.length]. lia.
Qed.

(** Trailing blanks are passed over by [skipIgnorable]. *)
Lemma skipIgnorable_blank (pre ws : jsstring) :
  CursorSpec.blank ws = true ->
  skipIgnorable (pre ++ ws) (List.length pre) =
    Ret tt (List.length (pre ++ ws)).
Proof.
  intros Hws. unfold skipIgnorable. cbn [skipIgnorableLoop].
  unfold bind, skipWhitespace, scanWhile, peek.
  assert (E := @scanFrom_run isSpace ws pre []
                 (List.length (pre ++ ws) - List.length pre) Hws I
                 ltac:(rewrite length_app; lia)).
  rewrite app_nil_r in E. rewrite E.
  rewrite <- length_app, nth_error_end. reflexivity.
Qed.

End Runs.

(** X8: an input of white space only (the empty input included) parses
    to the empty list of expressions. *)
Theorem blank_input_parses_to_nothing (cmds : Commands) (input : jsstring)
    (fuel : nat) :
  CursorSpec.blank input = true -> 1 <= fuel ->
  readTeX cmds fuel input = Parsed [].
Proof.
  intros Hblank Hfuel. destruct fuel as [|fuel]; [lia|].
  unfold readTeX, parse.
  rewrite (@bind_run _ _ _ _ 0 (List.length input) tt (Ret [] (List.length input))
             (skipIgnorable_blank [] input Hblank)).
  - reflexivity.
  - cbn [parseLoop]. unfold bind, peek.
    rewrite nth_error_end. reflexivity.
Qed.

Lemma blank_input_parses_to_nothing_witness :
  CursorSpec.blank (lit "   ") = true /\ 1 <= 1 /\
  readTeX Sample.commands 1 (lit "   ") = Parsed [].
Proof.
  split; [reflexivity|]. split; [apply Nat.le_refl|].
  apply (@blank_input_parses_to_nothing Sample.commands (lit "   ") 1);
    [reflexivity | apply Nat.le_refl].
Defined.

Section CharFacts.

Lemma leb_and (a c b : N) :
  ((a <=? c)%N && (c <=? b)%N = true) <-> (a <= c <= b)%N.
Proof. rewrite andb_true_iff, !N.leb_le. tauto. Qed.

Lemma isDigit_range (c : char) : isDigit c = true <-> (48 <= c <= 57)%N.
Proof. apply leb_and. Qed.

Lemma isLetter_range (c : char) :
  isLetter c = true <-> ((65 <= c <= 90)%N \/ (97 <= c <= 122)%N).
Proof. unfold isLetter. rewrite orb_true_iff, !leb_and. tauto. Qed.

(** No character between ['!'] and ['~'] is white space. *)
Lemma isSpace_printable (c : char) : (33 <= c <= 126)%N -> isSpace c = false.
Proof.
  intros H. unfold isSpace.
  repeat (apply orb_false_iff; split);
    first [ apply N.eqb_neq; lia
          | apply andb_false_iff; right; apply N.leb_gt; lia
          | apply andb_false_iff; left; apply N.leb_gt; lia ].
Qed.

Lemma eqb_out_of_range (c x lo hi : N) :
  (lo <= c <= hi)%N -> (x < lo \/ hi < x)%N -> N.eqb c x = false.
Proof. intros H Hx. apply N.eqb_neq. lia. Qed.

End CharFacts.

Section PlainRuns.

Variable input : jsstring.
Variable cmds : Commands.

(** The cursor is on a character that [skipIgnorable] leaves in place. *)
Lemma readBraces_absent {T} (parser : M T) (pos : nat) (c : char) :
  nth_error input pos = Some c ->
  isSpace c = false -> N.eqb c (chr "%") = false ->
  N.eqb c (chr "{") = false ->
  readBraces input parser pos = Ret None pos.
Proof.
  intros E Hs Hp Hb. unfold readBraces.
  eapply bind_run; [apply skipIgnorable_stay; now rewrite E|].
  unfold bind, peek. rewrite E. cbn [peekIs peekIsCode]. now rewrite Hb.
Qed.

Lemma parseInBraces_absent (pe : M (option Exp)) (f pos : nat) (c : char) :
  nth_error input pos = Some c ->
  isSpace c = false -> N.eqb c (chr "%") = false ->
  N.eqb c (chr "{") = false ->
  parseInBraces input pe f pos = Ret None pos.
Proof.
  intros E Hs Hp Hb. unfold parseInBraces.
  eapply bind_run; [eapply readBraces_absent; eassumption|]. reflexivity.
Qed.

Lemma parseNumber_absent (pos : nat) (c : char) :
  nth_error input pos = Some c ->
  isSpace c = false -> N.eqb c (chr "%") = false ->
  isDigit c = false -> N.eqb c (chr ".") = false ->
  parseNumber input pos = Ret None pos.
Proof.
  intros E Hs Hp Hd Hdot. unfold parseNumber.
  eapply bind_run; [apply skipIgnorable_stay; now rewrite E|].
  unfold bind, getPos, scanWhile, peek.
  rewrite scanFrom_stay by now rewrite E.
  rewrite E. cbn [peekIs peekIsCode]. rewrite Hdot, Nat.eqb_refl.
  reflexivity.
Qed.

Lemma parseVariable_letter (pos : nat) (c : char) :
  nth_error input pos = Some c -> isLetter c = true ->
  match nth_error input (S pos) with
  | Some x => isSpace x = false /\ N.eqb x (chr "%") = false
  | None => True
  end ->
  parseVariable input pos = Ret (Some (EIdentifier [c])) (S pos).
Proof.
  intros E Hl Hnext. unfold parseVariable.
  assert (Hr : (33 <= c <= 126)%N)
    by (apply isLetter_range in Hl; lia).
  eapply bind_run.
  { apply skipIgnorable_stay. rewrite E. split.
    - now apply isSpace_printable.
    - apply eqb_out_of_range with (lo := 65%N) (hi := 122%N);
        [apply isLetter_range in Hl; lia | cbn; lia]. }
  unfold bind, peek, advance. rewrite E, Hl, Nat.add_1_r.
  now rewrite (skipIgnorable_stay _ _ Hnext).
Qed.

Lemma parseSubSup_absent (pe1 : M (option Exp)) (base : Exp) (pos : nat) :
  match nth_error input pos with
  | Some x => (isSpace x = false /\ N.eqb x (chr "%") = false) /\
              N.eqb x (chr "_") = false /\ N.eqb x (chr "^") = false
  | None => True
  end ->
  parseSubSup input pe1 base pos = Ret None pos.
Proof.
  intros H. unfold parseSubSup.
  eapply bind_run.
  { apply skipIgnorable_stay.
    destruct (nth_error input pos); [apply H | exact I]. }
  unfold bind, peek.
  destruct (nth_error input pos) as [x|]; cbn [peekIs peekIsCode];
    [|reflexivity].
  destruct H as [_ [-> ->]]. reflexivity.
Qed.

Lemma letter_significant (c : char) :
  isLetter c = true ->
  (isSpace c = false /\ N.eqb c (chr "%") = false) /\
  N.eqb c (chr "{") = false /\ isDigit c = false /\
  N.eqb c (chr ".") = false.
Proof.
  intros Hl. apply isLetter_range in Hl.
  repeat split;
    first [ apply isSpace_printable; lia
          | apply N.eqb_neq; cbn; lia
          | apply not_true_is_false; intros Hd; apply isDigit_range in Hd;
            lia ].
Qed.

(** On a letter [parseExpr1] yields the identifier of that letter. *)
Lemma parseExpr1_on_letter (f pos : nat) (c : char) :
  nth_error input pos = Some c -> isLetter c = true ->
  match nth_error input (S pos) with
  | Some x => isSpace x = false /\ N.eqb x (chr "%") = false
  | None => True
  end ->
  parseExpr1 input cmds (S f) pos = Ret (Some (EIdentifier [c])) (S pos).
Proof.
  intros E Hl Hnext.
  destruct (letter_significant c Hl) as [[Hs Hp] [Hb [Hd Hdot]]].
  change (parseExpr1 input cmds (S f) pos)
    with (parseExpr1Body input cmds (parseExpr input cmds f)
            (parseExpr1 input cmds f) f pos).
  unfold parseExpr1Body.
  eapply bind_run; [apply skipIgnorable_stay; now rewrite E|].
  unfold orElse at 1.
  eapply bind_run; [eapply parseInBraces_absent; eassumption|].
  unfold orElse at 1.
  eapply bind_run; [eapply parseNumber_absent; eassumption|].
  unfold orElse at 1.
  eapply bind_run; [apply parseVariable_letter; eassumption|].
  reflexivity.
Qed.

End PlainRuns.

Section LetterRuns.

Variable input : jsstring.
Variable cmds : Commands.

(** From the position [k] on, the input holds letters only. *)
Variable k : nat.
Hypothesis Hletters : forallb isLetter (skipn k input) = true.

Lemma letter_at (pos : nat) (c : char) :
  k <= pos -> nth_error input pos = Some c -> isLetter c = true.
Proof.
  intros Hk E.
  assert (E' : nth_error (skipn k input) (pos - k) = Some c).
  { rewrite nth_error_skipn. now replace (k + (pos - k)) with pos by lia. }
  apply nth_error_In in E'.
  now apply (proj1 (forallb_forall _ _) Hletters).
Qed.

Lemma letter_plain (c : char) :
  isLetter c = true ->
  (isSpace c = false /\ N.eqb c (chr "%") = false) /\
  N.eqb c (chr "_") = false /\ N.eqb c (chr "^") = false.
Proof.
  intros Hl. apply isLetter_range in Hl.
  repeat split;
    first [ apply isSpace_printable; lia | apply N.eqb_neq; cbn; lia ].
Qed.

Lemma plain_at (pos : nat) :
  k <= pos ->
  match nth_error input pos with
  | Some x => (isSpace x = false /\ N.eqb x (chr "%") = false) /\
              N.eqb x (chr "_") = false /\ N.eqb x (chr "^") = false
  | None => True
  end.
Proof.
  intros Hk. destruct (nth_error input pos) as [x|] eqn:E; [|exact I].
  apply letter_plain. now apply letter_at with (pos := pos).
Qed.

Lemma stay_at (pos : nat) : k <= pos -> skipIgnorable input pos = Ret tt pos.
Proof.
  intros Hk. apply skipIgnorable_stay. pose proof (plain_at Hk) as H.
  destruct (nth_error input pos); [apply H | exact I].
Qed.

Lemma parseExpr1_letter (f pos : nat) (c : char) :
  k <= pos -> nth_error input pos = Some c ->
  parseExpr1 input cmds (S f) pos = Ret (Some (EIdentifier [c])) (S pos).
Proof.
  intros Hk E.
  apply parseExpr1_on_letter;
    [exact E | now apply letter_at with (pos := pos) |].
  pose proof (@plain_at (S pos) ltac:(lia)) as H.
  destruct (nth_error input (S pos)); [apply H | exact I].
Qed.

Lemma parseExpr_letter (f pos : nat) (c : char) :
  k <= pos -> nth_error input pos = Some c ->
  parseExpr input cmds (S (S f)) pos = Ret (Some (EIdentifier [c])) (S pos).
Proof.
  intros Hk E.
  change (parseExpr input cmds (S (S f)) pos)
    with (parseExprBody input (parseExpr1 input cmds (S f)) pos).
  unfold parseExprBody.
  eapply bind_run; [now apply stay_at|].
  eapply bind_run; [apply parseExpr1_letter; [exact Hk | exact E]|].
  eapply bind_run; [apply stay_at; lia|].
  eapply bind_run; [apply parseSubSup_absent; apply plain_at; lia|].
  reflexivity.
Qed.

Lemma skipn_nth_error {A} (l : list A) (pos : nat) (x : A) :
  nth_error l pos = Some x -> skipn pos l = x :: skipn (S pos) l.
Proof.
  revert pos. induction l as [|y l IH]; intros [|pos] E;
    try discriminate.
  - now injection E as ->.
  - cbn [nth_error] in E. now apply IH.
Qed.

Lemma parseLoop_letters (fuel : nat) :
  forall n pos exps,
  k <= pos -> List.length input - pos < n ->
  parseLoop input (parseExpr input cmds (S (S fuel))) n exps pos =
    Ret (exps ++ map (fun c => EIdentifier [c]) (skipn pos input))
        (Nat.max pos (List.length input)).
Proof.
  induction n as [|n IH]; intros pos exps Hk Hn; [lia|].
  cbn [parseLoop]. unfold bind at 1, peek at 1.
  destruct (nth_error input pos) as [c|] eqn:E.
  - assert (Hlt : pos < List.length input)
      by (apply nth_error_Some; congruence).
    eapply bind_run; [apply parseExpr_letter; [exact Hk | exact E]|].
    eapply bind_run; [apply stay_at; lia|].
    rewrite IH by lia.
    rewrite (skipn_nth_error _ _ E). cbn [map].
    rewrite <- app_assoc. cbn [app]. f_equal. lia.
  - apply nth_error_None in E.
    rewrite skipn_all2 by exact E. cbn [map].
    rewrite app_nil_r. unfold ret. f_equal. lia.
Qed.

Lemma identifiers_placed (s : jsstring) :
  PassSpec.binPlaced (map (fun c => EIdentifier [c]) s) = true.
Proof.
  unfold PassSpec.binPlaced. destruct s as [|c s]; [reflexivity|].
  cbn [map PassSpec.headPlaced FixBin.isBinSymbol negb andb].
  revert c. induction s as [|x s IH]; intros c; [reflexivity|].
  exact (IH x).
Qed.

End LetterRuns.

(** X10: an input of letters only parses to one identifier for each
    letter, in order: adjacent letters are never read as one name. *)
Theorem letters_parse_to_identifiers (cmds : Commands) (input : jsstring)
    (fuel : nat) :
  forallb isLetter input = true ->
  CursorSpec.enoughFuel input <= fuel ->
  readTeX cmds fuel input = Parsed (map (fun c => EIdentifier [c]) input).
Proof.
  intros Hl Hf. unfold CursorSpec.enoughFuel in Hf.
  destruct fuel as [|[|fuel]]; [lia | lia |].
  unfold readTeX, parse.
  rewrite (@bind_run _ _ _ _ 0 0 tt
             (Ret (map (fun c => EIdentifier [c]) input)
                  (Nat.max 0 (List.length input)))
             (@stay_at input 0 Hl 0 (Nat.le_refl 0))).
  - reflexivity.
  - eapply bind_run;
      [apply (@parseLoop_letters input cmds 0 Hl); [apply Nat.le_refl | lia]|].
    cbn [app skipn]. unfold ret. f_equal.
    exact (fold_fixBinStep_fixed _ [] (identifiers_placed input)).
Qed.

Lemma letters_parse_to_identifiers_witness :
  forallb isLetter (lit "abc") = true /\
  CursorSpec.enoughFuel (lit "abc") <= 8 /\
  readTeX Sample.commands 8 (lit "abc") =
    Parsed (map (fun c => EIdentifier [c]) (lit "abc")).
Proof.
  split; [reflexivity|]. split; [vm_compute; lia|].
  apply (@letters_parse_to_identifiers Sample.commands (lit "abc") 8);
    [reflexivity | vm_compute; lia].
Defined.

Section DigitRuns.

Variable cmds : Commands.
Variables ds ws : jsstring.
Hypothesis Hds : ds <> [].
Hypothesis Hdigits : forallb isDigit ds = true.
Hypothesis Hws : CursorSpec.blank ws = true.

Lemma space_not_printable (c : char) :
  isSpace c = true -> ~ (33 <= c <= 126)%N.
Proof. intros Hs Hr. rewrite (isSpace_printable Hr) in Hs. discriminate. Qed.

Lemma first_digit :
  exists d, nth_error (ds ++ ws) 0 = Some d /\ (48 <= d <= 57)%N.
Proof.
  destruct ds as [|d ds'] eqn:E; [contradiction|]. exists d.
  split; [reflexivity|]. cbn [forallb] in Hdigits.
  apply andb_true_iff in Hdigits as [Hd _]. now apply isDigit_range.
Qed.

Lemma after_digits :
  match nth_error (ds ++ ws) (List.length ds) with
  | Some c => isSpace c = true
  | None => True
  end.
Proof.
  destruct ws as [|c ws'] eqn:E.
  - now rewrite app_nil_r, nth_error_end.
  - rewrite nth_error_middle. cbn in Hws.
    now apply andb_true_iff in Hws as [Hc _].
Qed.

Lemma stay_on_digit : skipIgnorable (ds ++ ws) 0 = Ret tt 0.
Proof.
  destruct first_digit as [d [E Hr]].
  apply skipIgnorable_stay. rewrite E. split.
  - apply isSpace_printable. lia.
  - apply N.eqb_neq. cbn. lia.
Qed.

Lemma stay_at_end (s : jsstring) :
  skipIgnorable s (List.length s) = Ret tt (List.length s).
Proof. apply skipIgnorable_stay. now rewrite nth_error_end. Qed.

Lemma scan_digits :
  scanFrom (ds ++ ws) isDigit (List.length (ds ++ ws) - 0) 0 = List.length ds.
Proof.
  apply (@scanFrom_run isDigit ds [] ws (List.length (ds ++ ws) - 0) Hdigits).
  - destruct ws as [|c ws']; [exact I|]. cbn in Hws.
    apply andb_true_iff in Hws as [Hc _].
    apply not_true_is_false. intros Hd. apply isDigit_range in Hd.
    apply (space_not_printable Hc). lia.
  - rewrite length_app. lia.
Qed.

Lemma parseNumber_digits :
  parseNumber (ds ++ ws) 0 =
    Ret (Some (ENumber (ds ++ ws))) (List.length (ds ++ ws)).
Proof.
  unfold parseNumber.
  eapply bind_run; [apply stay_on_digit|].
  unfold bind at 1, getPos at 1. unfold bind at 1, scanWhile at 1.
  rewrite scan_digits.
  unfold bind at 1, getPos at 1. unfold bind at 1, peek at 1.
  assert (Hdot : peekIs (nth_error (ds ++ ws) (List.length ds)) "." = false).
  { pose proof after_digits as H.
    destruct (nth_error (ds ++ ws) (List.length ds)) as [c|]; [|reflexivity].
    cbn [peekIs peekIsCode]. apply N.eqb_neq. intros ->.
    apply (space_not_printable H). cbn. lia. }
  rewrite Hdot.
  unfold bind at 1, getPos at 1.
  assert (Hlen : Nat.eqb (List.length ds) 0 = false).
  { apply Nat.eqb_neq. destruct ds; [contradiction | discriminate]. }
  rewrite Hlen.
  eapply bind_run; [apply (skipIgnorable_blank ds ws Hws)|].
  unfold bind, substringFrom, ret, substring. cbn [skipn].
  now rewrite Nat.sub_0_r, firstn_all.
Qed.

Lemma parseExpr_digits (f : nat) :
  parseExpr (ds ++ ws) cmds (S (S f)) 0 =
    Ret (Some (ENumber (ds ++ ws))) (List.length (ds ++ ws)).
Proof.
  destruct first_digit as [d [E Hr]].
  change (parseExpr (ds ++ ws) cmds (S (S f)) 0)
    with (parseExprBody (ds ++ ws) (parseExpr1 (ds ++ ws) cmds (S f)) 0).
  unfold parseExprBody.
  eapply bind_run; [apply stay_on_digit|].
  eapply bind_run.
  { change (parseExpr1 (ds ++ ws) cmds (S f) 0)
      with (parseExpr1Body (ds ++ ws) cmds (parseExpr (ds ++ ws) cmds f)
              (parseExpr1 (ds ++ ws) cmds f) f 0).
    unfold parseExpr1Body.
    eapply bind_run; [apply stay_on_digit|].
    unfold orElse at 1.
    eapply bind_run.
    { eapply parseInBraces_absent; [exact E | ..].
      - apply isSpace_printable. lia.
      - apply N.eqb_neq. cbn. lia.
      - apply N.eqb_neq. cbn. lia. }
    unfold orElse at 1.
    eapply bind_run; [apply parseNumber_digits|].
    reflexivity. }
  eapply bind_run; [apply stay_at_end|].
  eapply bind_run;
    [apply parseSubSup_absent; now rewrite nth_error_end|].
  reflexivity.
Qed.

End DigitRuns.

(** X9: a run of digits, followed by white space or not, parses to one
    number, and the text of the number is the whole input: the white
    space after the digits is part of it. *)
Theorem digits_parse_to_one_number (cmds : Commands) (ds ws : jsstring)
    (fuel : nat) :
  ds <> [] -> forallb isDigit ds = true -> CursorSpec.blank ws = true ->
  2 <= fuel ->
  readTeX cmds fuel (ds ++ ws) = Parsed [ENumber (ds ++ ws)].
Proof.
  intros Hds Hdigits Hws Hf.
  destruct fuel as [|[|fuel]]; [lia | lia |].
  unfold readTeX, parse.
  rewrite (@bind_run _ _ _ _ 0 0 tt
             (Ret [ENumber (ds ++ ws)] (List.length (ds ++ ws)))
             (stay_on_digit ws Hds Hdigits)).
  - reflexivity.
  - destruct (first_digit ws Hds Hdigits) as [d [E _]].
    apply (@bind_run _ _ _ _ 0 (List.length (ds ++ ws))
             [ENumber (ds ++ ws)]); [|reflexivity].
    cbn [parseLoop].
    eapply bind_run; [reflexivity|]. rewrite E.
    eapply bind_run; [now apply parseExpr_digits|].
    eapply bind_run; [apply stay_at_end|].
    unfold bind, peek. rewrite nth_error_end. reflexivity.
Qed.

Lemma digits_parse_to_one_number_witness :
  lit "42" <> [] /\ forallb isDigit (lit "42") = true /\
  CursorSpec.blank (lit "  ") = true /\ 2 <= 2 /\
  readTeX Sample.commands 2 (lit "42" ++ lit "  ") =
    Parsed [ENumber (lit "42" ++ lit "  ")].
Proof.
  assert (Hne : lit "42" <> []) by discriminate.
  split; [exact Hne|]. split; [reflexivity|]. split; [reflexivity|].
  split; [apply Nat.le_refl|].
  apply (@digits_parse_to_one_number Sample.commands (lit "42") (lit "  ") 2);
    [exact Hne | reflexivity | reflexivity | apply Nat.le_refl].
Defined.

(** * The conversion as a whole *)

(** X11: what a caller of [latexToOmml] can get.  With enough fuel the
    conversion either returns the markup that [writeOMML] builds from
    the parsed expressions, or fails with one of two messages: the
    prefix of [latexToOmml] followed by the message of a missing
    closing brace or of a missing closing bracket. *)
Theorem latexToOmml_outcomes (cmds : Commands) (latex : jsstring)
    (displayType : DisplayType) (fuel : nat) :
  CursorSpec.enoughFuel latex <= fuel ->
  (exists ast,
     readTeX cmds fuel latex = Parsed ast /\
     Index.latexToOmml cmds fuel latex displayType =
       Index.Converted (writeOMML displayType ast)) \/
  Index.latexToOmml cmds fuel latex displayType =
    Index.Failed
      (lit "Failed to convert LaTeX to OMML: Expected closing brace") \/
  Index.latexToOmml cmds fuel latex displayType =
    Index.Failed
      (lit "Failed to convert LaTeX to OMML: Expected closing bracket").
Proof.
  intros Hf. pose proof (@wp_parse latex cmds fuel Hf) as Hwp.
  pose proof (@Safe_parse latex cmds fuel 0) as Hsafe.
  unfold Index.latexToOmml, readTeX, CursorSpec.wp in *.
  destruct (parse latex cmds fuel 0) as [|e|ast p]; [contradiction | |].
  - right. destruct (Hsafe e eq_refl) as [[-> _]|[-> _]];
      [left | right]; reflexivity.
  - left. exists ast. split; reflexivity.
Qed.

Lemma latexToOmml_outcomes_witness :
  CursorSpec.enoughFuel (lit "\sqrt[3") <= 16 /\
  ((exists ast,
      readTeX Sample.commands 16 (lit "\sqrt[3") = Parsed ast /\
      Index.latexToOmml Sample.commands 16 (lit "\sqrt[3") DisplayInline =
        Index.Converted (writeOMML DisplayInline ast)) \/
   Index.latexToOmml Sample.commands 16 (lit "\sqrt[3") DisplayInline =
     Index.Failed
       (lit "Failed to convert LaTeX to OMML: Expected closing brace") \/
   Index.latexToOmml Sample.commands 16 (lit "\sqrt[3") DisplayInline =
     Index.Failed
       (lit "Failed to convert LaTeX to OMML: Expected closing bracket")).
Proof.
  split; [vm_compute; lia|].
  apply (@latexToOmml_outcomes Sample.commands (lit "\sqrt[3") DisplayInline
           16).
  vm_compute. lia.
Defined.

(** * Control sequences *)

Section ControlSequences.

Variable pre : jsstring.

Lemma skipn_middle (post : jsstring) :
  skipn (List.length pre) (pre ++ post) = post.
Proof.
  rewrite skipn_app, Nat.sub_diag, skipn_all. reflexivity.
Qed.

End ControlSequences.

(** X12: how [readControlSequence] cuts a control sequence.  On a
    backslash followed by a character that is not a letter it reads
    these two characters; on a backslash followed by letters it reads
    the backslash and all the letters up to the first character that is
    not one. *)
Theorem readControlSequence_cuts (pre : jsstring) :
  (forall c rest,
     isLetter c = false ->
     readControlSequence (pre ++ backslash :: c :: rest) (List.length pre) =
       Ret (Some [backslash; c]) (List.length pre + 2)) /\
  (forall name rest,
     name <> [] -> forallb isLetter name = true ->
     match rest with
     | c :: _ => isLetter c = false
     | [] => True
     end ->
     readControlSequence (pre ++ backslash :: name ++ rest)
       (List.length pre) =
       Ret (Some (backslash :: name))
           (List.length pre + 1 + List.length name)).
Proof.
  split.
  - intros c rest Hc. unfold readControlSequence, bind, peek, advance, getPos.
    rewrite nth_error_middle. cbn [peekIs peekIsCode negb].
    change (N.eqb backslash (chr "\")) with true. cbn [negb].
    replace (pre ++ backslash :: c :: rest)
      with ((pre ++ [backslash]) ++ c :: rest) by now rewrite <- app_assoc.
    replace (List.length pre + 1) with (List.length (pre ++ [backslash]))
      by (rewrite length_app; reflexivity).
    rewrite nth_error_middle, Hc. cbn [negb]. unfold ret.
    rewrite length_app. cbn [List.length]. f_equal. lia.
  - intros name rest Hne Hname Hrest.
    unfold readControlSequence, bind, peek, advance, getPos, scanWhile.
    rewrite nth_error_middle. cbn [peekIs peekIsCode negb].
    change (N.eqb backslash (chr "\")) with true. cbn [negb].
    replace (pre ++ backslash :: name ++ rest)
      with ((pre ++ [backslash]) ++ name ++ rest) by now rewrite <- app_assoc.
    replace (List.length pre + 1) with (List.length (pre ++ [backslash]))
      by (rewrite length_app; reflexivity).
    assert (Hscan :
      scanFrom ((pre ++ [backslash]) ++ name ++ rest) isLetter
        (List.length ((pre ++ [backslash]) ++ name ++ rest) -
         List.length (pre ++ [backslash]))
        (List.length (pre ++ [backslash])) =
      List.length (pre ++ [backslash]) + List.length name).
    { apply scanFrom_run; [exact Hname | exact Hrest |].
      rewrite !length_app. lia. }
    destruct name as [|n0 name']; [contradiction|].
    cbn [forallb] in Hname. apply andb_true_iff in Hname as [Hn0 Hname'].
    change ((n0 :: name') ++ rest) with (n0 :: name' ++ rest) in *.
    rewrite nth_error_middle, Hn0. cbn [negb].
    rewrite Hscan.
    assert (Hneq : Nat.eqb (List.length (pre ++ [backslash]) +
                            List.length (n0 :: name'))
                     (List.length (pre ++ [backslash])) = false)
      by (apply Nat.eqb_neq; cbn [List.length]; lia).
    rewrite Hneq. unfold substringFrom, substring, ret.
    rewrite skipn_middle.
    replace (List.length (pre ++ [backslash]) + List.length (n0 :: name') -
             List.length (pre ++ [backslash]))
      with (List.length (n0 :: name')) by lia.
    change (n0 :: name' ++ rest) with ((n0 :: name') ++ rest).
    rewrite firstn_app, Nat.sub_diag, firstn_all, firstn_O, app_nil_r.
    reflexivity.
Qed.

Lemma readControlSequence_cuts_witness :
  readControlSequence (lit "x" ++ backslash :: chr "{" :: lit "y") 1 =
    Ret (Some [backslash; chr "{"]) 3 /\
  readControlSequence (lit "x" ++ backslash :: lit "alpha" ++ lit "+1") 1 =
    Ret (Some (backslash :: lit "alpha")) 7.
Proof.
  split.
  - apply (proj1 (@readControlSequence_cuts (lit "x"))). reflexivity.
  - apply (proj2 (@readControlSequence_cuts (lit "x")) (lit "alpha") (lit "+1"));
      [discriminate | reflexivity | reflexivity].
Defined.

(** * Scripts *)

Section ScriptRuns.

Variable cmds : Commands.
Variables b x y : char.
Hypothesis Hb : isLetter b = true.
Hypothesis Hx : isLetter x = true.
Hypothesis Hy : isLetter y = true.

(** Solves the side conditions of a run on an input whose characters
    are letters and script markers. *)
Ltac on_char :=
  cbn [nth_error Nat.add];
  repeat match goal with
  | |- _ /\ _ => split
  | |- True => exact I
  | |- Some _ = Some _ => reflexivity
  | |- isLetter _ = true => assumption
  | |- isSpace ?c = false =>
      first [ reflexivity
            | apply isSpace_printable;
              match goal with
              | H : isLetter c = true |- _ =>
                  apply isLetter_range in H; lia
              end ]
  | |- N.eqb ?c _ = false =>
      first [ reflexivity
            | apply N.eqb_neq;
              match goal with
              | H : isLetter c = true |- _ =>
                  apply isLetter_range in H; cbn; lia
              end ]
  end.

Ltac stay := apply skipIgnorable_stay; on_char.

Ltac on_letter := apply parseExpr1_on_letter; on_char.

Lemma parseSubSup_sub_super (f : nat) :
  parseSubSup [b; chr "_"; x; chr "^"; y]
    (parseExpr1 [b; chr "_"; x; chr "^"; y] cmds (S f)) (EIdentifier [b]) 1 =
    Ret (Some (ESubsup (EIdentifier [b]) (EIdentifier [x]) (EIdentifier [y])))
        5.
Proof.
  unfold parseSubSup.
  eapply bind_run; [stay|].
  eapply bind_run; [reflexivity|].
  cbn [nth_error peekIs peekIsCode Nat.add].
  change (N.eqb (chr "_") (chr "_")) with true. cbv iota.
  eapply bind_run; [reflexivity|].
  eapply bind_run; [stay|].
  eapply bind_run; [on_letter|].
  unfold secondScript.
  eapply bind_run; [stay|].
  eapply bind_run; [reflexivity|].
  cbn [nth_error peekIs peekIsCode Nat.add].
  change (N.eqb (chr "^") (chr "^")) with true. cbv iota.
  eapply bind_run; [reflexivity|].
  eapply bind_run; [stay|].
  eapply bind_run; [on_letter|].
  reflexivity.
Qed.

Lemma parseSubSup_super_sub (f : nat) :
  parseSubSup [b; chr "^"; y; chr "_"; x]
    (parseExpr1 [b; chr "^"; y; chr "_"; x] cmds (S f)) (EIdentifier [b]) 1 =
    Ret (Some (ESubsup (EIdentifier [b]) (EIdentifier [x]) (EIdentifier [y])))
        5.
Proof.
  unfold parseSubSup.
  eapply bind_run; [stay|].
  eapply bind_run; [reflexivity|].
  cbn [nth_error peekIs peekIsCode Nat.add].
  change (N.eqb (chr "^") (chr "_")) with false.
  change (N.eqb (chr "^") (chr "^")) with true. cbv iota.
  eapply bind_run; [reflexivity|].
  eapply bind_run; [stay|].
  eapply bind_run; [reflexivity|].
  cbn [nth_error peekIs peekIsCode Nat.add].
  assert (Hq : N.eqb y (chr "'") = false) by on_char.
  rewrite Hq.
  eapply bind_run; [on_letter|].
  unfold secondScript.
  eapply bind_run; [stay|].
  eapply bind_run; [reflexivity|].
  cbn [nth_error peekIs peekIsCode Nat.add].
  change (N.eqb (chr "_") (chr "_")) with true. cbv iota.
  eapply bind_run; [reflexivity|].
  eapply bind_run; [stay|].
  eapply bind_run; [on_letter|].
  reflexivity.
Qed.

Lemma parseExpr_sub_super (f : nat) :
  parseExpr [b; chr "_"; x; chr "^"; y] cmds (S (S f)) 0 =
    Ret (Some (ESubsup (EIdentifier [b]) (EIdentifier [x]) (EIdentifier [y])))
        5.
Proof.
  change (parseExpr ?i cmds (S (S f)) 0)
    with (parseExprBody i (parseExpr1 i cmds (S f)) 0).
  unfold parseExprBody.
  eapply bind_run; [stay|].
  eapply bind_run; [on_letter|].
  eapply bind_run; [stay|].
  eapply bind_run; [apply parseSubSup_sub_super|].
  reflexivity.
Qed.

Lemma parseExpr_super_sub (f : nat) :
  parseExpr [b; chr "^"; y; chr "_"; x] cmds (S (S f)) 0 =
    Ret (Some (ESubsup (EIdentifier [b]) (EIdentifier [x]) (EIdentifier [y])))
        5.
Proof.
  change (parseExpr ?i cmds (S (S f)) 0)
    with (parseExprBody i (parseExpr1 i cmds (S f)) 0).
  unfold parseExprBody.
  eapply bind_run; [stay|].
  eapply bind_run; [on_letter|].
  eapply bind_run; [stay|].
  eapply bind_run; [apply parseSubSup_super_sub|].
  reflexivity.
Qed.

Lemma parse_one (input : jsstring) (e : Exp) (f : nat) :
  skipIgnorable input 0 = Ret tt 0 ->
  nth_error input 0 <> None ->
  parseExpr input cmds (S (S f)) 0 = Ret (Some e) (List.length input) ->
  parse input cmds (S (S f)) 0 =
    Ret (FixBin.fixBinList [e]) (List.length input).
Proof.
  intros Hstay Hfirst Hexpr. unfold parse.
  eapply bind_run; [exact Hstay|].
  apply (@bind_run _ _ _ _ 0 (List.length input) [e]); [|reflexivity].
  cbn [parseLoop].
  eapply bind_run; [reflexivity|].
  destruct (nth_error input 0); [|contradiction].
  eapply bind_run; [exact Hexpr|].
  eapply bind_run; [apply skipIgnorable_stay; now rewrite nth_error_end|].
  unfold bind, peek. rewrite nth_error_end. reflexivity.
Qed.

End ScriptRuns.

(** X13: a subscript and a superscript may come in either order.  For
    letters [b], [x] and [y], the inputs [b_x^y] and [b^y_x] parse to
    the same single expression: [b] with the subscript [x] and the
    superscript [y]. *)
Theorem scripts_in_either_order (cmds : Commands) (b x y : char)
    (fuel : nat) :
  isLetter b = true -> isLetter x = true -> isLetter y = true ->
  2 <= fuel ->
  readTeX cmds fuel [b; chr "_"; x; chr "^"; y] =
    Parsed [ESubsup (EIdentifier [b]) (EIdentifier [x]) (EIdentifier [y])] /\
  readTeX cmds fuel [b; chr "^"; y; chr "_"; x] =
    Parsed [ESubsup (EIdentifier [b]) (EIdentifier [x]) (EIdentifier [y])].
Proof.
  intros Hb Hx Hy Hf. destruct fuel as [|[|fuel]]; [lia | lia |].
  assert (Hstay : forall rest, skipIgnorable (b :: rest) 0 = Ret tt 0).
  { intros rest. apply skipIgnorable_stay. cbn [nth_error].
    apply isLetter_range in Hb. split.
    - apply isSpace_printable. lia.
    - apply N.eqb_neq. cbn. lia. }
  unfold readTeX. split.
  - rewrite (@parse_one cmds _ _ fuel (Hstay _) ltac:(discriminate)
               (@parseExpr_sub_super cmds b x y Hb Hx Hy fuel)).
    reflexivity.
  - rewrite (@parse_one cmds _ _ fuel (Hstay _) ltac:(discriminate)
               (@parseExpr_super_sub cmds b x y Hb Hx Hy fuel)).
    reflexivity.
Qed.

Lemma scripts_in_either_order_witness :
  isLetter (chr "a") = true /\ isLetter (chr "i") = true /\
  isLetter (chr "n") = true /\ 2 <= 2 /\
  readTeX Sample.commands 2 (lit "a_i^n") =
    Parsed [ESubsup (EIdentifier (lit "a")) (EIdentifier (lit "i"))
              (EIdentifier (lit "n"))] /\
  readTeX Sample.commands 2 (lit "a^n_i") =
    Parsed [ESubsup (EIdentifier (lit "a")) (EIdentifier (lit "i"))
              (EIdentifier (lit "n"))].
Proof.
  split; [reflexivity|]. split; [reflexivity|]. split; [reflexivity|].
  split; [apply Nat.le_refl|].
  apply (@scripts_in_either_order Sample.commands (chr "a") (chr "i")
           (chr "n") 2);
    [reflexivity | reflexivity | reflexivity | apply Nat.le_refl].
Defined.

(** * The end of the input, and a region that is not closed *)

Section EndRuns.

Variable input : jsstring.
Variable cmds : Commands.

Lemma stay_at_end_of_input :
  skipIgnorable input (List.length input) = Ret tt (List.length input).
Proof. apply skipIgnorable_stay. now rewrite nth_error_end. Qed.

Lemma readControlSequence_absent (pos : nat) :
  peekIs (nth_error input pos) "\" = false ->
  readControlSequence input pos = Ret None pos.
Proof.
  intros H. unfold readControlSequence, bind, peek. now rewrite H.
Qed.

Lemma readBraces_at_end {T} (parser : M T) :
  readBraces input parser (List.length input) = Ret None (List.length input).
Proof.
  unfold readBraces.
  eapply bind_run; [apply stay_at_end_of_input|].
  unfold bind, peek. now rewrite nth_error_end.
Qed.

Lemma matchStr_at_end (c : char) (s : jsstring) :
  matchStr input (c :: s) (List.length input) = Ret false (List.length input).
Proof.
  unfold matchStr, substr. rewrite skipn_all, firstn_nil. reflexivity.
Qed.

Lemma parseExpr1_at_end (f : nat) :
  parseExpr1 input cmds (S f) (List.length input) =
    Ret None (List.length input).
Proof.
  change (parseExpr1 input cmds (S f) (List.length input))
    with (parseExpr1Body input cmds (parseExpr input cmds f)
            (parseExpr1 input cmds f) f (List.length input)).
  unfold parseExpr1Body.
  eapply bind_run; [apply stay_at_end_of_input|].
  unfold orElse at 1.
  eapply bind_run.
  { unfold parseInBraces.
    eapply bind_run; [apply readBraces_at_end|]. reflexivity. }
  unfold orElse at 1.
  eapply bind_run.
  { unfold parseNumber.
    eapply bind_run; [apply stay_at_end_of_input|].
    unfold bind, getPos, scanWhile, peek.
    rewrite scanFrom_stay by now rewrite nth_error_end.
    rewrite nth_error_end. cbn [peekIs peekIsCode].
    now rewrite Nat.eqb_refl. }
  unfold orElse at 1.
  eapply bind_run.
  { unfold parseVariable.
    eapply bind_run; [apply stay_at_end_of_input|].
    unfold bind, peek. now rewrite nth_error_end. }
  unfold orElse at 1.
  eapply bind_run.
  { unfold parseCommand.
    eapply bind_run;
      [apply readControlSequence_absent; now rewrite nth_error_end|].
    reflexivity. }
  unfold orElse at 1.
  eapply bind_run.
  { unfold parseOperator.
    eapply bind_run; [apply stay_at_end_of_input|].
    cbn [tryOperators lit list_ascii_of_string map].
    do 4 (eapply bind_run; [apply matchStr_at_end|]; cbv iota).
    unfold bind, peek. now rewrite nth_error_end. }
  unfold parseEnclosure, bind, peek. now rewrite nth_error_end.
Qed.

(** At the end of the input [parseExpr] yields nothing. *)
Lemma parseExpr_at_end (f : nat) :
  parseExpr input cmds (S (S f)) (List.length input) =
    Ret None (List.length input).
Proof.
  change (parseExpr input cmds (S (S f)) (List.length input))
    with (parseExprBody input (parseExpr1 input cmds (S f))
            (List.length input)).
  unfold parseExprBody.
  eapply bind_run; [apply stay_at_end_of_input|].
  eapply bind_run; [apply parseExpr1_at_end|].
  reflexivity.
Qed.

Lemma parseDelimiter_at_end :
  parseDelimiter input cmds (List.length input) =
    Ret None (List.length input).
Proof.
  unfold parseDelimiter.
  eapply bind_run; [apply stay_at_end_of_input|].
  eapply bind_run; [reflexivity|].
  rewrite nth_error_end. cbn [peekIs peekIsCode].
  eapply bind_run;
    [apply readControlSequence_absent; now rewrite nth_error_end|].
  unfold singleDelimiter, bind, peek. now rewrite nth_error_end.
Qed.

Lemma parseVariable_absent (pos : nat) (c : char) :
  nth_error input pos = Some c ->
  isSpace c = false -> N.eqb c (chr "%") = false -> isLetter c = false ->
  parseVariable input pos = Ret None pos.
Proof.
  intros E Hs Hp Hl. unfold parseVariable.
  eapply bind_run; [apply skipIgnorable_stay; now rewrite E|].
  unfold bind, peek. now rewrite E, Hl.
Qed.

End EndRuns.

Section DelimitedRuns.

Variable input : jsstring.
Variable cmds : Commands.
Variable k : nat.
Hypothesis Hletters : forallb isLetter (skipn k input) = true.

Lemma no_backslash_at (pos : nat) :
  k <= pos -> peekIs (nth_error input pos) "\" = false.
Proof.
  intros Hk. destruct (nth_error input pos) as [c|] eqn:E; [|reflexivity].
  pose proof (@letter_at input k Hletters pos c Hk E) as Hl.
  apply isLetter_range in Hl. cbn [peekIs peekIsCode].
  apply N.eqb_neq. cbn. lia.
Qed.

(** Over letters the loop of [parseDelimited] collects one identifier
    for each letter and stops at the end of the input. *)
Lemma delimitedLoop_letters (f : nat) :
  forall n pos content,
  k <= pos -> pos <= List.length input -> List.length input - pos < n ->
  delimitedLoop input cmds (parseExpr input cmds (S (S f))) n content pos =
    Ret (content ++
         map (fun c => Right (EIdentifier [c])) (skipn pos input))
        (List.length input).
Proof.
  induction n as [|n IH]; intros pos content Hk Hle Hn; [lia|].
  cbn [delimitedLoop].
  eapply bind_run; [exact (@stay_at input k Hletters pos Hk)|].
  eapply bind_run; [reflexivity|].
  eapply bind_run;
    [apply readControlSequence_absent; now apply no_backslash_at|].
  cbn [readIs].
  eapply bind_run; [reflexivity|].
  destruct (nth_error input pos) as [c|] eqn:E.
  - assert (Hlt : pos < List.length input)
      by (apply nth_error_Some; congruence).
    eapply bind_run;
      [exact (@parseExpr_letter input cmds k Hletters f pos c Hk E)|].
    cbv iota. rewrite IH by lia.
    rewrite (skipn_nth_error _ _ E). cbn [map].
    now rewrite <- app_assoc.
  - apply nth_error_None in E.
    assert (pos = List.length input) as -> by lia.
    eapply bind_run; [apply parseExpr_at_end|].
    rewrite skipn_all. cbn [map]. now rewrite app_nil_r.
Qed.

End DelimitedRuns.

Section UnclosedRegion.

Variable cmds : Commands.
Variable d : char.
Variable ls : jsstring.
Hypothesis Hd : isEnclosureChar d = true.
Hypothesis Hls : forallb isLetter ls = true.
Hypothesis Hleft : symbols cmds (lit "\left") = None.

Lemma enclosure_char :
  (isSpace d = false /\ N.eqb d (chr "%") = false) /\
  isLetter d = false /\
  peekIs (Some d) "." = false /\ peekIs (Some d) "\" = false.
Proof.
  pose proof Hd as H. unfold isEnclosureChar in H. cbn in H.
  repeat (apply orb_true_iff in H; destruct H as [H|H]);
    try discriminate H;
    apply N.eqb_eq in H; rewrite H; repeat split; reflexivity.
Qed.

(** Decides the comparisons of a command name with the names that
    [parseCommand] knows. *)
Ltac decide_cmd :=
  repeat match goal with
  | |- context [cmdIs ?a ?b] =>
      let v := eval vm_compute in (cmdIs a b) in
      change (cmdIs a b) with v
  end;
  cbv iota.

Lemma parseDelimiter_single :
  parseDelimiter (lit "\left" ++ d :: ls) cmds 5 = Ret (Some [d]) 6.
Proof.
  destruct enclosure_char as [Hsig [_ [Hdot Hbs]]].
  unfold parseDelimiter.
  eapply bind_run; [apply skipIgnorable_stay; exact Hsig|].
  eapply bind_run; [reflexivity|].
  change (nth_error (lit "\left" ++ d :: ls) 5) with (Some d).
  rewrite Hdot.
  eapply bind_run; [apply readControlSequence_absent; exact Hbs|].
  unfold singleDelimiter.
  eapply bind_run; [reflexivity|].
  change (nth_error (lit "\left" ++ d :: ls) 5) with (Some d).
  cbv iota. rewrite Hd.
  eapply bind_run; [reflexivity|].
  eapply bind_run; [exact (@stay_at (lit "\left" ++ d :: ls) 6 Hls 6
                             (Nat.le_refl 6))|].
  reflexivity.
Qed.

Lemma parseCommand_left (f : nat) :
  List.length ls < S (S f) ->
  parseCommand (lit "\left" ++ d :: ls) cmds
    (parseExpr (lit "\left" ++ d :: ls) cmds (S (S f)))
    (parseExpr1 (lit "\left" ++ d :: ls) cmds (S (S f))) (S (S f)) 0 =
    Ret (Some (EDelimited [d] []
                 (map (fun c => Right (EIdentifier [c])) ls)))
        (List.length (lit "\left" ++ d :: ls)).
Proof.
  intros Hf. destruct enclosure_char as [Hsig [Hnl _]].
  set (input := lit "\left" ++ d :: ls).
  unfold parseCommand.
  eapply bind_run.
  { exact (proj2 (readControlSequence_cuts []) (lit "left") (d :: ls)
             ltac:(discriminate) eq_refl Hnl). }
  cbv iota.
  eapply bind_run; [apply skipIgnorable_stay; exact Hsig|].
  change (backslash :: lit "left") with (lit "\left").
  rewrite Hleft. decide_cmd.
  unfold parseDelimited.
  eapply bind_run; [apply parseDelimiter_single|].
  cbv iota.
  eapply bind_run.
  { apply (@delimitedLoop_letters input cmds 6 Hls f (S (S f)) 6 []).
    - apply Nat.le_refl.
    - unfold input. rewrite length_app. cbn [List.length lit
        list_ascii_of_string map]. lia.
    - unfold input. rewrite length_app. cbn [List.length lit
        list_ascii_of_string map]. lia. }
  eapply bind_run; [apply parseDelimiter_at_end|].
  reflexivity.
Qed.

Lemma parseExpr1_left (f : nat) :
  List.length ls < S (S f) ->
  parseExpr1 (lit "\left" ++ d :: ls) cmds (S (S (S f))) 0 =
    Ret (Some (EDelimited [d] []
                 (map (fun c => Right (EIdentifier [c])) ls)))
        (List.length (lit "\left" ++ d :: ls)).
Proof.
  intros Hf.
  set (input := lit "\left" ++ d :: ls).
  change (parseExpr1 input cmds (S (S (S f))) 0)
    with (parseExpr1Body input cmds (parseExpr input cmds (S (S f)))
            (parseExpr1 input cmds (S (S f))) (S (S f)) 0).
  unfold parseExpr1Body.
  eapply bind_run; [apply skipIgnorable_stay; now split|].
  unfold orElse at 1.
  eapply bind_run;
    [apply parseInBraces_absent with (c := backslash); reflexivity|].
  unfold orElse at 1.
  eapply bind_run;
    [apply parseNumber_absent with (c := backslash); reflexivity|].
  unfold orElse at 1.
  eapply bind_run;
    [apply parseVariable_absent with (c := backslash); reflexivity|].
  unfold orElse at 1.
  eapply bind_run; [now apply parseCommand_left|].
  reflexivity.
Qed.

Lemma parseExpr_left (f : nat) :
  List.length ls < S (S f) ->
  parseExpr (lit "\left" ++ d :: ls) cmds (S (S (S (S f)))) 0 =
    Ret (Some (EDelimited [d] []
                 (map (fun c => Right (EIdentifier [c])) ls)))
        (List.length (lit "\left" ++ d :: ls)).
Proof.
  intros Hf.
  change (parseExpr ?i cmds (S (S (S (S f)))) 0)
    with (parseExprBody i (parseExpr1 i cmds (S (S (S f)))) 0).
  unfold parseExprBody.
  eapply bind_run; [apply skipIgnorable_stay; now split|].
  eapply bind_run; [now apply parseExpr1_left|].
  eapply bind_run; [apply stay_at_end_of_input|].
  eapply bind_run;
    [apply parseSubSup_absent; now rewrite nth_error_end|].
  reflexivity.
Qed.

End UnclosedRegion.

(** X14: a region opened by [\left] need not be closed.  When [\left]
    with one of the delimiters [( ) [ ] |] is followed by letters only,
    the input parses without an error to one delimited region with
    that opening delimiter, an empty closing delimiter and one
    identifier for each letter (in a table where [\left] is not a
    symbol). *)
Theorem unclosed_left_is_accepted (cmds : Commands) (d : char)
    (ls : jsstring) (fuel : nat) :
  isEnclosureChar d = true -> forallb isLetter ls = true ->
  symbols cmds (lit "\left") = None ->
  CursorSpec.enoughFuel (lit "\left" ++ d :: ls) <= fuel ->
  readTeX cmds fuel (lit "\left" ++ d :: ls) =
    Parsed [EDelimited [d] []
              (map (fun c => Right (EIdentifier [c])) ls)].
Proof.
  intros Hd Hls Hleft Hf. unfold CursorSpec.enoughFuel in Hf.
  rewrite length_app in Hf.
  cbn [List.length lit list_ascii_of_string map] in Hf.
  destruct fuel as [|[|[|[|fuel]]]]; try lia.
  unfold readTeX.
  rewrite (@parse_one cmds (lit "\left" ++ d :: ls)
             (EDelimited [d] [] (map (fun c => Right (EIdentifier [c])) ls))
             (S (S fuel))).
  - reflexivity.
  - apply skipIgnorable_stay. now split.
  - discriminate.
  - apply parseExpr_left; [assumption | assumption | assumption | lia].
Qed.

Lemma unclosed_left_is_accepted_witness :
  isEnclosureChar (chr "(") = true /\ forallb isLetter (lit "ab") = true /\
  symbols Sample.commands (lit "\left") = None /\
  CursorSpec.enoughFuel (lit "\left" ++ chr "(" :: lit "ab") <= 18 /\
  readTeX Sample.commands 18 (lit "\left" ++ chr "(" :: lit "ab") =
    Parsed [EDelimited [chr "("] []
              (map (fun c => Right (EIdentifier [c])) (lit "ab"))].
Proof.
  split; [reflexivity|]. split; [reflexivity|]. split; [reflexivity|].
  split; [vm_compute; lia|].
  apply (@unclosed_left_is_accepted Sample.commands (chr "(") (lit "ab") 18);
    [reflexivity | reflexivity | reflexivity | vm_compute; lia].
Defined.

(* ================================================================== *)
(** * What the reader raises, and what a braced group yields *)

Section RaisedWithin.

Import ReaderSpec.

(** Whatever is raised carries a position within the input. *)
Lemma raised_within_input (cmds : Commands) (fuel : nat) (input : jsstring)
    (e : ParseError) :
  readTeX cmds fuel input = Raised e -> position e <= List.length input.
Proof.
  intros H.
  set (F := Nat.max fuel (CursorSpec.enoughFuel input)).
  assert (HF : readTeX cmds F input = Raised e).
  { refine (@readTeX_stable cmds cmds fuel F input (Raised e)
              (sameCommands_refl cmds) _ H _); [unfold F; lia | discriminate]. }
  pose proof (@wp_parse input cmds F ltac:(unfold F; lia)) as Hwp.
  unfold CursorSpec.wp in Hwp. unfold readTeX in HF.
  destruct (parse input cmds F 0) as [|e'|exps p]; try discriminate.
  now injection HF as <-.
Qed.

End RaisedWithin.

(** C5 as stated fails: the reader also aborts on an input in which no
    closing brace is missing.  In [\boxed{x+y}] the brace opened at 6
    is closed at 10, but [\boxed] reads one expression inside its
    braces and the closing brace is then required at 8, where the [+]
    is. *)
Lemma balanced_input_raises :
  ReaderSpec.balanced (lit "\boxed{x+y}") = true /\
  nth_error (lit "\boxed{x+y}") 10 = Some (chr "}") /\
  readTeX Sample.commands 8 (lit "\boxed{x+y}")
    = Raised (mkParseError (lit "Expected closing brace") 8).
Proof. repeat split; vm_compute; reflexivity. Qed.

(** C5, amended: [\frac{1}{2] fails with the error of the missing
    brace, at the position where the brace is missing (the end of the
    input).  Whatever input the reader fails on, with whatever fuel and
    table, it fails with the error of [readBraces] or of
    [readBrackets], at a position within the input where the closing
    brace or bracket that is required is not found.  No closing brace
    need be missing for that: [\boxed{x+y}], whose braces are balanced,
    fails at 8, where the brace is required after the one expression
    that [\boxed] reads. *)
Theorem only_the_closing_check_raises (cmds : Commands) :
  symbols cmds (lit "\frac") = None ->
  (forall fuel, 4 <= fuel ->
     readTeX cmds fuel (lit "\frac{1}{2")
       = Raised (mkParseError (lit "Expected closing brace") 10)) /\
  List.length (lit "\frac{1}{2") = 10 /\
  (forall fuel input e,
     readTeX cmds fuel input = Raised e ->
     ReaderSpec.missingClose input e /\ position e <= List.length input) /\
  (symbols cmds (lit "\boxed") = None ->
   textOps cmds (lit "\boxed") = None ->
   styleOps cmds (lit "\boxed") = None ->
   forall fuel, 3 <= fuel ->
     ReaderSpec.balanced (lit "\boxed{x+y}") = true /\
     readTeX cmds fuel (lit "\boxed{x+y}")
       = Raised (mkParseError (lit "Expected closing brace") 8)).
Proof.
  intros Hsym. split; [|split; [reflexivity|split]].
  - intros fuel Hfuel.
    run_reader
      (mkCommands (ReaderSpec.override "\frac" None (symbols cmds))
                  (operators cmds) (enclosures cmds) (styleOps cmds)
                  (textOps cmds)) 4.
  - intros fuel input e H. split; [|exact (raised_within_input _ _ _ H)].
    unfold readTeX in H.
    destruct (parse input cmds fuel 0) as [|e'|exps pos] eqn:E;
      try discriminate.
    injection H as <-. eapply Safe_parse. eassumption.
  - intros Hbsym Hbtext Hbstyle fuel Hfuel. split; [reflexivity|].
    run_reader
      (mkCommands (ReaderSpec.override "\boxed" None (symbols cmds))
                  (operators cmds) (enclosures cmds)
                  (ReaderSpec.override "\boxed" None (styleOps cmds))
                  (ReaderSpec.override "\boxed" None (textOps cmds))) 3.
Qed.

Lemma only_the_closing_check_raises_witness :
  symbols Sample.commands (lit "\frac") = None /\
  readTeX Sample.commands 10 (lit "\frac{1}{2")
    = Raised (mkParseError (lit "Expected closing brace") 10).
Proof.
  split; [reflexivity|].
  refine (proj1 (@only_the_closing_check_raises Sample.commands eq_refl) 10 _).
  lia.
Defined.

(** ** Braced groups *)

Section Groups.

Import ReaderSpec.

Variable input : jsstring.

Lemma groupExps_single (e : Exp) : groupExps [e] = e.
Proof. reflexivity. Qed.

Lemma groupExps_other (exps : list Exp) :
  List.length exps <> 1 -> groupExps exps = EGrouped exps.
Proof.
  destruct exps as [|e [|e' exps]]; cbn; intros Hlen;
    [reflexivity | congruence | reflexivity].
Qed.

(** The loop of [parseInBraces] returns the expressions that the
    parser reads up to the closing brace. *)
Lemma collectUntilBrace_collects (parser : M (option Exp)) (exps : list Exp) :
  forall n acc pos stop,
  collects input endsGroup parser pos exps stop ->
  List.length exps < n ->
  collectUntilBrace input parser n acc pos = Ret (acc ++ exps) stop.
Proof.
  induction exps as [|e exps IH]; intros n acc pos stop Hc Hn;
    (destruct n as [|n]; [cbn [List.length] in Hn; lia|]);
    cbn [collectUntilBrace collects] in *; unfold bind, peek.
  - destruct Hc as [-> Hend]. rewrite app_nil_r.
    destruct (nth_error input pos) as [x|]; [|reflexivity].
    cbn [endsGroup] in Hend. now rewrite Hend.
  - destruct Hc as [Hend [p [Hp Hrest]]].
    destruct (nth_error input pos) as [x|]; [|discriminate Hend].
    cbn [endsGroup] in Hend. rewrite Hend, Hp.
    rewrite (IH n (acc ++ [e]) p stop Hrest)
      by (cbn [List.length] in Hn; lia).
    now rewrite <- app_assoc.
Qed.

(** The loop of [parseGroupedExpr], likewise, up to a closing brace or
    bracket. *)
Lemma groupedLoop_collects (parser : M (option Exp)) (exps : list Exp) :
  forall n acc pos stop,
  collects input endsArgument parser pos exps stop ->
  List.length exps < n ->
  groupedLoop input parser n acc pos = Ret (acc ++ exps) stop.
Proof.
  induction exps as [|e exps IH]; intros n acc pos stop Hc Hn;
    (destruct n as [|n]; [cbn [List.length] in Hn; lia|]);
    cbn [groupedLoop collects] in *; unfold bind, peek.
  - destruct Hc as [-> Hend]. rewrite app_nil_r.
    destruct (nth_error input pos) as [x|]; [|reflexivity].
    cbn [endsArgument] in Hend. now rewrite Hend.
  - destruct Hc as [Hend [p [Hp Hrest]]].
    destruct (nth_error input pos) as [x|]; [|discriminate Hend].
    cbn [endsArgument] in Hend. rewrite Hend, Hp.
    rewrite (IH n (acc ++ [e]) p stop Hrest)
      by (cbn [List.length] in Hn; lia).
    now rewrite <- app_assoc.
Qed.

(** A group whose content the parser reads up to the closing brace. *)
Lemma parseInBraces_collects (parser : M (option Exp)) (fuel : nat)
    (pos start stop after : nat) (exps : list Exp) :
  opensGroup input pos start ->
  collects input endsGroup parser start exps stop ->
  closesGroup input stop after ->
  List.length exps < fuel ->
  parseInBraces input parser fuel pos = Ret (Some (groupExps exps)) after.
Proof.
  intros [q [Hq [Hopen Hstart]]] Hc [Hclose Hafter] Hf.
  unfold parseInBraces.
  apply (@bind_run _ _ _ _ pos after (Some exps)); [|reflexivity].
  unfold readBraces.
  eapply bind_run; [exact Hq|].
  eapply bind_run; [reflexivity|].
  rewrite Hopen. cbn [peekIs peekIsCode]. rewrite N.eqb_refl. cbn [negb].
  eapply bind_run; [reflexivity|].
  eapply bind_run; [exact Hstart|].
  eapply bind_run;
    [exact (@collectUntilBrace_collects parser exps fuel [] start stop Hc Hf)|].
  eapply bind_run.
  { apply skipIgnorable_stay. rewrite Hclose. split; reflexivity. }
  eapply bind_run.
  { unfold expectClose, bind, peek. rewrite Hclose.
    cbn [peekIs peekIsCode]. rewrite N.eqb_refl. reflexivity. }
  eapply bind_run; [exact Hafter|].
  reflexivity.
Qed.

Lemma parseGroupedExpr_collects (parser : M (option Exp)) (fuel : nat)
    (start stop : nat) (exps : list Exp) :
  collects input endsArgument parser start exps stop ->
  List.length exps < fuel ->
  parseGroupedExpr input parser fuel start = Ret (groupExps exps) stop.
Proof.
  intros Hc Hf. unfold parseGroupedExpr.
  eapply bind_run;
    [exact (@groupedLoop_collects parser exps fuel [] start stop Hc Hf)|].
  reflexivity.
Qed.

(** [parseExpr1] tries the braced group first. *)
Lemma parseExpr1_group (cmds : Commands) (fuel : nat)
    (pos start stop after : nat) (exps : list Exp) :
  opensGroup input pos start ->
  collects input endsGroup (parseExpr input cmds fuel) start exps stop ->
  closesGroup input stop after ->
  List.length exps < fuel ->
  parseExpr1 input cmds (S fuel) pos = Ret (Some (groupExps exps)) after.
Proof.
  intros [q [Hq [Hopen Hstart]]] Hc Hcl Hf.
  change (parseExpr1 input cmds (S fuel) pos)
    with (parseExpr1Body input cmds (parseExpr input cmds fuel)
            (parseExpr1 input cmds fuel) fuel pos).
  unfold parseExpr1Body.
  eapply bind_run; [exact Hq|].
  unfold orElse at 1.
  eapply bind_run.
  { apply (@parseInBraces_collects (parseExpr input cmds fuel) fuel q start
             stop after exps); try assumption.
    exists q. split; [|split; assumption].
    apply skipIgnorable_stay. rewrite Hopen. split; reflexivity. }
  reflexivity.
Qed.

End Groups.


